(** * Stream Deck protocol layer: a shallow embedding of [models/base.ts]

    The class [StreamDeckBase] turns key fills, panel fills and brightness
    changes into fixed-size HID reports, and turns raw input reports into
    edge-triggered key events.  This development embeds the class as Rocq
    functions and proves the properties its specification states.

    Conventions of the embedding:
    - a JavaScript [number] is an integer of [Z] (fractions, [NaN] and
      strings passed as numbers are outside the model);
    - a Node [Buffer] or a [number[]] holding bytes is a [list Z];
    - a synchronous call that may throw returns a [Completion];
    - a method that touches the device or [keyState] is a state transformer
      over [StreamDeck], returning an [Outcome] that tells a synchronous
      throw from a rejected and from a fulfilled promise. *)

From Equations Require Import Equations.
From Equations.Prop Require Import Logic.
From stdpp Require Import base option list list_numbers gmap strings.
From Stdlib Require Import ZArith Lia.

Local Open Scope Z_scope.

(** ** Errors *)

(** The errors the class can surface.  The first four are raised by the
    class's own argument checks; the others come from the runtime or from
    the collaborators. *)
Inductive Error : Set :=
  | InvalidKeyIndex     (* TypeError: Expected a valid keyIndex 0 - n *)
  | InvalidRGBValue     (* TypeError: Expected a valid color RGB value 0 - 255 *)
  | InvalidImageLength  (* RangeError: Expected image buffer of length n, got length m *)
  | InvalidBrightness   (* RangeError: Expected brightness percentage to be between 0 and 100 *)
  | BufferOutOfRange    (* RangeError raised by a Buffer write, copy or alloc *)
  | InvalidArrayLength  (* RangeError: Invalid array length *)
  | EncodeFailure       (* rejection of convertFillImage *)
  | TransportFailure.   (* rejection of a HIDDevice call *)

#[global] Instance Error_eq_dec : EqDecision Error.
Proof. solve_decision. Defined.

(** The errors of the class's own validation ([checkValidKeyIndex],
    [checkRGBValue] and the two length/percentage guards). *)
Definition isValidationError (e : Error) : bool :=
  match e with
  | InvalidKeyIndex | InvalidRGBValue | InvalidImageLength | InvalidBrightness => true
  | _ => false
  end.

(** Result of a synchronous computation. *)
Inductive Completion (A : Type) : Type :=
  | Normal (a : A)
  | Throw (e : Error).
Arguments Normal {A} a.
Arguments Throw {A} e.

#[global] Instance Completion_ret : MRet Completion := @Normal.
#[global] Instance Completion_bind : MBind Completion := fun A B f c =>
  match c with
  | Normal a => f a
  | Throw e => Throw e
  end.

(** ** Node's [Buffer] *)

Abbreviation Buffer := (list Z) (only parsing).

Definition byteLength (b : Buffer) : Z := Z.of_nat (length b).

(** [b[i]]: [None] stands for [undefined]. *)
Definition byteAt (b : Buffer) (i : Z) : option Z :=
  if i <? 0 then None else b !! Z.to_nat i.

(** [Buffer.alloc(size)]: zero-filled; a negative size is refused. *)
Definition Buffer_alloc (size : Z) : Completion Buffer :=
  if size <? 0 then Throw BufferOutOfRange
  else Normal (replicate (Z.to_nat size) 0).

(** [Buffer.alloc(size, fill)] with a non-empty Buffer as [fill]: the
    pattern is repeated, and cut where the buffer ends. *)
Definition Buffer_alloc_fill (size : Z) (fill : Buffer) : Completion Buffer :=
  if size <? 0 then Throw BufferOutOfRange
  else Normal ((fun i => default 0 (byteAt fill (i mod byteLength fill)))
                 <$> seqZ 0 size).

(** [Buffer.from(array)]: every entry is reduced modulo 256. *)
Definition Buffer_from (array : list Z) : Buffer :=
  (fun v => Z.land v 255) <$> array.

(** [buf.writeUInt8(value, offset)]: the value and the offset are range
    checked; the buffer is returned with the byte replaced. *)
Definition writeUInt8 (buf : Buffer) (value offset : Z) : Completion Buffer :=
  if (value <? 0) || (255 <? value) then Throw BufferOutOfRange
  else if (offset <? 0) || (byteLength buf <=? offset) then Throw BufferOutOfRange
  else Normal (<[Z.to_nat offset := value]> buf).

(** [buf.writeUInt16LE(value, offset)]: low byte first. *)
Definition writeUInt16LE (buf : Buffer) (value offset : Z) : Completion Buffer :=
  if (value <? 0) || (65535 <? value) then Throw BufferOutOfRange
  else if (offset <? 0) || (byteLength buf <=? offset + 1) then Throw BufferOutOfRange
  else Normal (<[Z.to_nat (offset + 1) := Z.shiftr value 8]>
                 (<[Z.to_nat offset := Z.land value 255]> buf)).

(** [source.copy(target, targetStart, sourceStart, sourceEnd)], returning
    the target after the copy.  Negative positions are refused; a copy that
    starts past the target or has an empty source range copies nothing; the
    range is cut to what the target and the source hold. *)
Definition Buffer_copy (source target : Buffer)
    (targetStart sourceStart sourceEnd : Z) : Completion Buffer :=
  if (targetStart <? 0) || (sourceStart <? 0) || (sourceEnd <? 0)
  then Throw BufferOutOfRange
  else if (byteLength target <=? targetStart) || (sourceEnd <=? sourceStart)
  then Normal target
  else if byteLength source <? sourceStart then Throw BufferOutOfRange
  else
    let sourceEnd :=
      if byteLength target - targetStart <? sourceEnd - sourceStart
      then sourceStart + byteLength target - targetStart else sourceEnd in
    let nb := Z.min (sourceEnd - sourceStart) (byteLength source - sourceStart) in
    Normal (take (Z.to_nat targetStart) target
            ++ take (Z.to_nat nb) (drop (Z.to_nat sourceStart) source)
            ++ drop (Z.to_nat (targetStart + nb)) target).

(** Modelled from the spec: [bufferToIntArray] of [../util] is not among
    the sources; a Packet is a "fixed-length byte array", so the conversion
    keeps the bytes of the Buffer, in order. *)
Definition bufferToIntArray (buffer : Buffer) : list Z := buffer.

(** ** The packet framer *)

(** [getFillImageCommandHeaderLength()] *)
Definition getFillImageCommandHeaderLength : Z := 16.

(** [writeFillImageCommandHeader(buffer, keyIndex, partIndex, isLast, _bodyLength)] *)
Definition writeFillImageCommandHeader (buffer : Buffer)
    (keyIndex partIndex : Z) (isLast : bool) (_bodyLength : Z) : Completion Buffer :=
  buffer ← writeUInt8 buffer 0x02 0;
  buffer ← writeUInt8 buffer 0x01 1;
  buffer ← writeUInt16LE buffer partIndex 2;
  (* 3 = 0x00 *)
  buffer ← writeUInt8 buffer (if isLast then 1 else 0) 4;
  writeUInt8 buffer (keyIndex + 1) 5.

Section Framer.
(** [getFillImagePacketLength()], abstract in the base class. *)
Variable MAX_PACKET_SIZE : Z.

Definition PACKET_HEADER_LENGTH : Z := getFillImageCommandHeaderLength.
Definition MAX_PAYLOAD_SIZE : Z := MAX_PACKET_SIZE - PACKET_HEADER_LENGTH.

(** One turn of the loop of [generateFillImageWrites]: the packet that is
    pushed, and the new value of [remainingBytes]. *)
Definition fillImagePacket (keyIndex : Z) (byteBuffer : Buffer)
    (part remainingBytes : Z) : Completion (list Z * Z) :=
  packet ← Buffer_alloc MAX_PACKET_SIZE;
  let byteCount := Z.min remainingBytes MAX_PAYLOAD_SIZE in
  packet ← writeFillImageCommandHeader packet keyIndex part
             (remainingBytes <=? MAX_PAYLOAD_SIZE) byteCount;
  let byteOffset := byteLength byteBuffer - remainingBytes in
  let remainingBytes' := remainingBytes - byteCount in
  packet ← Buffer_copy byteBuffer packet PACKET_HEADER_LENGTH
             byteOffset (byteOffset + byteCount);
  mret (bufferToIntArray packet, remainingBytes').

(** A turn that completes has written [part] as an unsigned 16-bit value. *)
Lemma fillImagePacket_part_range keyIndex byteBuffer part remainingBytes r :
  fillImagePacket keyIndex byteBuffer part remainingBytes = Normal r →
  0 ≤ part ≤ 65535.
Proof.
  unfold fillImagePacket, writeFillImageCommandHeader.
  destruct (Buffer_alloc MAX_PACKET_SIZE) as [p0|]; simpl; [|done].
  destruct (writeUInt8 p0 2 0) as [p1|]; simpl; [|done].
  destruct (writeUInt8 p1 1 1) as [p2|]; simpl; [|done].
  unfold writeUInt16LE.
  destruct ((part <? 0) || (65535 <? part)) eqn:Hpart; simpl; [done|].
  intros _. apply orb_false_iff in Hpart as [H1 H2]. lia.
Qed.

(** The loop [for (let part = 0; remainingBytes > 0; part++)].  It ends:
    a turn either throws or has a part index below 2^16. *)
Equations? fillImageLoop (keyIndex : Z) (byteBuffer : Buffer)
    (part remainingBytes : Z) (result : list (list Z))
    : Completion (list (list Z)) by wf (Z.to_nat (65536 - part)) lt :=
  fillImageLoop keyIndex byteBuffer part remainingBytes result with
      inspect (0 <? remainingBytes) := {
    | exist _ false _ => Normal result
    | exist _ true _ with
        inspect (fillImagePacket keyIndex byteBuffer part remainingBytes) := {
        | exist _ (Throw e) _ => Throw e
        | exist _ (Normal (packet, remainingBytes')) Hturn =>
            fillImageLoop keyIndex byteBuffer (part + 1) remainingBytes'
              (result ++ [packet]) } }.
Proof. apply fillImagePacket_part_range in Hturn. lia. Qed.

(** [generateFillImageWrites(keyIndex, byteBuffer)] *)
Definition generateFillImageWrites (keyIndex : Z) (byteBuffer : Buffer)
    : Completion (list (list Z)) :=
  fillImageLoop keyIndex byteBuffer 0 (byteLength byteBuffer) [].
End Framer.


(** ** The device and the object state *)

(** Modelled from the spec: the interface [HIDDevice] of [../device] is not
    among the sources; the transport collaborator of the spec offers
    [sendReport], [sendFeatureReport], [getFeatureReport] and [close].
    These are the calls the class makes on it. *)
Inductive Call : Type :=
  | SendReport (data : list Z)
  | SendFeatureReport (data : list Z)
  | GetFeatureReport (reportId reportLength : Z)
  | Close.

(** The [HIDDevice] as the class sees it: the field it assigns and the
    calls it has made so far, oldest first. *)
Record HIDDevice : Type := mkHIDDevice {
  dataKeyOffset : Z;
  calls : list Call
}.

(** How the transport answers: whether the promise of a call is fulfilled,
    given the calls made before it, and the bytes of a feature report. *)
Class Transport : Type := {
  accepts : list Call → Call → bool;
  featureReport : list Call → Z → Z → list Z
}.

(** A JavaScript array of booleans: its [length] and its integer-keyed
    properties.  Reading a missing property gives [undefined] ([None]);
    writing at or past [length] extends the array. *)
Record BoolArray : Type := mkBoolArray {
  arrayLength : Z;
  arrayItems : gmap Z bool
}.

Definition arrayGet (a : BoolArray) (i : Z) : option bool := arrayItems a !! i.

Definition arraySet (a : BoolArray) (i : Z) (v : bool) : BoolArray :=
  {| arrayLength :=
       if (arrayLength a <=? i) && (i <? 4294967295) then i + 1 else arrayLength a;
     arrayItems := <[i := v]> (arrayItems a) |}.

(** [new Array(n).fill(v)] *)
Definition Array_new_fill (n : Z) (v : bool) : Completion BoolArray :=
  if (n <? 0) || (4294967295 <? n) then Throw InvalidArrayLength
  else Normal {| arrayLength := n;
                 arrayItems := list_to_map ((fun i => (i, v)) <$> seqZ 0 n) |}.

(** Modelled from the spec: the enumeration [DeviceModelId] of [../models]
    is not among the sources; there is one descriptor per model, and the
    module index exports the models original, originalv2, mini and xl. *)
Inductive DeviceModelId : Set := ORIGINAL | ORIGINALV2 | MINI | XL.

Inductive KeyDirection : Set := ltr | rtl.

Module Props.
(** The interface [StreamDeckProperties]. *)
Record StreamDeckProperties : Type := {
  MODEL : DeviceModelId;
  COLUMNS : Z;
  ROWS : Z;
  ICON_SIZE : Z;
  KEY_DIRECTION : KeyDirection
}.
End Props.
Abbreviation StreamDeckProperties := Props.StreamDeckProperties.

(** What a concrete model supplies: the properties it passes to the base
    constructor (assigned once to [deviceProperties], never again) and the
    three abstract methods.  [convertFillImage] returns a promise:
    [Some] is its value, [None] its rejection. *)
Class StreamDeckModel : Type := {
  deviceProperties : StreamDeckProperties;
  transformKeyIndex : Z → Z;
  convertFillImage : Buffer → Z → Z → option Buffer;
  getFillImagePacketLength : Z
}.

(** The mutable fields of a [StreamDeckBase]. *)
Record StreamDeck : Type := mkStreamDeck {
  device : HIDDevice;
  keyState : BoolArray
}.

(** The events of the class's own emitter. *)
Inductive KeyEvent : Set :=
  | Down (keyIndex : Z)
  | Up (keyIndex : Z).

(** ** Control: synchronous throws, promises, await *)

(** What a call of a method gives once everything it started has settled:
    a promise that is fulfilled or rejected, or an exception thrown before
    a promise was returned. *)
Inductive Outcome (A : Type) : Type :=
  | Fulfilled (a : A)
  | Rejected (e : Error)
  | Thrown (e : Error).
Arguments Fulfilled {A} a.
Arguments Rejected {A} e.
Arguments Thrown {A} e.

(** The body of a function, run on the object. *)
Definition Exec (A : Type) : Type := StreamDeck → StreamDeck * Completion A.
(** A method that returns a promise. *)
Definition Method (A : Type) : Type := StreamDeck → StreamDeck * Outcome A.

#[global] Instance Exec_ret : MRet Exec := fun A a this => (this, Normal a).
#[global] Instance Exec_bind : MBind Exec := fun A B f m this =>
  match m this with
  | (this', Normal a) => f a this'
  | (this', Throw e) => (this', Throw e)
  end.

(** A synchronous helper, called in a body. *)
Definition call {A} (c : Completion A) : Exec A := fun this => (this, c).

(** [await p]: the value of a fulfilled promise; a rejection, or an
    exception of the call itself, is thrown in the body. *)
Definition await {A} (p : Method A) : Exec A := fun this =>
  match p this with
  | (this', Fulfilled a) => (this', Normal a)
  | (this', Rejected e) => (this', Throw e)
  | (this', Thrown e) => (this', Throw e)
  end.

(** [await] of the promise of an encoder. *)
Definition awaitEncoded {A} (p : option A) : Exec A :=
  call (from_option Normal (Throw EncodeFailure) p).

(** [async function]: whatever the body throws rejects the promise. *)
Definition async {A} (body : Exec A) : Method A := fun this =>
  match body this with
  | (this', Normal a) => (this', Fulfilled a)
  | (this', Throw e) => (this', Rejected e)
  end.

(** A function that is not [async] and ends in [return p]: what the body
    throws before is thrown to the caller. *)
Definition thenReturn {A B} (body : Exec B) (p : B → Method A) : Method A := fun this =>
  match body this with
  | (this', Normal b) => p b this'
  | (this', Throw e) => (this', Thrown e)
  end.

(** [p.then(f)] for a function [f] that does not throw. *)
Definition promiseThen {A B} (p : Method A) (f : A → B) : Method B := fun this =>
  match p this with
  | (this', Fulfilled a) => (this', Fulfilled (f a))
  | (this', Rejected e) => (this', Rejected e)
  | (this', Thrown e) => (this', Thrown e)
  end.

(** [for (const x of xs) { body }] *)
Fixpoint forOf {A} (xs : list A) (body : A → Exec unit) : Exec unit :=
  match xs with
  | [] => mret tt
  | x :: xs' => body x ≫= fun _ => forOf xs' body
  end.

(** [for (let i = from; i < to; i++) { body }], for a body that leaves [i]
    and [to] alone. *)
Definition forRange (from to : Z) (body : Z → Exec unit) : Exec unit :=
  forOf (seqZ from (to - from)) body.

(** ** The class [StreamDeckBase] *)

(** The key index computed in the body of [fillPanel]'s inner loop. *)
Definition panelKeyIndexFor (direction : KeyDirection) (columns row column : Z) : Z :=
  let index := row * columns in
  match direction with
  | ltr => index + column
  | rtl => index + (columns - column - 1)
  end.

Section StreamDeckBase.
Context {model : StreamDeckModel} {transport : Transport}.
(** [numberArrayToString] of [../util] is not among the sources: it is a
    parameter of the two identity queries. *)
Variable numberArrayToString : list Z → string.

Definition KEY_COLUMNS : Z := Props.COLUMNS deviceProperties.
Definition KEY_ROWS : Z := Props.ROWS deviceProperties.
Definition NUM_KEYS : Z := KEY_COLUMNS * KEY_ROWS.
Definition ICON_SIZE : Z := Props.ICON_SIZE deviceProperties.
Definition ICON_BYTES : Z := ICON_SIZE * ICON_SIZE * 3.
Definition MODEL : DeviceModelId := Props.MODEL deviceProperties.

(** *** Calls on the device *)

Definition logCall (c : Call) (this : StreamDeck) : StreamDeck :=
  {| device := {| dataKeyOffset := dataKeyOffset (device this);
                  calls := calls (device this) ++ [c] |};
     keyState := keyState this |}.

Definition deviceCall {A} (c : Call) (value : A) : Method A := fun this =>
  (logCall c this,
   if accepts (calls (device this)) c then Fulfilled value
   else Rejected TransportFailure).

Definition device_sendReport (data : list Z) : Method unit :=
  deviceCall (SendReport data) tt.
Definition device_sendFeatureReport (data : list Z) : Method unit :=
  deviceCall (SendFeatureReport data) tt.
Definition device_getFeatureReport (reportId reportLength : Z) : Method (list Z) :=
  fun this =>
    deviceCall (GetFeatureReport reportId reportLength)
      (featureReport (calls (device this)) reportId reportLength) this.
Definition device_close : Method unit := deviceCall Close tt.

(** *** Construction and the input handler *)

(** [constructor(device, properties, dataKeyOffset)] *)
Definition StreamDeckBase_new (device : HIDDevice) (dataKeyOffset : Z)
    : Completion StreamDeck :=
  keyState ← Array_new_fill NUM_KEYS false;
  mret {| device := {| dataKeyOffset := dataKeyOffset; calls := calls device |};
          keyState := keyState |}.

(** [Boolean(data[i])] *)
Definition keyPressedAt (data : list Z) (i : Z) : bool :=
  match byteAt data i with
  | Some v => negb (v =? 0)
  | None => false
  end.

(** One turn of the loop of the ['input'] listener: the object and the
    events emitted so far, before and after slot [i]. *)
Definition onInputSlot (data : list Z) (acc : StreamDeck * list KeyEvent) (i : Z)
    : StreamDeck * list KeyEvent :=
  let '(this, events) := acc in
  let keyPressed := keyPressedAt data i in
  let keyIndex := transformKeyIndex i in
  let stateChanged :=
    bool_decide (Some keyPressed ≠ arrayGet (keyState this) keyIndex) in
  if stateChanged then
    ({| device := device this;
        keyState := arraySet (keyState this) keyIndex keyPressed |},
     events ++ [if keyPressed then Down keyIndex else Up keyIndex])
  else (this, events).

(** The ['input'] listener registered by the constructor: the object
    after the report, and the events emitted, in order. *)
Definition onInput (data : list Z) (this : StreamDeck) : StreamDeck * list KeyEvent :=
  foldl (onInputSlot data) (this, []) (seqZ 0 NUM_KEYS).

(** *** Private helpers *)

Definition checkValidKeyIndex (keyIndex : Z) : Completion unit :=
  if (keyIndex <? 0) || (NUM_KEYS <=? keyIndex) then Throw InvalidKeyIndex
  else Normal tt.

Definition checkRGBValue (value : Z) : Completion unit :=
  if (value <? 0) || (255 <? value) then Throw InvalidRGBValue
  else Normal tt.

Definition fillImageRange (keyIndex : Z) (imageBuffer : Buffer)
    (sourceOffset sourceStride : Z) : Method unit :=
  async (
    _ ← call (checkValidKeyIndex keyIndex);
    byteBuffer ← awaitEncoded (convertFillImage imageBuffer sourceOffset sourceStride);
    packets ← call (generateFillImageWrites getFillImagePacketLength keyIndex byteBuffer);
    forOf packets (fun packet => await (device_sendReport packet))).

(** *** Public operations *)

Definition close : Method unit := device_close.

Definition fillColor (keyIndex r g b : Z) : Method unit :=
  thenReturn (
    _ ← call (checkValidKeyIndex keyIndex);
    _ ← call (checkRGBValue r);
    _ ← call (checkRGBValue g);
    _ ← call (checkRGBValue b);
    pixels ← call (Buffer_alloc_fill ICON_BYTES (Buffer_from [r; g; b]));
    let keyIndex2 := transformKeyIndex keyIndex in
    mret (keyIndex2, pixels))
  (fun '(keyIndex2, pixels) => fillImageRange keyIndex2 pixels 0 (ICON_SIZE * 3)).

Definition fillImage (keyIndex : Z) (imageBuffer : Buffer) : Method unit :=
  thenReturn (
    _ ← call (checkValidKeyIndex keyIndex);
    _ ← call (if bool_decide (byteLength imageBuffer ≠ ICON_BYTES)
              then Throw InvalidImageLength else Normal tt);
    let keyIndex2 := transformKeyIndex keyIndex in
    mret keyIndex2)
  (fun keyIndex2 => fillImageRange keyIndex2 imageBuffer 0 (ICON_SIZE * 3)).

(** The key a panel cell is sent to, by [fillPanel]'s own arithmetic. *)
Definition panelKeyIndex (row column : Z) : Z :=
  panelKeyIndexFor (Props.KEY_DIRECTION deviceProperties) KEY_COLUMNS row column.

Definition fillPanel (imageBuffer : Buffer) : Method unit :=
  async (
    _ ← call (if bool_decide (byteLength imageBuffer ≠ ICON_BYTES * NUM_KEYS)
              then Throw InvalidImageLength else Normal tt);
    forRange 0 KEY_ROWS (fun row =>
      forRange 0 KEY_COLUMNS (fun column =>
        let index := panelKeyIndex row column in
        let stride := ICON_SIZE * 3 * KEY_COLUMNS in
        let rowOffset := stride * row * ICON_SIZE in
        let colOffset := column * ICON_SIZE * 3 in
        await (fillImageRange index imageBuffer (rowOffset + colOffset) stride)))).

Definition clearKey (keyIndex : Z) : Method unit :=
  thenReturn (call (checkValidKeyIndex keyIndex))
    (fun _ => fillColor keyIndex 0 0 0).

Definition clearAllKeys : Method unit :=
  async (forRange 0 NUM_KEYS (fun keyIndex => await (clearKey keyIndex))).

Definition setBrightness (percentage : Z) : Method unit :=
  async (
    _ ← call (if (percentage <? 0) || (100 <? percentage)
              then Throw InvalidBrightness else Normal tt);
    let brightnessCommandBuffer :=
      [ 0x05;
        0x55; 0xaa; 0xd1; 0x01; percentage; 0x00; 0x00; 0x00;
        0x00; 0x00; 0x00; 0x00; 0x00; 0x00; 0x00; 0x00 ] in
    await (device_sendFeatureReport brightnessCommandBuffer)).

Definition resetToLogo : Method unit :=
  async (
    let resetCommandBuffer :=
      [ 0x0b;
        0x63; 0x00; 0x00; 0x00; 0x00; 0x00; 0x00; 0x00;
        0x00; 0x00; 0x00; 0x00; 0x00; 0x00; 0x00; 0x00 ] in
    await (device_sendFeatureReport resetCommandBuffer)).

Definition getFirmwareVersion : Method string :=
  promiseThen (device_getFeatureReport 4 17)
    (fun val => numberArrayToString (drop 5 val)).

Definition getSerialNumber : Method string :=
  promiseThen (device_getFeatureReport 3 17)
    (fun val => numberArrayToString (drop 5 val)).
End StreamDeckBase.

(** ** Reference forms used in the statements *)

(** The six header bytes, as the writes leave them. *)
Definition headerBytes (keyIndex partIndex : Z) (isLast : bool) : list Z :=
  [2; 1; Z.land partIndex 255; Z.shiftr partIndex 8;
   if isLast then 1 else 0; keyIndex + 1].

(** The packet of a turn that starts with [remainingBytes] bytes left:
    header, ten zero bytes, the next bytes of the image, zero padding. *)
Definition framedPacket (MAX_PACKET_SIZE keyIndex : Z) (byteBuffer : list Z)
    (part remainingBytes : Z) : list Z :=
  let byteCount := Z.min remainingBytes (MAX_PAYLOAD_SIZE MAX_PACKET_SIZE) in
  headerBytes keyIndex part (remainingBytes <=? MAX_PAYLOAD_SIZE MAX_PACKET_SIZE)
  ++ replicate 10 0
  ++ take (Z.to_nat byteCount)
       (drop (Z.to_nat (byteLength byteBuffer - remainingBytes)) byteBuffer)
  ++ replicate (Z.to_nat (MAX_PAYLOAD_SIZE MAX_PACKET_SIZE - byteCount)) 0.

(** [ceil(a / b)] for a positive [b]. *)
Definition ceilDiv (a b : Z) : Z := (a + b - 1) / b.

(** Reading a packet back: the part index of bytes 2 and 3 (low byte
    first), the last-packet flag of byte 4, the key of byte 5. *)
Definition packetPart (packet : list Z) : option Z :=
  lo ← byteAt packet 2; hi ← byteAt packet 3; Some (lo + 256 * hi).

Definition packetIsLast (packet : list Z) : option bool :=
  flag ← byteAt packet 4; Some (negb (flag =? 0)).

Definition packetKey (packet : list Z) : option Z :=
  oneBased ← byteAt packet 5; Some (oneBased - 1).

(** The number of image bytes carried by packet [i] of an image of
    [imageLength] bytes. *)
Definition payloadCount (MAX_PACKET_SIZE imageLength i : Z) : Z :=
  Z.min (imageLength - i * MAX_PAYLOAD_SIZE MAX_PACKET_SIZE)
        (MAX_PAYLOAD_SIZE MAX_PACKET_SIZE).

(** The payload region of a packet without its padding. *)
Definition unpaddedPayload (MAX_PACKET_SIZE imageLength : Z) (i : nat)
    (packet : list Z) : list Z :=
  take (Z.to_nat (payloadCount MAX_PACKET_SIZE imageLength (Z.of_nat i)))
       (drop (Z.to_nat PACKET_HEADER_LENGTH) packet).

(** The padding of packet [i]: what follows its image bytes. *)
Definition paddingOf (MAX_PACKET_SIZE imageLength : Z) (i : nat)
    (packet : list Z) : list Z :=
  drop (Z.to_nat (PACKET_HEADER_LENGTH
                  + payloadCount MAX_PACKET_SIZE imageLength (Z.of_nat i))) packet.

(** An image one byte longer than 65536 one-byte payloads. *)
Definition oversizedImage : list Z := replicate (Z.to_nat 65537) 0.

(** The packets of a transfer that carry the last-packet flag. *)
Definition lastFlagged (packets : list (list Z)) : list (list Z) :=
  filter (fun packet => packetIsLast packet = Some true) packets.

(** The error of a call, thrown or as a rejection. *)
Definition failure {A} (o : Outcome A) : option Error :=
  match o with
  | Fulfilled _ => None
  | Rejected e | Thrown e => Some e
  end.

(** A call raises a validation error, synchronously or as a rejection. *)
Definition raisesValidationError {A} (o : Outcome A) : Prop :=
  ∃ e, failure o = Some e ∧ isValidationError e = true.

(** A call throws a validation error before it returns a promise. *)
Definition throwsValidationError {A} (o : Outcome A) : Prop :=
  ∃ e, o = Thrown e ∧ isValidationError e = true.

Section Statements.
Context {model : StreamDeckModel} {transport : Transport}.

(** A run of the fill pipeline for each entry (key, source offset,
    source stride), each awaited before the next starts; the first
    failure ends the run. *)
Definition fillSequence (imageBuffer : Buffer) (fills : list (Z * Z * Z))
    : Method unit :=
  async (forOf fills (fun '(index, sourceOffset, sourceStride) =>
    await (fillImageRange index imageBuffer sourceOffset sourceStride))).

(** The panel cell (row, column) as a fill: key, source offset, stride. *)
Definition panelFill (row column : Z) : Z * Z * Z :=
  let stride := ICON_SIZE * 3 * KEY_COLUMNS in
  (panelKeyIndex row column,
   row * stride * ICON_SIZE + column * ICON_SIZE * 3,
   stride).

(** The cells of the panel in row-major order. *)
Definition panelFills : list (Z * Z * Z) :=
  (fun k => panelFill (k / KEY_COLUMNS) (k mod KEY_COLUMNS)) <$> seqZ 0 NUM_KEYS.

(** The reports one run of the fill pipeline sends, when the encoder and
    the framer succeed. *)
Definition fillReports (imageBuffer : Buffer) (fill : Z * Z * Z) : list Call :=
  let '(index, sourceOffset, sourceStride) := fill in
  match convertFillImage imageBuffer sourceOffset sourceStride with
  | Some byteBuffer =>
      match generateFillImageWrites getFillImagePacketLength index byteBuffer with
      | Normal packets => SendReport <$> packets
      | Throw _ => []
      end
  | None => []
  end.

(** The pixels [fillColor] builds: the three channels, repeated. *)
Definition solidColor (r g b : Z) : list Z :=
  (fun i => default 0 (byteAt (Buffer_from [r; g; b]) (i mod 3)))
    <$> seqZ 0 ICON_BYTES.

(** The transform keeps key indices in range. *)
Definition transformInRange : Prop :=
  ∀ i, 0 ≤ i < NUM_KEYS → 0 ≤ transformKeyIndex i < NUM_KEYS.

(** The transform sends different keys to different keys. *)
Definition transformInjective : Prop :=
  ∀ i j, 0 ≤ i < NUM_KEYS → 0 ≤ j < NUM_KEYS →
         transformKeyIndex i = transformKeyIndex j → i = j.
End Statements.

(** ** Sample models, to run the statements on concrete inputs *)

(** An encoder that copies the [size] rows of [3 * size] bytes of a key. *)
Definition copyRows (size : Z) (imageBuffer : Buffer) (sourceOffset sourceStride : Z)
    : option Buffer :=
  Some (concat ((fun y =>
          take (Z.to_nat (size * 3))
               (drop (Z.to_nat (sourceOffset + y * sourceStride)) imageBuffer))
        <$> seqZ 0 size)).

(** Three columns, two rows, icons of 2x2 pixels, packets of 22 bytes,
    keys numbered as the device numbers them. *)
Definition sampleDeck : StreamDeckModel := {|
  deviceProperties := {| Props.MODEL := MINI; Props.COLUMNS := 3; Props.ROWS := 2;
                         Props.ICON_SIZE := 2; Props.KEY_DIRECTION := ltr |};
  transformKeyIndex := fun keyIndex => keyIndex;
  convertFillImage := copyRows 2;
  getFillImagePacketLength := 22
|}.

(** The same panel on a device that numbers the keys of a row from the
    right, with a transform that leaves the key indices alone. *)
Definition mirroredDeck : StreamDeckModel := {|
  deviceProperties := {| Props.MODEL := ORIGINAL; Props.COLUMNS := 3; Props.ROWS := 2;
                         Props.ICON_SIZE := 2; Props.KEY_DIRECTION := rtl |};
  transformKeyIndex := fun keyIndex => keyIndex;
  convertFillImage := copyRows 2;
  getFillImagePacketLength := 22
|}.

(** A strip of 256 keys in one row, numbered from the right, with icons
    of one pixel. *)
Definition wideDeck : StreamDeckModel := {|
  deviceProperties := {| Props.MODEL := XL; Props.COLUMNS := 256; Props.ROWS := 1;
                         Props.ICON_SIZE := 1; Props.KEY_DIRECTION := rtl |};
  transformKeyIndex := fun keyIndex => keyIndex;
  convertFillImage := copyRows 1;
  getFillImagePacketLength := 22
|}.

(** A transport that fulfils every call. *)
Definition sampleTransport : Transport := {|
  accepts := fun _ _ => true;
  featureReport := fun _ _ reportLength => replicate (Z.to_nat reportLength) 0
|}.

Definition freshDevice : HIDDevice := {| dataKeyOffset := 0; calls := [] |}.

(** A deck of six keys, none pressed, that has made no call yet. *)
Definition sampleState : StreamDeck := {|
  device := freshDevice;
  keyState := {| arrayLength := 6;
                 arrayItems := list_to_map ((fun i => (i, false)) <$> seqZ 0 6) |}
|}.

(** The strip of 256 keys, none pressed, before any call. *)
Definition wideState : StreamDeck := {|
  device := freshDevice;
  keyState := {| arrayLength := 256;
                 arrayItems := list_to_map ((fun i => (i, false)) <$> seqZ 0 256) |}
|}.

(** The panel image of the strip: 256 pixels of three zero bytes. *)
Definition widePanel : list Z := replicate 768 0.

(** A computation that throws nothing but the Buffer's range error. *)
Definition bufferFailure {A} (c : Completion A) : Prop :=
  ∀ e, c = Throw e → e = BufferOutOfRange.

(** A computation on the object that leaves [keyState] as it finds it. *)
Definition preservesKeyState {A} (m : StreamDeck → StreamDeck * A) : Prop :=
  ∀ this, keyState (m this).1 = keyState this.

(** ** Reference forms used in the further statements *)

Section FurtherStatements.
Context {model : StreamDeckModel} {transport : Transport}.

(** The event the listener emits for native slot [i] when it sees a change. *)
Definition slotEvent (data : list Z) (i : Z) : KeyEvent :=
  if keyPressedAt data i then Down (transformKeyIndex i)
  else Up (transformKeyIndex i).

(** Native slot [i] of the report differs from what is recorded for its key. *)
Definition slotChanged (data : list Z) (this : StreamDeck) (i : Z) : Prop :=
  arrayGet (keyState this) (transformKeyIndex i) ≠ Some (keyPressedAt data i).

#[global] Instance slotChanged_dec data this i : Decision (slotChanged data this i) :=
  decide (arrayGet (keyState this) (transformKeyIndex i) ≠ Some (keyPressedAt data i)).

(** An image report: a report of the model's packet length that starts
    with the bytes 0x02 0x01. *)
Definition isImageReport (c : Call) : Prop :=
  ∃ packet, c = SendReport packet
    ∧ byteLength packet = getFillImagePacketLength
    ∧ byteAt packet 0 = Some 0x02 ∧ byteAt packet 1 = Some 0x01.

(** A computation and the input listener do not see each other: run in
    either order they leave the same object, the computation settles the
    same way and the listener emits the same events. *)
Definition commutesWithInput {A} (m : StreamDeck → StreamDeck * A) : Prop :=
  ∀ data this,
    (m (onInput data this).1).1 = (onInput data (m this).1).1
    ∧ (m (onInput data this).1).2 = (m this).2
    ∧ (onInput data (m this).1).2 = (onInput data this).2.

(** The encoder accepts the window of a fill, and what it returns needs
    no more than 65536 packets. *)
Definition encodes (imageBuffer : Buffer) (fill : Z * Z * Z) : Prop :=
  ∃ byteBuffer,
    convertFillImage imageBuffer fill.1.2 fill.2 = Some byteBuffer
    ∧ ceilDiv (byteLength byteBuffer) (MAX_PAYLOAD_SIZE getFillImagePacketLength)
      ≤ 65536.

(** The fills of [clearAllKeys]: every key in turn, from offset 0. *)
Definition clearFills : list (Z * Z * Z) :=
  (fun keyIndex => (transformKeyIndex keyIndex, 0, ICON_SIZE * 3))
    <$> seqZ 0 NUM_KEYS.

(** The transport fulfils every call. *)
Definition reliableTransport : Prop := ∀ log c, accepts log c = true.
End FurtherStatements.

Section PanelStatements.
Context {model : StreamDeckModel}.

(** The keys [fillPanel] addresses, in the order of its fills. *)
Definition panelKeys : list Z := (fun fill => fill.1.1) <$> panelFills.

(** Byte ([y], [x]) of the icon-sized window of the panel cell
    ([row], [column]): row [y] of the window starts [y] strides after the
    source offset of the cell. *)
Definition panelWindowByte (row column y x : Z) : Z :=
  let '(_, sourceOffset, sourceStride) := panelFill row column in
  sourceOffset + y * sourceStride + x.

(** (row, column, y, x) names a byte of a window of the panel. *)
Definition inPanelWindow (row column y x : Z) : Prop :=
  0 ≤ row < KEY_ROWS ∧ 0 ≤ column < KEY_COLUMNS
  ∧ 0 ≤ y < ICON_SIZE ∧ 0 ≤ x < ICON_SIZE * 3.
End PanelStatements.

(** A computation that leaves [dataKeyOffset] alone and only adds calls
    that satisfy [allowed] to the device's log. *)
Definition appendsOnly {A} (allowed : Call → Prop)
    (m : StreamDeck → StreamDeck * A) : Prop :=
  ∀ this,
    dataKeyOffset (device (m this).1) = dataKeyOffset (device this)
    ∧ ∃ new, calls (device (m this).1) = calls (device this) ++ new
             ∧ Forall allowed new.

(** The object after the calls [new] on its device. *)
Definition logCalls (new : list Call) (this : StreamDeck) : StreamDeck :=
  {| device := {| dataKeyOffset := dataKeyOffset (device this);
                  calls := calls (device this) ++ new |};
     keyState := keyState this |}.

(** A computation that neither reads nor writes [keyState]. *)
Definition deviceOnly {A} (m : StreamDeck → StreamDeck * A) : Prop :=
  ∀ this keys,
    m {| device := device this; keyState := keys |}
    = ({| device := device (m this).1; keyState := keys |}, (m this).2).

(** A feature report of 17 bytes, sent or asked for. *)
Definition isSendFeatureReport (c : Call) : Prop :=
  ∃ data, c = SendFeatureReport data ∧ byteLength data = 17.
Definition isGetFeatureReport (c : Call) : Prop :=
  ∃ reportId, c = GetFeatureReport reportId 17.

(** * Properties of the packet framer *)

(** Closed arithmetic side conditions, by evaluation. *)
Ltac by_evaluation :=
  vm_compute; repeat split; first [reflexivity | discriminate].

Lemma fillImageLoop_eq MAX keyIndex byteBuffer part remainingBytes result :
  fillImageLoop MAX keyIndex byteBuffer part remainingBytes result =
  if 0 <? remainingBytes then
    match fillImagePacket MAX keyIndex byteBuffer part remainingBytes with
    | Throw e => Throw e
    | Normal (packet, remainingBytes') =>
        fillImageLoop MAX keyIndex byteBuffer (part + 1) remainingBytes'
          (result ++ [packet])
    end
  else Normal result.
Proof.
  funelim (fillImageLoop MAX keyIndex byteBuffer part remainingBytes result);
    repeat match goal with
           | H : ?x = _ |- context [?x] => rewrite H
           end; done.
Qed.

Lemma byteLength_insert (buf : list Z) i v :
  byteLength (<[i := v]> buf) = byteLength buf.
Proof. unfold byteLength. by rewrite length_insert. Qed.

Lemma writeUInt8_Normal buf value offset :
  0 ≤ value ≤ 255 → 0 ≤ offset < byteLength buf →
  writeUInt8 buf value offset = Normal (<[Z.to_nat offset := value]> buf).
Proof.
  intros Hv Ho. unfold writeUInt8.
  replace ((value <? 0) || (255 <? value)) with false
    by (symmetry; apply orb_false_iff; lia).
  replace ((offset <? 0) || (byteLength buf <=? offset)) with false
    by (symmetry; apply orb_false_iff; lia).
  done.
Qed.

Lemma writeUInt16LE_Normal buf value offset :
  0 ≤ value ≤ 65535 → 0 ≤ offset → offset + 1 < byteLength buf →
  writeUInt16LE buf value offset =
    Normal (<[Z.to_nat (offset + 1) := Z.shiftr value 8]>
              (<[Z.to_nat offset := Z.land value 255]> buf)).
Proof.
  intros Hv Ho Hl. unfold writeUInt16LE.
  replace ((value <? 0) || (65535 <? value)) with false
    by (symmetry; apply orb_false_iff; lia).
  replace ((offset <? 0) || (byteLength buf <=? offset + 1)) with false
    by (symmetry; apply orb_false_iff; lia).
  done.
Qed.

Lemma writeFillImageCommandHeader_Normal buffer keyIndex partIndex isLast bodyLength :
  6 ≤ byteLength buffer → 0 ≤ partIndex < 65536 → 0 ≤ keyIndex < 255 →
  writeFillImageCommandHeader buffer keyIndex partIndex isLast bodyLength =
    Normal (headerBytes keyIndex partIndex isLast ++ drop 6 buffer).
Proof.
  intros Hlen Hpart Hkey. unfold writeFillImageCommandHeader.
  rewrite writeUInt8_Normal by lia. cbn [mbind Completion_bind].
  rewrite writeUInt8_Normal by (rewrite ?byteLength_insert; lia).
  cbn [mbind Completion_bind].
  rewrite writeUInt16LE_Normal by (rewrite ?byteLength_insert; lia).
  cbn [mbind Completion_bind].
  rewrite writeUInt8_Normal
    by (rewrite ?byteLength_insert; destruct isLast; lia).
  cbn [mbind Completion_bind].
  rewrite writeUInt8_Normal by (rewrite ?byteLength_insert; lia).
  unfold byteLength in Hlen.
  do 6 (destruct buffer as [|? buffer]; [simpl in Hlen; lia|]).
  reflexivity.
Qed.

Lemma byteLength_app (a b : list Z) : byteLength (a ++ b) = byteLength a + byteLength b.
Proof. unfold byteLength. rewrite length_app. lia. Qed.

Lemma byteLength_nonneg (b : list Z) : 0 ≤ byteLength b.
Proof. unfold byteLength. lia. Qed.

Lemma byteLength_replicate n (x : Z) : byteLength (replicate n x) = Z.of_nat n.
Proof. unfold byteLength. by rewrite length_replicate. Qed.

(** A copy that fits: the bytes land right after [pre]. *)
Lemma Buffer_copy_Normal (source pre post : list Z) targetStart sourceStart count :
  targetStart = byteLength pre → 0 ≤ sourceStart → 0 < count →
  sourceStart + count ≤ byteLength source → count ≤ byteLength post →
  Buffer_copy source (pre ++ post) targetStart sourceStart (sourceStart + count) =
    Normal (pre ++ take (Z.to_nat count) (drop (Z.to_nat sourceStart) source)
                ++ drop (Z.to_nat count) post).
Proof.
  intros -> Hs Hc Hsrc Hpost. unfold Buffer_copy.
  pose proof (byteLength_nonneg pre) as Hpre.
  rewrite byteLength_app.
  replace ((byteLength pre <? 0) || (sourceStart <? 0) || (sourceStart + count <? 0))
    with false by (symmetry; rewrite !orb_false_iff; lia).
  replace ((byteLength pre + byteLength post <=? byteLength pre)
           || (sourceStart + count <=? sourceStart))
    with false by (symmetry; rewrite !orb_false_iff; lia).
  replace (byteLength source <? sourceStart) with false by (symmetry; lia).
  replace (byteLength pre + byteLength post - byteLength pre
           <? sourceStart + count - sourceStart)
    with false by (symmetry; lia).
  cbv zeta.
  replace (Z.min (sourceStart + count - sourceStart) (byteLength source - sourceStart))
    with count by lia.
  f_equal. unfold byteLength.
  rewrite Nat2Z.id, take_app_length. f_equal. f_equal.
  rewrite Z2Nat.inj_add, Nat2Z.id by lia.
  by rewrite drop_app_add.
Qed.

(** [ceilDiv] is the ceiling of the quotient. *)
Lemma ceilDiv_spec a b : 0 < b → (ceilDiv a b - 1) * b < a ≤ ceilDiv a b * b.
Proof.
  intros Hb. unfold ceilDiv.
  pose proof (Z.div_mod (a + b - 1) b ltac:(lia)) as Hdm.
  pose proof (Z.mod_pos_bound (a + b - 1) b Hb) as Hm. nia.
Qed.

Section FramerFacts.
Variable MAX_PACKET_SIZE : Z.
Variable keyIndex : Z.
Variable byteBuffer : list Z.

Let P := MAX_PAYLOAD_SIZE MAX_PACKET_SIZE.
Let L := byteLength byteBuffer.
Let framedPacket := framedPacket MAX_PACKET_SIZE keyIndex byteBuffer.

Hypothesis capacity_pos : 0 < MAX_PAYLOAD_SIZE MAX_PACKET_SIZE.
Hypothesis key_fits : 0 ≤ keyIndex < 255.

Lemma fillImagePacket_Normal part remainingBytes :
  0 ≤ part < 65536 → 0 < remainingBytes ≤ byteLength byteBuffer →
  fillImagePacket MAX_PACKET_SIZE keyIndex byteBuffer part remainingBytes =
    Normal (framedPacket part remainingBytes,
            remainingBytes - Z.min remainingBytes (MAX_PAYLOAD_SIZE MAX_PACKET_SIZE)).
Proof.
  intros Hpart Hrem. unfold fillImagePacket, framedPacket, Buffer_alloc.
  fold P. assert (HP : MAX_PACKET_SIZE = 16 + P) by (unfold P, MAX_PAYLOAD_SIZE,
    PACKET_HEADER_LENGTH, getFillImageCommandHeaderLength; lia).
  assert (0 < P) by exact capacity_pos.
  replace (MAX_PACKET_SIZE <? 0) with false by (symmetry; lia).
  cbn [mbind Completion_bind].
  rewrite writeFillImageCommandHeader_Normal
    by (rewrite ?byteLength_replicate; lia).
  cbn [mbind Completion_bind].
  set (byteCount := Z.min remainingBytes P).
  replace (Z.to_nat MAX_PACKET_SIZE) with (6 + (10 + Z.to_nat P))%nat by lia.
  rewrite (replicate_add 6), drop_app_length' by (by rewrite length_replicate).
  rewrite (replicate_add 10).
  rewrite (app_assoc (headerBytes _ _ _)).
  unfold PACKET_HEADER_LENGTH, getFillImageCommandHeaderLength.
  subst byteCount.
  rewrite Buffer_copy_Normal;
    [|rewrite ?byteLength_app, ?byteLength_replicate;
      try change (byteLength (headerBytes _ _ _)) with 6; lia..].
  cbn [mbind Completion_bind mret Completion_ret]. unfold bufferToIntArray.
  rewrite drop_replicate. rewrite <- !app_assoc.
  replace (Z.to_nat P - Z.to_nat (remainingBytes `min` P))%nat
    with (Z.to_nat (P - remainingBytes `min` P)) by lia.
  reflexivity.
Qed.

Lemma fillImagePacket_overflow part remainingBytes :
  65535 < part →
  fillImagePacket MAX_PACKET_SIZE keyIndex byteBuffer part remainingBytes =
    Throw BufferOutOfRange.
Proof.
  intros Hpart. unfold fillImagePacket, Buffer_alloc, writeFillImageCommandHeader.
  assert (HP : MAX_PACKET_SIZE = 16 + P) by (unfold P, MAX_PAYLOAD_SIZE,
    PACKET_HEADER_LENGTH, getFillImageCommandHeaderLength; lia).
  assert (0 < P) by exact capacity_pos.
  replace (MAX_PACKET_SIZE <? 0) with false by (symmetry; lia).
  cbn [mbind Completion_bind].
  rewrite writeUInt8_Normal by (rewrite ?byteLength_replicate; lia).
  cbn [mbind Completion_bind].
  rewrite writeUInt8_Normal
    by (rewrite ?byteLength_insert, ?byteLength_replicate; lia).
  cbn [mbind Completion_bind]. unfold writeUInt16LE.
  replace ((part <? 0) || (65535 <? part)) with true
    by (symmetry; apply orb_true_iff; lia).
  reflexivity.
Qed.

(** The loop, from any turn on: [n] more packets, each in its closed form. *)
Lemma fillImageLoop_frames (n : nat) : ∀ part remainingBytes result,
  0 ≤ part → part + Z.of_nat n ≤ 65536 →
  0 ≤ remainingBytes ≤ byteLength byteBuffer →
  remainingBytes ≤ Z.of_nat n * P →
  (0 < Z.of_nat n → (Z.of_nat n - 1) * P < remainingBytes) →
  fillImageLoop MAX_PACKET_SIZE keyIndex byteBuffer part remainingBytes result =
    Normal (result ++ ((fun j => framedPacket (part + j) (remainingBytes - j * P))
                         <$> seqZ 0 (Z.of_nat n))).
Proof.
  assert (HP : 0 < P) by exact capacity_pos.
  induction n as [|n IH]; intros part rem result Hpart Hfit Hrem Hle Hgt.
  - rewrite fillImageLoop_eq.
    replace (0 <? rem) with false by (symmetry; lia).
    by rewrite seqZ_nil, app_nil_r.
  - assert (0 < rem) by nia.
    rewrite fillImageLoop_eq.
    replace (0 <? rem) with true by (symmetry; lia).
    rewrite fillImagePacket_Normal by lia.
    rewrite IH; [|lia|lia|lia|nia|nia].
    rewrite <- app_assoc. do 2 f_equal.
    rewrite (seqZ_cons 0 (Z.of_nat (S n))) by lia. cbn [fmap list_fmap app].
    rewrite Z.add_0_r, Z.mul_0_l, Z.sub_0_r. f_equal.
    replace (Z.pred (Z.of_nat (S n))) with (Z.of_nat n) by lia.
    rewrite <- (fmap_add_seqZ (Z.succ 0) 0), <- list_fmap_compose.
    apply Forall_fmap_ext, Forall_seqZ. intros j Hj.
    unfold compose. cbv beta. fold P.
    replace (rem `min` P) with P by nia.
    f_equal; lia.
Qed.

(** Past 65536 packets the part index no longer fits its field. *)
Lemma fillImageLoop_overflow (n : nat) : ∀ part remainingBytes result,
  0 ≤ part → part + Z.of_nat n = 65536 →
  Z.of_nat n * P < remainingBytes ≤ byteLength byteBuffer →
  fillImageLoop MAX_PACKET_SIZE keyIndex byteBuffer part remainingBytes result =
    Throw BufferOutOfRange.
Proof.
  assert (HP : 0 < P) by exact capacity_pos.
  induction n as [|n IH]; intros part rem result Hpart Hfit Hrem.
  - rewrite fillImageLoop_eq.
    replace (0 <? rem) with true by (symmetry; lia).
    by rewrite fillImagePacket_overflow by lia.
  - assert (P < rem) by nia.
    rewrite fillImageLoop_eq.
    replace (0 <? rem) with true by (symmetry; lia).
    rewrite fillImagePacket_Normal by lia.
    apply IH; [lia|lia|]. fold P. nia.
Qed.

Lemma generateFillImageWrites_frames :
  ceilDiv (byteLength byteBuffer) P ≤ 65536 →
  generateFillImageWrites MAX_PACKET_SIZE keyIndex byteBuffer =
    Normal ((fun j => framedPacket j (byteLength byteBuffer - j * P))
              <$> seqZ 0 (ceilDiv (byteLength byteBuffer) P)).
Proof.
  intros Hn. assert (HP : 0 < P) by exact capacity_pos.
  pose proof (ceilDiv_spec (byteLength byteBuffer) P HP) as Hc.
  pose proof (byteLength_nonneg byteBuffer) as HL.
  assert (0 ≤ ceilDiv (byteLength byteBuffer) P) by nia.
  unfold generateFillImageWrites.
  rewrite (fillImageLoop_frames (Z.to_nat (ceilDiv (byteLength byteBuffer) P)));
    rewrite ?Z2Nat.id by done; [|lia..].
  reflexivity.
Qed.

Lemma generateFillImageWrites_overflow :
  65536 < ceilDiv (byteLength byteBuffer) P →
  generateFillImageWrites MAX_PACKET_SIZE keyIndex byteBuffer = Throw BufferOutOfRange.
Proof.
  intros Hn. assert (HP : 0 < P) by exact capacity_pos.
  pose proof (ceilDiv_spec (byteLength byteBuffer) P HP) as Hc.
  unfold generateFillImageWrites.
  apply (fillImageLoop_overflow (Z.to_nat 65536)); [lia|lia|].
  rewrite Z2Nat.id by lia. split; [nia|lia].
Qed.
End FramerFacts.

(** ** The header *)

Lemma land_255 x : 0 ≤ x → Z.land x 255 = x mod 256.
Proof. intros. change 255 with (Z.ones 8). by rewrite Z.land_ones. Qed.

Lemma shiftr_8 x : Z.shiftr x 8 = x / 256.
Proof. by rewrite Z.shiftr_div_pow2. Qed.

(** C2 (as amended): for a buffer of at least six bytes, a part index in
    [0, 2^16), either flag and a native key index in [0, 255), the header
    writer returns the buffer with byte 0 = 0x02, byte 1 = 0x01, bytes 2 and
    3 = the part index as a little-endian 16-bit value (so byte 3 is its
    high byte, which is 0x00 exactly for part indices below 256), byte 4 =
    1 if [isLast] else 0, byte 5 = the native key index plus one, and every
    later byte unchanged. *)
Theorem writeFillImageCommandHeader_layout buffer keyIndex partIndex isLast bodyLength :
  6 ≤ byteLength buffer → 0 ≤ partIndex < 65536 → 0 ≤ keyIndex < 255 →
  ∃ header,
    writeFillImageCommandHeader buffer keyIndex partIndex isLast bodyLength
      = Normal header
    ∧ byteLength header = byteLength buffer
    ∧ byteAt header 0 = Some 0x02
    ∧ byteAt header 1 = Some 0x01
    ∧ byteAt header 2 = Some (partIndex mod 256)
    ∧ byteAt header 3 = Some (partIndex / 256)
    ∧ packetPart header = Some partIndex
    ∧ (byteAt header 3 = Some 0x00 ↔ partIndex < 256)
    ∧ byteAt header 4 = Some (if isLast then 1 else 0)
    ∧ byteAt header 5 = Some (keyIndex + 1)
    ∧ ∀ i, 6 ≤ i → byteAt header i = byteAt buffer i.
Proof.
  intros Hlen Hpart Hkey. eexists. split.
  { by apply writeFillImageCommandHeader_Normal. }
  assert (H3 : byteAt (headerBytes keyIndex partIndex isLast ++ drop 6 buffer) 3
               = Some (partIndex / 256)).
  { cbn. by rewrite shiftr_8. }
  assert (H2 : byteAt (headerBytes keyIndex partIndex isLast ++ drop 6 buffer) 2
               = Some (partIndex mod 256)).
  { cbn. by rewrite land_255 by lia. }
  repeat split; try done.
  - rewrite byteLength_app. unfold byteLength in *. rewrite length_drop.
    cbn [headerBytes length]. lia.
  - unfold packetPart. rewrite H2, H3. cbn. f_equal.
    pose proof (Z.div_mod partIndex 256 ltac:(lia)). lia.
  - rewrite H3. intros [= Hq]. apply Z.div_small_iff in Hq; lia.
  - rewrite H3. intros Hlt. f_equal. apply Z.div_small. lia.
  - intros i Hi. unfold byteAt.
    replace (i <? 0) with false by (symmetry; lia).
    replace (Z.to_nat i) with (6 + (Z.to_nat i - 6))%nat by lia.
    rewrite (lookup_app_r (headerBytes _ _ _)) by (cbn; lia).
    rewrite lookup_drop. f_equal. cbn [headerBytes length]. lia.
Qed.

Lemma writeFillImageCommandHeader_layout_witness :
  ∃ header,
    writeFillImageCommandHeader (replicate 16 0) 4 258 true 0 = Normal header
    ∧ byteAt header 2 = Some 2 ∧ byteAt header 3 = Some 1
    ∧ byteAt header 5 = Some 5.
Proof.
  destruct (writeFillImageCommandHeader_layout (replicate 16 0) 4 258 true 0)
    as (header & Hw & _ & _ & _ & H2 & H3 & _ & _ & _ & H5 & _);
    [unfold byteLength; cbn; lia | lia | lia |].
  exists header. repeat split; assumption.
Defined.

(** C2 (as stated) fails: for part index 256 byte 3 of the header is 0x01,
    the high byte of the part index, not a reserved 0x00. *)
Lemma writeFillImageCommandHeader_byte3_counterexample :
  ∃ header,
    writeFillImageCommandHeader (replicate 16 0) 0 256 false 0 = Normal header
    ∧ byteAt header 3 = Some 0x01
    ∧ byteAt header 3 ≠ Some 0x00.
Proof. eexists. split; [reflexivity|]. split; [reflexivity|discriminate]. Qed.

(** ** The packets of one image *)

Lemma packetPart_headed keyIndex part isLast rest :
  0 ≤ part < 65536 →
  packetPart (headerBytes keyIndex part isLast ++ rest) = Some part.
Proof.
  intros Hpart.
  change (packetPart (headerBytes keyIndex part isLast ++ rest))
    with (Some (Z.land part 255 + 256 * Z.shiftr part 8)).
  rewrite land_255, shiftr_8 by lia. f_equal.
  pose proof (Z.div_mod part 256 ltac:(lia)). lia.
Qed.

Lemma packetIsLast_headed keyIndex part isLast rest :
  packetIsLast (headerBytes keyIndex part isLast ++ rest) = Some isLast.
Proof. by destruct isLast. Qed.

Lemma packetKey_headed keyIndex part isLast rest :
  packetKey (headerBytes keyIndex part isLast ++ rest) = Some keyIndex.
Proof.
  change (packetKey (headerBytes keyIndex part isLast ++ rest))
    with (Some (keyIndex + 1 - 1)).
  f_equal. lia.
Qed.

Section Packets.
Variable MAX_PACKET_SIZE : Z.
Variable keyIndex : Z.
Variable byteBuffer : list Z.

Let P := MAX_PAYLOAD_SIZE MAX_PACKET_SIZE.
Let L := byteLength byteBuffer.
Let n := ceilDiv (byteLength byteBuffer) (MAX_PAYLOAD_SIZE MAX_PACKET_SIZE).
Let packetAt (j : Z) :=
  framedPacket MAX_PACKET_SIZE keyIndex byteBuffer j
    (byteLength byteBuffer - j * MAX_PAYLOAD_SIZE MAX_PACKET_SIZE).

Hypothesis capacity_pos : 0 < MAX_PAYLOAD_SIZE MAX_PACKET_SIZE.

Lemma packet_count_bounds : 0 < P ∧ (n - 1) * P < L ≤ n * P.
Proof. split; [exact capacity_pos|]. exact (ceilDiv_spec L P capacity_pos). Qed.

Lemma payloadCount_range j :
  0 ≤ j < n → 0 < payloadCount MAX_PACKET_SIZE L j ≤ P
              ∧ j * P + payloadCount MAX_PACKET_SIZE L j ≤ L.
Proof.
  intros Hj. destruct packet_count_bounds as [HP Hc].
  unfold payloadCount. fold P.
  assert (j * P ≤ (n - 1) * P) by nia. lia.
Qed.

Lemma packetAt_eq j :
  0 ≤ j < n →
  packetAt j =
    headerBytes keyIndex j (bool_decide (j = n - 1)) ++ replicate 10 0
    ++ take (Z.to_nat (payloadCount MAX_PACKET_SIZE L j))
            (drop (Z.to_nat (j * P)) byteBuffer)
    ++ replicate (Z.to_nat (P - payloadCount MAX_PACKET_SIZE L j)) 0.
Proof.
  intros Hj. destruct packet_count_bounds as [HP Hc].
  unfold packetAt, framedPacket, payloadCount. fold P L.
  replace (L - (L - j * P)) with (j * P) by lia.
  replace (L - j * P <=? P) with (bool_decide (j = n - 1)); [done|].
  case_bool_decide; symmetry; [apply Z.leb_le | apply Z.leb_gt].
  - subst j. lia.
  - assert (j * P ≤ (n - 2) * P) by nia. lia.
Qed.

Lemma chunk_length j :
  0 ≤ j < n →
  length (take (Z.to_nat (payloadCount MAX_PACKET_SIZE L j))
               (drop (Z.to_nat (j * P)) byteBuffer))
  = Z.to_nat (payloadCount MAX_PACKET_SIZE L j).
Proof.
  intros Hj. pose proof (payloadCount_range j Hj) as [Hc Hl].
  destruct packet_count_bounds as [HP _].
  assert (0 ≤ j * P) by nia.
  rewrite length_take, length_drop.
  assert (HL : L = Z.of_nat (length byteBuffer)) by reflexivity.
  generalize dependent (j * P).
  generalize dependent (payloadCount MAX_PACKET_SIZE L j). lia.
Qed.

Lemma packetAt_length j : 0 ≤ j < n → byteLength (packetAt j) = MAX_PACKET_SIZE.
Proof.
  intros Hj. rewrite packetAt_eq by done.
  pose proof (payloadCount_range j Hj) as [Hc Hl].
  unfold byteLength. rewrite !length_app, chunk_length, !length_replicate by done.
  cbn [headerBytes length].
  unfold P, MAX_PAYLOAD_SIZE, PACKET_HEADER_LENGTH,
    getFillImageCommandHeaderLength in *. lia.
Qed.

Lemma packetAt_part j : 0 ≤ j < n → n ≤ 65536 → packetPart (packetAt j) = Some j.
Proof.
  intros Hj Hn. rewrite packetAt_eq by done. apply packetPart_headed. lia.
Qed.

Lemma packetAt_isLast j :
  0 ≤ j < n → packetIsLast (packetAt j) = Some (bool_decide (j = n - 1)).
Proof. intros Hj. rewrite packetAt_eq by done. apply packetIsLast_headed. Qed.

Lemma packetAt_key j : 0 ≤ j < n → packetKey (packetAt j) = Some keyIndex.
Proof. intros Hj. rewrite packetAt_eq by done. apply packetKey_headed. Qed.

Lemma packetAt_payload (i : nat) :
  0 ≤ Z.of_nat i < n →
  unpaddedPayload MAX_PACKET_SIZE L i (packetAt (Z.of_nat i))
  = take (Z.to_nat P) (drop (i * Z.to_nat P) byteBuffer).
Proof.
  intros Hi. unfold unpaddedPayload. rewrite packetAt_eq by done.
  pose proof (payloadCount_range _ Hi) as [Hc Hl].
  cbn [headerBytes app replicate].
  change (Z.to_nat PACKET_HEADER_LENGTH) with 16%nat.
  cbn [skipn]. rewrite drop_0, take_app_length' by (by rewrite chunk_length).
  replace (Z.to_nat (Z.of_nat i * P)) with (i * Z.to_nat P)%nat by nia.
  destruct (decide (payloadCount MAX_PACKET_SIZE L (Z.of_nat i) = P)) as [->|Hne];
    [done|].
  assert (HL : L = Z.of_nat (length byteBuffer)) by reflexivity.
  assert (Hcnt : payloadCount MAX_PACKET_SIZE L (Z.of_nat i) = L - Z.of_nat i * P)
    by (revert Hne; unfold payloadCount; fold P; lia).
  rewrite !take_ge; [done|rewrite length_drop; nia..].
Qed.

Lemma packetAt_padding (i : nat) :
  0 ≤ Z.of_nat i < n →
  paddingOf MAX_PACKET_SIZE L i (packetAt (Z.of_nat i))
  = replicate (Z.to_nat (P - payloadCount MAX_PACKET_SIZE L (Z.of_nat i))) 0.
Proof.
  intros Hi. unfold paddingOf. rewrite packetAt_eq by done.
  pose proof (payloadCount_range _ Hi) as [Hc Hl].
  change PACKET_HEADER_LENGTH with 16.
  rewrite Z2Nat.inj_add by lia. change (Z.to_nat 16) with 16%nat.
  rewrite <- drop_drop. cbn [headerBytes app replicate skipn]. rewrite drop_0.
  by rewrite drop_app_length' by (by rewrite chunk_length).
Qed.

Lemma packets_lookup (i : nat) packet :
  (packetAt <$> seqZ 0 n) !! i = Some packet →
  0 ≤ Z.of_nat i < n ∧ packet = packetAt (Z.of_nat i).
Proof.
  rewrite list_lookup_fmap. intros Hl.
  apply fmap_Some in Hl as (j & Hj & ->).
  apply lookup_seqZ in Hj as [-> Hlt]. split; [lia|]. by rewrite Z.add_0_l.
Qed.
End Packets.

(** Cutting a list into chunks of [p] and gluing them gives the list back. *)
Lemma concat_chunks {A} (p n : nat) : ∀ l : list A,
  (length l ≤ n * p)%nat →
  concat ((fun i => take p (drop (i * p) l)) <$> seq 0 n) = l.
Proof.
  induction n as [|n IH]; intros l Hl.
  - destruct l; [done|simpl in Hl; lia].
  - cbn [seq fmap list_fmap concat]. rewrite <- (fmap_S_seq 0), <- list_fmap_compose.
    rewrite (list_fmap_ext _ (fun i => take p (drop (i * p) (drop p l))) (seq 0 n)).
    + rewrite IH by (rewrite length_drop; lia). apply take_drop.
    + intros _ i _. unfold compose. rewrite drop_drop. do 2 f_equal.
Qed.

(** C1 (as amended): for every native key index in [0, 255) and every
    encoded image of length L > 0 that needs at most 65536 packets of
    payload capacity P = maxPacketSize - headerLength > 0 (the part index is
    written as an unsigned 16-bit value and the one-based key index as an
    unsigned byte), the framer returns exactly ceil(L/P) packets; packets
    0..n-2 have isLast = false and packet n-1 has isLast = true; and the
    unpadded payload regions, concatenated in emission order, are the L
    input bytes. *)
Theorem generateFillImageWrites_framing MAX_PACKET_SIZE keyIndex byteBuffer :
  0 < byteLength byteBuffer →
  0 < MAX_PAYLOAD_SIZE MAX_PACKET_SIZE →
  0 ≤ keyIndex < 255 →
  ceilDiv (byteLength byteBuffer) (MAX_PAYLOAD_SIZE MAX_PACKET_SIZE) ≤ 65536 →
  ∃ packets,
    generateFillImageWrites MAX_PACKET_SIZE keyIndex byteBuffer = Normal packets
    ∧ Z.of_nat (length packets)
      = ceilDiv (byteLength byteBuffer) (MAX_PAYLOAD_SIZE MAX_PACKET_SIZE)
    ∧ (∀ (i : nat) packet, packets !! i = Some packet →
         packetIsLast packet = Some (bool_decide (S i = length packets)))
    ∧ concat (imap (unpaddedPayload MAX_PACKET_SIZE (byteLength byteBuffer)) packets)
      = byteBuffer.
Proof.
  intros HL HP Hkey Hn.
  pose proof (ceilDiv_spec (byteLength byteBuffer) _ HP) as Hc.
  set (n := ceilDiv _ _) in *. assert (0 < n) by nia.
  eexists. split; [by apply generateFillImageWrites_frames|].
  assert (Hlen : Z.of_nat (length
    ((fun j => framedPacket MAX_PACKET_SIZE keyIndex byteBuffer j
                 (byteLength byteBuffer - j * MAX_PAYLOAD_SIZE MAX_PACKET_SIZE))
       <$> seqZ 0 n)) = n) by (rewrite length_fmap, length_seqZ; lia).
  split; [exact Hlen|]. split.
  - intros i packet Hi. apply packets_lookup in Hi as [Hi ->].
    rewrite packetAt_isLast by done. fold n. f_equal.
    apply bool_decide_ext. lia.
  - rewrite imap_fmap.
    rewrite (imap_ext _ (fun i _ =>
      take (Z.to_nat (MAX_PAYLOAD_SIZE MAX_PACKET_SIZE))
        (drop (i * Z.to_nat (MAX_PAYLOAD_SIZE MAX_PACKET_SIZE)) byteBuffer))).
    + rewrite imap_seq_0, length_seqZ. apply concat_chunks.
      unfold byteLength in Hc. nia.
    + intros i j Hj. apply lookup_seqZ in Hj as [-> Hj]. unfold compose.
      rewrite Z.add_0_l. apply packetAt_payload; [done|]. fold n. lia.
Qed.

Lemma generateFillImageWrites_framing_witness :
  ∃ packets,
    generateFillImageWrites 18 4 [7; 8; 9; 10; 11] = Normal packets
    ∧ Z.of_nat (length packets) = 3
    ∧ concat (imap (unpaddedPayload 18 5) packets) = [7; 8; 9; 10; 11].
Proof.
  destruct (generateFillImageWrites_framing 18 4 [7; 8; 9; 10; 11])
    as (packets & Hgen & Hlen & _ & Hcat);
    [by_evaluation..|].
  exists packets. repeat split; assumption.
Defined.

(** C1 (as stated) fails where the part index leaves its 16-bit field: an
    image of 65537 bytes in packets of one payload byte (packet length 17)
    needs 65537 packets, and the framer throws instead of returning them. *)
Lemma generateFillImageWrites_framing_counterexample :
  0 < byteLength oversizedImage
  ∧ 0 < MAX_PAYLOAD_SIZE 17
  ∧ ceilDiv (byteLength oversizedImage) (MAX_PAYLOAD_SIZE 17) = 65537
  ∧ generateFillImageWrites 17 0 oversizedImage = Throw BufferOutOfRange
  ∧ ¬ ∃ packets, generateFillImageWrites 17 0 oversizedImage = Normal packets.
Proof.
  assert (Hlen : byteLength oversizedImage = 65537)
    by (unfold oversizedImage; rewrite byteLength_replicate; lia).
  assert (Hthrow : generateFillImageWrites 17 0 oversizedImage
                   = Throw BufferOutOfRange).
  { apply generateFillImageWrites_overflow; [reflexivity|lia|].
    rewrite Hlen. reflexivity. }
  split; [lia|]. split; [reflexivity|]. split; [rewrite Hlen; reflexivity|].
  split; [exact Hthrow|]. intros [packets Hp]. congruence.
Qed.

(** The one-based key index has a byte of its own: key 255 does not fit. *)
Example generateFillImageWrites_key_overflow :
  generateFillImageWrites 1024 255 [1; 2; 3] = Throw BufferOutOfRange.
Proof. reflexivity. Qed.

(** A transfer of five bytes in packets of two payload bytes. *)
Example generateFillImageWrites_three_packets :
  generateFillImageWrites 18 3 [7; 8; 9; 10; 11] = Normal
    [ [2; 1; 0; 0; 0; 4; 0; 0; 0; 0; 0; 0; 0; 0; 0; 0; 7; 8];
      [2; 1; 1; 0; 0; 4; 0; 0; 0; 0; 0; 0; 0; 0; 0; 0; 9; 10];
      [2; 1; 2; 0; 1; 4; 0; 0; 0; 0; 0; 0; 0; 0; 0; 0; 11; 0] ].
Proof. reflexivity. Qed.

Lemma filter_none {A} (Q : A → Prop) `{∀ x, Decision (Q x)} (l : list A) :
  Forall (fun x => ¬ Q x) l → filter Q l = [].
Proof.
  induction 1 as [|x l Hx _ IH]; [done|]. by rewrite filter_cons_False.
Qed.

(** C3 (as amended): for every input byte sequence that needs at most 65536
    packets and every native key index in [0, 255), every packet the framer
    emits has length exactly maxPacketSize, what follows its image bytes is
    zero padding, and the part indices are consecutive starting at 0; for a
    non-empty input exactly one packet carries the isLast flag, namely the
    final one; for the empty input no packet is emitted, so none carries
    the flag. *)
Theorem generateFillImageWrites_invariants MAX_PACKET_SIZE keyIndex byteBuffer :
  0 < MAX_PAYLOAD_SIZE MAX_PACKET_SIZE →
  0 ≤ keyIndex < 255 →
  ceilDiv (byteLength byteBuffer) (MAX_PAYLOAD_SIZE MAX_PACKET_SIZE) ≤ 65536 →
  ∃ packets,
    generateFillImageWrites MAX_PACKET_SIZE keyIndex byteBuffer = Normal packets
    ∧ (∀ (i : nat) packet, packets !! i = Some packet →
         byteLength packet = MAX_PACKET_SIZE
         ∧ paddingOf MAX_PACKET_SIZE (byteLength byteBuffer) i packet
           = replicate (Z.to_nat (MAX_PAYLOAD_SIZE MAX_PACKET_SIZE
               - payloadCount MAX_PACKET_SIZE (byteLength byteBuffer) (Z.of_nat i))) 0
         ∧ packetPart packet = Some (Z.of_nat i)
         ∧ packetIsLast packet = Some (bool_decide (S i = length packets)))
    ∧ (byteBuffer = [] → packets = [])
    ∧ (byteBuffer ≠ [] →
         ∃ final, last packets = Some final ∧ lastFlagged packets = [final]).
Proof.
  intros HP Hkey Hn.
  pose proof (ceilDiv_spec (byteLength byteBuffer) _ HP) as Hc.
  pose proof (byteLength_nonneg byteBuffer) as HL.
  set (n := ceilDiv _ _) in *. assert (0 ≤ n) by nia.
  set (packetAt := fun j => framedPacket MAX_PACKET_SIZE keyIndex byteBuffer j
                 (byteLength byteBuffer - j * MAX_PAYLOAD_SIZE MAX_PACKET_SIZE)).
  exists (packetAt <$> seqZ 0 n). split; [by apply generateFillImageWrites_frames|].
  assert (Hlen : Z.of_nat (length (packetAt <$> seqZ 0 n)) = n)
    by (rewrite length_fmap, length_seqZ; lia).
  split; [|split].
  - intros i packet Hi. apply packets_lookup in Hi as [Hi ->]. fold n in Hi.
    split; [by apply packetAt_length|].
    split; [by apply packetAt_padding|].
    split; [by apply packetAt_part|].
    rewrite packetAt_isLast by done. fold n. f_equal.
    apply bool_decide_ext. lia.
  - intros ->. replace n with 0; [done|]. unfold byteLength in Hc. cbn in Hc. nia.
  - intros Hne. assert (0 < byteLength byteBuffer)
      by (destruct byteBuffer; [done|unfold byteLength; cbn; lia]).
    assert (0 < n) by nia.
    exists (packetAt (n - 1)).
    replace n with (Z.of_nat (S (Z.to_nat (n - 1)))) at 1 3 by lia.
    rewrite seqZ_S, fmap_app, Z.add_0_l, Z2Nat.id by lia. cbn [fmap list_fmap].
    split; [apply last_snoc|].
    unfold lastFlagged. rewrite filter_app.
    rewrite filter_none.
    + rewrite filter_cons_True; [done|].
      unfold packetAt. rewrite packetAt_isLast by (fold n; done || lia).
      fold n. by rewrite bool_decide_eq_true_2.
    + apply Forall_fmap, Forall_seqZ. intros j Hj. unfold compose, packetAt.
      rewrite packetAt_isLast by (fold n; done || lia). fold n.
      rewrite bool_decide_eq_false_2 by lia. discriminate.
Qed.

Lemma generateFillImageWrites_invariants_witness :
  ∃ packets,
    generateFillImageWrites 18 4 [7; 8; 9; 10; 11] = Normal packets
    ∧ ∃ final, last packets = Some final ∧ lastFlagged packets = [final].
Proof.
  destruct (generateFillImageWrites_invariants 18 4 [7; 8; 9; 10; 11])
    as (packets & Hgen & _ & _ & Hlast); [by_evaluation..|].
  exists packets. split; [assumption|]. apply Hlast. discriminate.
Defined.

(** C3 (as stated) fails on the empty input: the framer returns no packet,
    so there is not exactly one packet that carries the isLast flag. *)
Lemma generateFillImageWrites_empty_counterexample :
  ∃ packets,
    generateFillImageWrites 1024 0 [] = Normal packets
    ∧ packets = []
    ∧ length (lastFlagged packets) ≠ 1%nat.
Proof. exists []. split; [reflexivity|]. split; [reflexivity|discriminate]. Qed.

(** ** What the framer can throw *)

Lemma bufferFailure_bind {A B} (c : Completion A) (f : A → Completion B) :
  bufferFailure c → (∀ a, bufferFailure (f a)) → bufferFailure (c ≫= f).
Proof.
  intros Hc Hf e. destruct c as [a|e']; cbn; [apply Hf|].
  intros [= <-]. by apply Hc.
Qed.

Lemma bufferFailure_Normal {A} (a : A) : bufferFailure (Normal a).
Proof. by intros e. Qed.

Lemma bufferFailure_writeUInt8 buf value offset :
  bufferFailure (writeUInt8 buf value offset).
Proof. intros e. unfold writeUInt8. repeat case_match; congruence. Qed.

Lemma bufferFailure_writeUInt16LE buf value offset :
  bufferFailure (writeUInt16LE buf value offset).
Proof. intros e. unfold writeUInt16LE. repeat case_match; congruence. Qed.

Lemma bufferFailure_copy source target targetStart sourceStart sourceEnd :
  bufferFailure (Buffer_copy source target targetStart sourceStart sourceEnd).
Proof. intros e. unfold Buffer_copy. repeat case_match; congruence. Qed.

Lemma bufferFailure_alloc size : bufferFailure (Buffer_alloc size).
Proof. intros e. unfold Buffer_alloc. repeat case_match; congruence. Qed.

Lemma fillImagePacket_throws MAX keyIndex byteBuffer part remainingBytes e :
  fillImagePacket MAX keyIndex byteBuffer part remainingBytes = Throw e →
  e = BufferOutOfRange.
Proof.
  revert e. change (bufferFailure
    (fillImagePacket MAX keyIndex byteBuffer part remainingBytes)).
  unfold fillImagePacket, writeFillImageCommandHeader.
  repeat first
    [ apply bufferFailure_bind; [|intros ?]
    | apply bufferFailure_alloc | apply bufferFailure_writeUInt8
    | apply bufferFailure_writeUInt16LE | apply bufferFailure_copy
    | apply bufferFailure_Normal ].
Qed.

Lemma fillImageLoop_throws MAX keyIndex byteBuffer part remainingBytes result e :
  fillImageLoop MAX keyIndex byteBuffer part remainingBytes result = Throw e →
  e = BufferOutOfRange.
Proof.
  funelim (fillImageLoop MAX keyIndex byteBuffer part remainingBytes result);
    try congruence; [auto|].
  intros [= <-]. eauto using fillImagePacket_throws.
Qed.

(** ** Every packet carries the key it was framed for *)

Lemma writeUInt8_byteAt buf value offset buf' :
  writeUInt8 buf value offset = Normal buf' → byteAt buf' offset = Some value.
Proof.
  unfold writeUInt8, byteAt.
  destruct ((value <? 0) || (255 <? value)); [done|].
  destruct ((offset <? 0) || (byteLength buf <=? offset)) eqn:Hoff; [done|].
  apply orb_false_iff in Hoff as [Hneg Hlen]. intros [= <-]. rewrite Hneg.
  apply list_lookup_insert_eq. unfold byteLength in Hlen. lia.
Qed.

Lemma Buffer_copy_prefix source target targetStart sourceStart sourceEnd result i :
  Buffer_copy source target targetStart sourceStart sourceEnd = Normal result →
  0 ≤ i < targetStart → byteAt result i = byteAt target i.
Proof.
  unfold Buffer_copy. intros Hcopy Hi.
  destruct ((targetStart <? 0) || (sourceStart <? 0) || (sourceEnd <? 0)); [done|].
  destruct ((byteLength target <=? targetStart) || (sourceEnd <=? sourceStart))
    eqn:Hskip; [by injection Hcopy as <-|].
  destruct (byteLength source <? sourceStart); [done|].
  injection Hcopy as <-. unfold byteAt.
  replace (i <? 0) with false by (symmetry; lia).
  apply orb_false_iff in Hskip as [Hlen _]. unfold byteLength in Hlen.
  rewrite lookup_app_l by (rewrite length_take; lia).
  apply lookup_take_lt. lia.
Qed.

Lemma fillImagePacket_key MAX keyIndex byteBuffer part remainingBytes packet rest :
  fillImagePacket MAX keyIndex byteBuffer part remainingBytes = Normal (packet, rest) →
  packetKey packet = Some keyIndex.
Proof.
  unfold fillImagePacket, writeFillImageCommandHeader.
  destruct (Buffer_alloc MAX) as [p0|]; cbn [mbind Completion_bind]; [|done].
  destruct (writeUInt8 p0 2 0) as [p1|]; cbn [mbind Completion_bind]; [|done].
  destruct (writeUInt8 p1 1 1) as [p2|]; cbn [mbind Completion_bind]; [|done].
  destruct (writeUInt16LE p2 part 2) as [p3|]; cbn [mbind Completion_bind]; [|done].
  destruct (writeUInt8 p3 _ 4) as [p4|]; cbn [mbind Completion_bind]; [|done].
  destruct (writeUInt8 p4 (keyIndex + 1) 5) as [p5|] eqn:Hkey;
    cbn [mbind Completion_bind]; [|done].
  destruct (Buffer_copy _ _ _ _ _) as [p6|] eqn:Hcopy;
    cbn [mbind Completion_bind mret Completion_ret]; [|done].
  intros [= <- _]. unfold packetKey, bufferToIntArray.
  rewrite (Buffer_copy_prefix _ _ _ _ _ _ 5 Hcopy) by by_evaluation.
  rewrite (writeUInt8_byteAt _ _ _ _ Hkey). cbn. f_equal. lia.
Qed.

Lemma fillImageLoop_key MAX keyIndex byteBuffer part remainingBytes result packets :
  fillImageLoop MAX keyIndex byteBuffer part remainingBytes result = Normal packets →
  Forall (fun packet => packetKey packet = Some keyIndex) result →
  Forall (fun packet => packetKey packet = Some keyIndex) packets.
Proof.
  funelim (fillImageLoop MAX keyIndex byteBuffer part remainingBytes result);
    try congruence.
  intros Hloop Hresult.
  match goal with IH : ∀ packets, _ → _ → Forall _ packets |- _ =>
    eapply IH; [done|] end.
  apply Forall_app. split; [done|].
  apply Forall_singleton. by eapply fillImagePacket_key.
Qed.

Lemma generateFillImageWrites_key MAX keyIndex byteBuffer packets :
  generateFillImageWrites MAX keyIndex byteBuffer = Normal packets →
  Forall (fun packet => packetKey packet = Some keyIndex) packets.
Proof. intros Hgen. by eapply fillImageLoop_key. Qed.

(** * Properties of the controller *)

Section Controller.
Context {model : StreamDeckModel} {transport : Transport}.

(** ** Brightness *)

(** C5: [setBrightness] raises a validation error if and only if the
    percentage is outside [0,100], and then makes no transport call; for
    every percentage in [0,100] it makes exactly one transport call, the
    feature report [0x05, 0x55, 0xAA, 0xD1, 0x01, percentage, 0 x 11]
    (report id 0x05, the percentage at payload byte 4), and fails only if
    the transport does. *)
Theorem setBrightness_report (percentage : Z) (this : StreamDeck) :
  (raisesValidationError (setBrightness percentage this).2
     ↔ percentage < 0 ∨ 100 < percentage)
  ∧ (percentage < 0 ∨ 100 < percentage →
       setBrightness percentage this = (this, Rejected InvalidBrightness))
  ∧ (0 ≤ percentage ≤ 100 →
       let report := [0x05; 0x55; 0xAA; 0xD1; 0x01; percentage;
                      0; 0; 0; 0; 0; 0; 0; 0; 0; 0; 0] in
       (setBrightness percentage this).1 = logCall (SendFeatureReport report) this
       ∧ calls (device (setBrightness percentage this).1)
         = calls (device this) ++ [SendFeatureReport report]
       ∧ report !! 0%nat = Some 0x05
       ∧ drop 1 report !! 4%nat = Some percentage
       ∧ (setBrightness percentage this).2
         = if accepts (calls (device this)) (SendFeatureReport report)
           then Fulfilled tt else Rejected TransportFailure).
Proof.
  assert (Hbad : percentage < 0 ∨ 100 < percentage →
            setBrightness percentage this = (this, Rejected InvalidBrightness)).
  { intros Hp. unfold setBrightness, async.
    replace ((percentage <? 0) || (100 <? percentage)) with true
      by (symmetry; apply orb_true_iff; lia). reflexivity. }
  assert (Hok : 0 ≤ percentage ≤ 100 →
            setBrightness percentage this =
              deviceCall (SendFeatureReport
                [0x05; 0x55; 0xAA; 0xD1; 0x01; percentage;
                 0; 0; 0; 0; 0; 0; 0; 0; 0; 0; 0]) tt this).
  { intros Hp. unfold setBrightness, async.
    replace ((percentage <? 0) || (100 <? percentage)) with false
      by (symmetry; apply orb_false_iff; lia).
    unfold mbind, Exec_bind, call, await, device_sendFeatureReport, deviceCall.
    by destruct (accepts _ _). }
  split; [|split; [exact Hbad|]].
  - split.
    + intros (e & He & Hv). destruct (decide (0 ≤ percentage ≤ 100)); [|lia].
      rewrite Hok in He by done. unfold deviceCall in He. cbn in He.
      destruct (accepts _ _); cbn in He; [done|]. by injection He as <-.
    + intros Hp. rewrite Hbad by done. by exists InvalidBrightness.
  - intros Hp report. rewrite Hok by done. by unfold deviceCall.
Qed.

(** ** What the fill pipeline can fail with *)

Lemma checkValidKeyIndex_eq keyIndex :
  checkValidKeyIndex keyIndex =
    if decide (0 ≤ keyIndex < NUM_KEYS) then Normal tt else Throw InvalidKeyIndex.
Proof.
  unfold checkValidKeyIndex. case_decide.
  - by replace ((keyIndex <? 0) || (NUM_KEYS <=? keyIndex)) with false
      by (symmetry; apply orb_false_iff; lia).
  - by replace ((keyIndex <? 0) || (NUM_KEYS <=? keyIndex)) with true
      by (symmetry; apply orb_true_iff; lia).
Qed.

Lemma checkRGBValue_eq value :
  checkRGBValue value =
    if decide (0 ≤ value ≤ 255) then Normal tt else Throw InvalidRGBValue.
Proof.
  unfold checkRGBValue. case_decide.
  - by replace ((value <? 0) || (255 <? value)) with false
      by (symmetry; apply orb_false_iff; lia).
  - by replace ((value <? 0) || (255 <? value)) with true
      by (symmetry; apply orb_true_iff; lia).
Qed.

(** Sending the packets fails only with the transport. *)
Lemma sendReports_failure (packets : list (list Z)) : ∀ this e,
  (forOf packets (fun packet => await (device_sendReport packet)) this).2 = Throw e →
  e = TransportFailure.
Proof.
  induction packets as [|packet packets IH]; intros this e; [done|].
  cbn [forOf]. unfold mbind, Exec_bind, await at 1, device_sendReport at 1, deviceCall.
  destruct (accepts _ _); [apply IH|]. by intros [= <-].
Qed.

(** The pipeline is [async]: it never throws; it rejects with the key
    check, the encoder, a Buffer write, or the transport. *)
Lemma fillImageRange_failure keyIndex imageBuffer sourceOffset sourceStride this :
  match (fillImageRange keyIndex imageBuffer sourceOffset sourceStride this).2 with
  | Fulfilled _ => True
  | Rejected e =>
      (e = InvalidKeyIndex ∧ ¬ 0 ≤ keyIndex < NUM_KEYS)
      ∨ e = EncodeFailure ∨ e = BufferOutOfRange ∨ e = TransportFailure
  | Thrown _ => False
  end.
Proof.
  unfold fillImageRange, async, mbind, Exec_bind, call, awaitEncoded.
  rewrite checkValidKeyIndex_eq. case_decide; cbn; [|by left].
  destruct (convertFillImage _ _ _) as [byteBuffer|]; cbn; [|by right; left].
  destruct (generateFillImageWrites _ _ _) as [packets|e] eqn:Hgen.
  - destruct (forOf packets _ this) as [this2 [u | e]] eqn:Hsend; [done|].
    right; right; right. eapply sendReports_failure. by rewrite Hsend.
  - right; right; left. by eapply fillImageLoop_throws.
Qed.

Lemma fillImageRange_not_validation keyIndex imageBuffer sourceOffset sourceStride this :
  0 ≤ keyIndex < NUM_KEYS →
  ¬ raisesValidationError
      (fillImageRange keyIndex imageBuffer sourceOffset sourceStride this).2.
Proof.
  intros Hk (e & He & Hv).
  pose proof (fillImageRange_failure keyIndex imageBuffer sourceOffset
                sourceStride this) as Hf.
  destruct (fillImageRange _ _ _ _ _).2; cbn in He; [done| |done].
  injection He as ->. destruct Hf as [[_ ?]|[Hf|[Hf|Hf]]]; subst; done.
Qed.


(** ** Validation in [fillColor], [fillImage] and [clearKey] *)

Lemma ICON_BYTES_nonneg : 0 ≤ ICON_BYTES.
Proof. unfold ICON_BYTES. nia. Qed.

Lemma Buffer_alloc_fill_rgb r g b :
  Buffer_alloc_fill ICON_BYTES (Buffer_from [r; g; b]) = Normal (solidColor r g b).
Proof.
  unfold Buffer_alloc_fill. pose proof ICON_BYTES_nonneg.
  by replace (ICON_BYTES <? 0) with false by (symmetry; lia).
Qed.

Lemma fillColor_eq keyIndex r g b this :
  fillColor keyIndex r g b this =
    if decide (0 ≤ keyIndex < NUM_KEYS) then
      if decide (0 ≤ r ≤ 255 ∧ 0 ≤ g ≤ 255 ∧ 0 ≤ b ≤ 255) then
        fillImageRange (transformKeyIndex keyIndex) (solidColor r g b)
          0 (ICON_SIZE * 3) this
      else (this, Thrown InvalidRGBValue)
    else (this, Thrown InvalidKeyIndex).
Proof.
  unfold fillColor, thenReturn, mbind, Exec_bind, call.
  rewrite checkValidKeyIndex_eq, !checkRGBValue_eq, Buffer_alloc_fill_rgb.
  repeat case_decide; try done; lia.
Qed.

Lemma fillImage_eq keyIndex (imageBuffer : list Z) this :
  fillImage keyIndex imageBuffer this =
    if decide (0 ≤ keyIndex < NUM_KEYS) then
      if decide (byteLength imageBuffer = ICON_BYTES) then
        fillImageRange (transformKeyIndex keyIndex) imageBuffer
          0 (ICON_SIZE * 3) this
      else (this, Thrown InvalidImageLength)
    else (this, Thrown InvalidKeyIndex).
Proof.
  unfold fillImage, thenReturn, mbind, Exec_bind, call.
  rewrite checkValidKeyIndex_eq.
  repeat (case_decide || case_bool_decide); done.
Qed.

Lemma clearKey_eq keyIndex this :
  clearKey keyIndex this =
    if decide (0 ≤ keyIndex < NUM_KEYS) then
      fillImageRange (transformKeyIndex keyIndex) (solidColor 0 0 0)
        0 (ICON_SIZE * 3) this
    else (this, Thrown InvalidKeyIndex).
Proof.
  unfold clearKey, thenReturn, call. rewrite checkValidKeyIndex_eq, fillColor_eq.
  repeat case_decide; try done; lia.
Qed.

Lemma fillImageRange_not_thrown keyIndex imageBuffer sourceOffset sourceStride this :
  ¬ throwsValidationError
      (fillImageRange keyIndex imageBuffer sourceOffset sourceStride this).2.
Proof.
  intros (e & He & _).
  pose proof (fillImageRange_failure keyIndex imageBuffer sourceOffset
                sourceStride this) as Hf.
  by rewrite He in Hf.
Qed.

(** C4: [fillColor], [fillImage] and [clearKey] throw a validation error
    synchronously, leaving the object as it was (no transport call is
    made), if and only if the key index is outside [0, numKeys), or (for
    [fillColor]) a channel is outside [0,255], or (for [fillImage]) the
    buffer length differs from iconBytes; and for a key in [0, numKeys)
    with valid channels, or a buffer of exactly iconBytes bytes, no
    validation error is raised at all, provided the key transform keeps
    indices in [0, numKeys). *)
Theorem fill_validation (keyIndex r g b : Z) (imageBuffer : list Z)
    (this : StreamDeck) :
  let validKey := 0 ≤ keyIndex < NUM_KEYS in
  let validRGB := 0 ≤ r ≤ 255 ∧ 0 ≤ g ≤ 255 ∧ 0 ≤ b ≤ 255 in
  let validLength := byteLength imageBuffer = ICON_BYTES in
  (throwsValidationError (fillColor keyIndex r g b this).2
     ↔ ¬ validKey ∨ ¬ validRGB)
  ∧ (throwsValidationError (fillColor keyIndex r g b this).2 →
       (fillColor keyIndex r g b this).1 = this)
  ∧ (throwsValidationError (fillImage keyIndex imageBuffer this).2
       ↔ ¬ validKey ∨ ¬ validLength)
  ∧ (throwsValidationError (fillImage keyIndex imageBuffer this).2 →
       (fillImage keyIndex imageBuffer this).1 = this)
  ∧ (throwsValidationError (clearKey keyIndex this).2 ↔ ¬ validKey)
  ∧ (throwsValidationError (clearKey keyIndex this).2 →
       (clearKey keyIndex this).1 = this)
  ∧ (transformInRange → validKey →
       (validRGB → ¬ raisesValidationError (fillColor keyIndex r g b this).2)
       ∧ (validLength →
            ¬ raisesValidationError (fillImage keyIndex imageBuffer this).2)
       ∧ ¬ raisesValidationError (clearKey keyIndex this).2).
Proof.
  intros validKey validRGB validLength.
  rewrite fillColor_eq, fillImage_eq, clearKey_eq.
  fold validKey validRGB validLength.
  pose proof (fillImageRange_not_thrown (transformKeyIndex keyIndex)) as Hnt.
  assert (Hth : ∀ e, isValidationError e = true →
            throwsValidationError (@Thrown unit e)) by (intros e He; by exists e).
  repeat split; repeat case_decide; cbn [fst snd];
    try done; try tauto;
    try (intros; exfalso; eapply Hnt; eassumption);
    try (intros; by apply Hth);
    try (intros; apply fillImageRange_not_validation; auto).
Qed.

(** ** A solid colour is the same as an image of that colour *)

Lemma solidColor_grey c : 0 ≤ c ≤ 255 →
  solidColor c c c = replicate (Z.to_nat ICON_BYTES) c.
Proof.
  intros Hc. symmetry. apply replicate_as_Forall. split.
  - unfold solidColor. by rewrite length_fmap, length_seqZ.
  - unfold solidColor. apply Forall_fmap, Forall_seqZ. intros i Hi. cbn.
    assert (Hland : Z.land c 255 = c)
      by (rewrite land_255 by lia; apply Z.mod_small; lia).
    pose proof (Z.mod_pos_bound i 3 ltac:(lia)) as Hm.
    unfold Buffer_from, byteAt. cbn [fmap list_fmap]. rewrite Hland.
    replace (i mod 3 <? 0) with false by (symmetry; lia).
    destruct (Z.to_nat (i mod 3)) as [|[|[|?]]] eqn:Hn; try done. lia.
Qed.

(** C8: for every key [k] and every channel value [c] in [0,255],
    [fillColor(k, c, c, c)] and [fillImage(k, buffer)], for a buffer of
    iconBytes bytes all equal to [c], do the same thing: the same reports
    are sent to the transport, in the same order, with the same outcome
    (for a key outside [0, numKeys) both throw before sending any). *)
Theorem fillColor_as_fillImage (keyIndex c : Z) (imageBuffer : list Z)
    (this : StreamDeck) :
  0 ≤ c ≤ 255 →
  byteLength imageBuffer = ICON_BYTES →
  Forall (fun byte => byte = c) imageBuffer →
  fillColor keyIndex c c c this = fillImage keyIndex imageBuffer this
  ∧ calls (device (fillColor keyIndex c c c this).1)
    = calls (device (fillImage keyIndex imageBuffer this).1).
Proof.
  intros Hc Hlen Hall.
  assert (Heq : fillColor keyIndex c c c this = fillImage keyIndex imageBuffer this);
    [|by rewrite Heq].
  rewrite fillColor_eq, fillImage_eq, solidColor_grey by done.
  replace imageBuffer with (replicate (Z.to_nat ICON_BYTES) c).
  - pose proof ICON_BYTES_nonneg. rewrite byteLength_replicate.
    repeat case_decide; try done; lia.
  - apply replicate_as_Forall. split; [unfold byteLength in Hlen; lia|].
    eapply Forall_impl; [exact Hall|]. by intros ? ->.
Qed.

(** ** The button state tracker *)

Lemma onInputSlot_unchanged data (acc : StreamDeck * list KeyEvent) i :
  arrayGet (keyState acc.1) (transformKeyIndex i) = Some (keyPressedAt data i) →
  onInputSlot data acc i = acc.
Proof.
  destruct acc as [this events]. cbn. intros ->.
  by rewrite bool_decide_eq_false_2 by (by intros ?).
Qed.

Lemma onInput_unchanged data (slots : list Z) : ∀ acc : StreamDeck * list KeyEvent,
  (∀ i, i ∈ slots →
     arrayGet (keyState acc.1) (transformKeyIndex i) = Some (keyPressedAt data i)) →
  foldl (onInputSlot data) acc slots = acc.
Proof.
  induction slots as [|i slots IH]; intros acc Hsame; [done|].
  cbn [foldl]. rewrite onInputSlot_unchanged by (apply Hsame; left).
  apply IH. intros j Hj. apply Hsame. by right.
Qed.

Lemma arrayGet_arraySet_ne a i j v :
  i ≠ j → arrayGet (arraySet a i v) j = arrayGet a j.
Proof. intros. unfold arrayGet, arraySet. cbn. by rewrite lookup_insert_ne. Qed.

Lemma arrayGet_arraySet_eq a i v : arrayGet (arraySet a i v) i = Some v.
Proof. unfold arrayGet, arraySet. cbn. by rewrite lookup_insert_eq. Qed.

(** C6: for every tracker state and raw report, with a key transform
    that sends different native slots to different logical keys: a
    report that agrees with the recorded state in every slot yields no
    event and leaves the state as it was; a report that differs from it
    in exactly one native slot [j] yields exactly one event, ['down'] if
    the slot is now pressed and ['up'] if it is now released, carrying
    the logical index [transformKeyIndex j], and the recorded state of
    that logical index becomes the new value. *)
Theorem onInput_edges (data : list Z) (this : StreamDeck) :
  transformInjective →
  ((∀ i, 0 ≤ i < NUM_KEYS →
      arrayGet (keyState this) (transformKeyIndex i) = Some (keyPressedAt data i)) →
   onInput data this = (this, []))
  ∧ (∀ j, 0 ≤ j < NUM_KEYS →
      (∀ i, 0 ≤ i < NUM_KEYS → i ≠ j →
         arrayGet (keyState this) (transformKeyIndex i)
           = Some (keyPressedAt data i)) →
      arrayGet (keyState this) (transformKeyIndex j)
        = Some (negb (keyPressedAt data j)) →
      let keyIndex := transformKeyIndex j in
      (onInput data this).2
        = [if keyPressedAt data j then Down keyIndex else Up keyIndex]
      ∧ (onInput data this).1
        = {| device := device this;
             keyState := arraySet (keyState this) keyIndex (keyPressedAt data j) |}
      ∧ arrayGet (keyState (onInput data this).1) keyIndex
        = Some (keyPressedAt data j)).
Proof.
  intros Hinj. split.
  - intros Hsame. unfold onInput. apply onInput_unchanged.
    intros i Hi. apply elem_of_seqZ in Hi. apply Hsame. lia.
  - intros j Hj Hsame Hflip keyIndex.
    assert (Hrun : onInput data this =
      ({| device := device this;
          keyState := arraySet (keyState this) keyIndex (keyPressedAt data j) |},
       [if keyPressedAt data j then Down keyIndex else Up keyIndex])).
    { unfold onInput.
      replace NUM_KEYS with (j + (1 + (NUM_KEYS - j - 1))) at 1 by lia.
      rewrite seqZ_app, (seqZ_app _ 1), !foldl_app by lia.
      rewrite (onInput_unchanged data (seqZ 0 j)).
      2:{ intros i Hi. apply elem_of_seqZ in Hi. apply Hsame; lia. }
      rewrite (seqZ_cons _ 1), seqZ_nil by lia. cbn [foldl onInputSlot fst].
      rewrite Z.add_0_l. subst keyIndex. rewrite Hflip.
      rewrite bool_decide_eq_true_2 by (by destruct (keyPressedAt data j)).
      cbn [app]. apply onInput_unchanged.
      intros i Hi. apply elem_of_seqZ in Hi. cbn [fst keyState].
      rewrite arrayGet_arraySet_ne; [apply Hsame; lia|].
      intros Heq. apply Hinj in Heq; lia. }
    rewrite Hrun. cbn [fst snd keyState].
    by rewrite arrayGet_arraySet_eq.
Qed.

(** ** The press state is touched by the tracker only *)

Lemma preserves_ret {A} (a : A) : preservesKeyState (mret a : Exec A).
Proof. by intros this. Qed.

Lemma preserves_call {A} (c : Completion A) : preservesKeyState (call c).
Proof. by intros this. Qed.

Lemma preserves_awaitEncoded {A} (p : option A) : preservesKeyState (awaitEncoded p).
Proof. by intros this. Qed.

Lemma preserves_bind {A B} (m : Exec A) (f : A → Exec B) :
  preservesKeyState m → (∀ a, preservesKeyState (f a)) →
  preservesKeyState (m ≫= f).
Proof.
  intros Hm Hf this. unfold mbind, Exec_bind. specialize (Hm this).
  destruct (m this) as [this' [a|e]]; [|done]. by rewrite Hf.
Qed.

Lemma preserves_await {A} (p : Method A) :
  preservesKeyState p → preservesKeyState (await p).
Proof.
  intros Hp this. unfold await. specialize (Hp this).
  by destruct (p this) as [this' [a|e|e]].
Qed.

Lemma preserves_async {A} (body : Exec A) :
  preservesKeyState body → preservesKeyState (async body).
Proof.
  intros Hb this. unfold async. specialize (Hb this).
  by destruct (body this) as [this' [a|e]].
Qed.

Lemma preserves_thenReturn {A B} (body : Exec B) (p : B → Method A) :
  preservesKeyState body → (∀ b, preservesKeyState (p b)) →
  preservesKeyState (thenReturn body p).
Proof.
  intros Hb Hp this. unfold thenReturn. specialize (Hb this).
  destruct (body this) as [this' [b|e]]; [|done]. by rewrite Hp.
Qed.

Lemma preserves_promiseThen {A B} (p : Method A) (f : A → B) :
  preservesKeyState p → preservesKeyState (promiseThen p f).
Proof.
  intros Hp this. unfold promiseThen. specialize (Hp this).
  by destruct (p this) as [this' [a|e|e]].
Qed.

Lemma preserves_forOf {A} (xs : list A) (body : A → Exec unit) :
  (∀ x, preservesKeyState (body x)) → preservesKeyState (forOf xs body).
Proof.
  intros Hb. induction xs as [|x xs IH]; [apply preserves_ret|].
  cbn [forOf]. by apply preserves_bind.
Qed.

Lemma preserves_forRange from to (body : Z → Exec unit) :
  (∀ i, preservesKeyState (body i)) → preservesKeyState (forRange from to body).
Proof. apply preserves_forOf. Qed.

Lemma preserves_deviceCall {A} (c : Call) (value : A) :
  preservesKeyState (deviceCall c value).
Proof. by intros this. Qed.

Lemma preserves_getFeatureReport reportId reportLength :
  preservesKeyState (device_getFeatureReport reportId reportLength).
Proof. by intros this. Qed.

(** One step of a frame proof, by the shape of the computation. *)
Ltac frame_step :=
  match goal with
  | |- ∀ _, _ => intro
  | |- preservesKeyState (let '(_, _) := ?x in _) => destruct x
  | |- preservesKeyState (async _) => apply preserves_async
  | |- preservesKeyState (thenReturn _ _) => apply preserves_thenReturn
  | |- preservesKeyState (promiseThen _ _) => apply preserves_promiseThen
  | |- preservesKeyState (await _) => apply preserves_await
  | |- preservesKeyState (_ ≫= _) => apply preserves_bind
  | |- preservesKeyState (forRange _ _ _) => apply preserves_forRange
  | |- preservesKeyState (forOf _ _) => apply preserves_forOf
  | |- preservesKeyState (mret _) => apply preserves_ret
  | |- preservesKeyState (call _) => apply preserves_call
  | |- preservesKeyState (awaitEncoded _) => apply preserves_awaitEncoded
  | |- preservesKeyState (deviceCall _ _) => apply preserves_deviceCall
  | |- preservesKeyState (device_getFeatureReport _ _) =>
      apply preserves_getFeatureReport
  end.

Lemma preserves_fillImageRange keyIndex imageBuffer sourceOffset sourceStride :
  preservesKeyState (fillImageRange keyIndex imageBuffer sourceOffset sourceStride).
Proof. unfold fillImageRange, device_sendReport. repeat frame_step. Qed.

Lemma preserves_fillColor keyIndex r g b :
  preservesKeyState (fillColor keyIndex r g b).
Proof. unfold fillColor. repeat frame_step. apply preserves_fillImageRange. Qed.

Lemma preserves_fillImage keyIndex imageBuffer :
  preservesKeyState (fillImage keyIndex imageBuffer).
Proof. unfold fillImage. repeat frame_step. apply preserves_fillImageRange. Qed.

Lemma preserves_fillPanel imageBuffer : preservesKeyState (fillPanel imageBuffer).
Proof. unfold fillPanel. repeat frame_step. apply preserves_fillImageRange. Qed.

Lemma preserves_clearKey keyIndex : preservesKeyState (clearKey keyIndex).
Proof. unfold clearKey. repeat frame_step. apply preserves_fillColor. Qed.

Lemma preserves_clearAllKeys : preservesKeyState clearAllKeys.
Proof. unfold clearAllKeys. repeat frame_step. apply preserves_clearKey. Qed.

Lemma preserves_setBrightness percentage :
  preservesKeyState (setBrightness percentage).
Proof. unfold setBrightness, device_sendFeatureReport. repeat frame_step. Qed.

Lemma preserves_resetToLogo : preservesKeyState resetToLogo.
Proof. unfold resetToLogo, device_sendFeatureReport. repeat frame_step. Qed.

Lemma preserves_close : preservesKeyState close.
Proof. unfold close, device_close. repeat frame_step. Qed.

Lemma preserves_getFirmwareVersion (decode : list Z → string) :
  preservesKeyState (getFirmwareVersion decode).
Proof. unfold getFirmwareVersion. repeat frame_step. Qed.

Lemma preserves_getSerialNumber (decode : list Z → string) :
  preservesKeyState (getSerialNumber decode).
Proof. unfold getSerialNumber. repeat frame_step. Qed.

(** The items of [new Array(n).fill(v)]. *)
Lemma Array_new_fill_items n v (k : Z) :
  (list_to_map ((fun i => (i, v)) <$> seqZ 0 n) : gmap Z bool) !! k
  = if decide (0 ≤ k < n) then Some v else None.
Proof.
  case_decide as Hk.
  - apply elem_of_list_to_map_1'.
    + intros y Hy. apply list_elem_of_fmap in Hy as (i & [= _ ->] & _). done.
    + apply list_elem_of_fmap. exists k. split; [done|]. apply elem_of_seqZ. lia.
  - apply not_elem_of_list_to_map_1. rewrite <- list_fmap_compose.
    intros Hin. apply list_elem_of_fmap in Hin as (i & -> & Hi).
    apply elem_of_seqZ in Hi. cbn in Hk. lia.
Qed.

(** What the listener does to the object, slot after slot. *)
Lemma onInput_slots data this (slots : list Z) :
  let acc := foldl (onInputSlot data) (this, []) slots in
  device acc.1 = device this
  ∧ (acc.2 = [] → acc.1 = this)
  ∧ (∀ k, arrayGet (keyState acc.1) k ≠ arrayGet (keyState this) k →
       Down k ∈ acc.2 ∨ Up k ∈ acc.2)
  ∧ ((∀ i, i ∈ slots →
        0 ≤ transformKeyIndex i < arrayLength (keyState this)) →
     arrayLength (keyState acc.1) = arrayLength (keyState this)).
Proof.
  induction slots as [|i slots IH] using rev_ind; [done|].
  rewrite foldl_app. cbn [foldl].
  destruct (foldl (onInputSlot data) (this, []) slots) as [this' events].
  cbn [fst snd] in IH. destruct IH as (Hdev & Hnone & Hmut & Hlen).
  unfold onInputSlot. case_bool_decide as Hchanged; cbn [fst snd device keyState].
  - split; [done|]. split; [by intros [_ [=]]%app_eq_nil|]. split.
    + intros k Hk. destruct (decide (transformKeyIndex i = k)) as [<-|Hne].
      * destruct (keyPressedAt data i); [left|right];
          apply elem_of_app; right; by left.
      * rewrite arrayGet_arraySet_ne in Hk by done.
        destruct (Hmut k Hk); [left|right]; apply elem_of_app; by left.
    + intros Hrange. unfold arraySet. cbn [arrayLength].
      rewrite Hlen by (intros j Hj; apply Hrange, elem_of_app; by left).
      assert (0 ≤ transformKeyIndex i < arrayLength (keyState this))
        by (apply Hrange, elem_of_app; right; by left).
      by replace (arrayLength (keyState this) <=? transformKeyIndex i) with false
        by (symmetry; lia).
  - split; [done|]. split; [done|]. split; [done|].
    intros Hrange. apply Hlen. intros j Hj. apply Hrange, elem_of_app. by left.
Qed.

(** C9: the press state has length numKeys and is all false after
    construction; every public operation leaves it as it was; the input
    listener leaves the device alone, changes the state of a key only
    together with a ['down'] or ['up'] event for that key (a report that
    yields no event changes nothing), and keeps the length at numKeys
    when the key transform keeps indices in [0, numKeys). *)
Theorem keyState_frame :
  (∀ hid offset, 0 ≤ NUM_KEYS ≤ 4294967295 →
     ∃ this, StreamDeckBase_new hid offset = Normal this
       ∧ arrayLength (keyState this) = NUM_KEYS
       ∧ ∀ k, arrayGet (keyState this) k
              = if decide (0 ≤ k < NUM_KEYS) then Some false else None)
  ∧ (∀ this keyIndex r g b imageBuffer percentage (decode : list Z → string),
       keyState (fillColor keyIndex r g b this).1 = keyState this
       ∧ keyState (fillImage keyIndex imageBuffer this).1 = keyState this
       ∧ keyState (fillPanel imageBuffer this).1 = keyState this
       ∧ keyState (clearKey keyIndex this).1 = keyState this
       ∧ keyState (clearAllKeys this).1 = keyState this
       ∧ keyState (setBrightness percentage this).1 = keyState this
       ∧ keyState (resetToLogo this).1 = keyState this
       ∧ keyState (getFirmwareVersion decode this).1 = keyState this
       ∧ keyState (getSerialNumber decode this).1 = keyState this
       ∧ keyState (close this).1 = keyState this)
  ∧ (∀ data this,
       device (onInput data this).1 = device this
       ∧ ((onInput data this).2 = [] → (onInput data this).1 = this)
       ∧ (∀ k, arrayGet (keyState (onInput data this).1) k
                 ≠ arrayGet (keyState this) k →
               Down k ∈ (onInput data this).2 ∨ Up k ∈ (onInput data this).2)
       ∧ (transformInRange → arrayLength (keyState this) = NUM_KEYS →
          arrayLength (keyState (onInput data this).1) = NUM_KEYS)).
Proof.
  split; [|split].
  - intros hid offset HN. unfold StreamDeckBase_new, Array_new_fill.
    replace ((NUM_KEYS <? 0) || (4294967295 <? NUM_KEYS)) with false
      by (symmetry; apply orb_false_iff; lia).
    eexists. split; [reflexivity|]. split; [done|].
    intros k. apply Array_new_fill_items.
  - intros. repeat match goal with |- _ ∧ _ => split end.
    + apply preserves_fillColor.
    + apply preserves_fillImage.
    + apply preserves_fillPanel.
    + apply preserves_clearKey.
    + apply preserves_clearAllKeys.
    + apply preserves_setBrightness.
    + apply preserves_resetToLogo.
    + apply preserves_getFirmwareVersion.
    + apply preserves_getSerialNumber.
    + apply preserves_close.
  - intros data this.
    destruct (onInput_slots data this (seqZ 0 NUM_KEYS)) as (Hdev & Hnone & Hmut & Hlen).
    split; [done|]. split; [done|]. split; [done|].
    intros Hrange HN. unfold onInput. rewrite Hlen; [done|].
    intros i Hi. apply elem_of_seqZ in Hi. rewrite HN. apply Hrange. lia.
Qed.

(** ** The panel *)

Lemma forOf_app {A} (xs ys : list A) (body : A → Exec unit) this :
  forOf (xs ++ ys) body this = (forOf xs body ≫= fun _ => forOf ys body) this.
Proof.
  revert this. induction xs as [|x xs IH]; intros this; [done|].
  cbn [app forOf]. unfold mbind, Exec_bind in *.
  destruct (body x this) as [this' [u|e]]; [apply IH|done].
Qed.

Lemma forOf_fmap {A B} (f : A → B) (xs : list A) (body : B → Exec unit) this :
  forOf (f <$> xs) body this = forOf xs (fun x => body (f x)) this.
Proof.
  revert this. induction xs as [|x xs IH]; intros this; [done|].
  cbn [fmap list_fmap forOf]. unfold mbind, Exec_bind.
  destruct (body (f x) this) as [this' [u|e]]; [apply IH|done].
Qed.

(** The cells of the two nested loops, in the order they are visited. *)
Lemma nested_cells (columns : Z) (rows : nat) :
  0 ≤ columns →
  (seqZ 0 (Z.of_nat rows) ≫= fun row =>
     (fun column => (row, column)) <$> seqZ 0 columns)
  = (fun k => (k / columns, k mod columns))
      <$> seqZ 0 (columns * Z.of_nat rows).
Proof.
  intros Hc. induction rows as [|rows IH].
  - by rewrite Z.mul_0_r.
  - rewrite seqZ_S, bind_app, IH. cbn [mbind list_bind]. rewrite app_nil_r.
    replace (columns * Z.of_nat (S rows))
      with (columns * Z.of_nat rows + columns) by lia.
    rewrite seqZ_app, fmap_app by lia. f_equal.
    rewrite (Z.add_0_l (Z.of_nat rows)).
    replace (0 + columns * Z.of_nat rows) with (columns * Z.of_nat rows + 0) by lia.
    rewrite <- fmap_add_seqZ, <- list_fmap_compose.
    apply Forall_fmap_ext, Forall_seqZ. intros column Hcol. unfold compose.
    f_equal.
    + apply (Z.div_unique _ _ _ column); lia.
    + apply (Z.mod_unique _ _ (Z.of_nat rows)); lia.
Qed.

Lemma forOf_nested {A B} (xs : list A) (ys : list B) (body : A → B → Exec unit) this :
  forOf xs (fun x => forOf ys (body x)) this
  = forOf (xs ≫= fun x => (fun y => (x, y)) <$> ys) (fun '(x, y) => body x y) this.
Proof.
  revert this. induction xs as [|x xs IH]; intros this; [done|].
  cbn [forOf mbind list_bind]. rewrite forOf_app. unfold mbind, Exec_bind.
  rewrite forOf_fmap.
  assert (Heta : forOf ys (fun y => (fun '(x0, y0) => body x0 y0) (x, y)) this
                 = forOf ys (body x) this) by reflexivity.
  rewrite Heta.
  destruct (forOf ys (body x) this) as [this' [u|e]]; [apply IH|done].
Qed.

Lemma fillPanel_as_sequence (imageBuffer : list Z) this :
  byteLength imageBuffer = ICON_BYTES * NUM_KEYS →
  0 ≤ KEY_COLUMNS → 0 ≤ KEY_ROWS →
  fillPanel imageBuffer this = fillSequence imageBuffer panelFills this.
Proof.
  intros Hlen Hc Hr. unfold fillPanel, fillSequence, async, panelFills.
  rewrite bool_decide_eq_false_2 by (by intros ?).
  unfold mbind at 1, Exec_bind at 1, call. unfold forRange.
  rewrite forOf_nested, forOf_fmap. rewrite !Z.sub_0_r.
  replace KEY_ROWS with (Z.of_nat (Z.to_nat KEY_ROWS)) at 1 by lia.
  rewrite nested_cells, Z2Nat.id by lia. fold NUM_KEYS.
  rewrite forOf_fmap. unfold panelFill.
  replace (forOf (seqZ 0 NUM_KEYS) _ this) with
    (forOf (seqZ 0 NUM_KEYS) (fun k =>
       await (fillImageRange (panelKeyIndex (k / KEY_COLUMNS) (k mod KEY_COLUMNS))
         imageBuffer
         (k / KEY_COLUMNS * (ICON_SIZE * 3 * KEY_COLUMNS) * ICON_SIZE
          + k mod KEY_COLUMNS * ICON_SIZE * 3)
         (ICON_SIZE * 3 * KEY_COLUMNS))) this); [done|].
  generalize (seqZ 0 NUM_KEYS). intros ks. revert this.
  induction ks as [|k ks IH]; intros this; [done|].
  cbn [forOf]. unfold mbind, Exec_bind.
  replace (ICON_SIZE * 3 * KEY_COLUMNS * (k / KEY_COLUMNS) * ICON_SIZE)
    with (k / KEY_COLUMNS * (ICON_SIZE * 3 * KEY_COLUMNS) * ICON_SIZE) by lia.
  destruct (await _ this) as [this' [u|e]]; [apply IH|done].
Qed.

Lemma sendReports_calls (packets : list (list Z)) : ∀ this this' u,
  forOf packets (fun packet => await (device_sendReport packet)) this
    = (this', Normal u) →
  calls (device this') = calls (device this) ++ (SendReport <$> packets).
Proof.
  induction packets as [|packet packets IH]; intros this this' u.
  - intros [= <-]. by rewrite app_nil_r.
  - cbn [forOf]. unfold mbind, Exec_bind, await at 1, device_sendReport at 1,
      deviceCall.
    destruct (accepts _ _); [|done]. intros Hrest. apply IH in Hrest.
    rewrite Hrest. cbn. by rewrite <- app_assoc.
Qed.

Lemma fillImageRange_calls keyIndex imageBuffer sourceOffset sourceStride this u :
  (fillImageRange keyIndex imageBuffer sourceOffset sourceStride this).2
    = Fulfilled u →
  calls (device (fillImageRange keyIndex imageBuffer sourceOffset sourceStride this).1)
  = calls (device this)
    ++ fillReports imageBuffer (keyIndex, sourceOffset, sourceStride).
Proof.
  unfold fillImageRange, async, mbind, Exec_bind, call, awaitEncoded, fillReports.
  destruct (checkValidKeyIndex keyIndex); [|done].
  destruct (convertFillImage _ _ _) as [byteBuffer|]; cbn; [|done].
  destruct (generateFillImageWrites _ _ _) as [packets|e]; [|done].
  destruct (forOf packets _ this) as [this' [v|e]] eqn:Hsend; [|done].
  intros _. by eapply sendReports_calls.
Qed.

Lemma fillSequence_calls imageBuffer (fills : list (Z * Z * Z)) this u :
  (fillSequence imageBuffer fills this).2 = Fulfilled u →
  calls (device (fillSequence imageBuffer fills this).1)
  = calls (device this) ++ concat (fillReports imageBuffer <$> fills).
Proof.
  unfold fillSequence, async. revert this.
  induction fills as [|[[index sourceOffset] sourceStride] fills IH]; intros this.
  - intros _. by rewrite app_nil_r.
  - cbn [forOf fmap list_fmap concat]. unfold mbind, Exec_bind, await at 1 3.
    pose proof (fillImageRange_calls index imageBuffer sourceOffset
                  sourceStride this) as Hone.
    destruct (fillImageRange index imageBuffer sourceOffset sourceStride this)
      as [this1 [v|e|e]]; [|done..].
    cbn [fst snd] in Hone. intros Hrest. rewrite IH by done.
    rewrite (Hone v) by done. by rewrite <- app_assoc.
Qed.

(** C10: [fillPanel] sends the cell (row, column) to the key it computes
    from KEY_DIRECTION alone, row * columns + column for left-to-right
    and row * columns + columns - 1 - column for right-to-left, without
    applying [transformKeyIndex]; [fillColor] and [fillImage] send the
    caller's key through [transformKeyIndex] into the same pipeline;
    hence wherever [transformKeyIndex] of the logical position differs
    from that mirror, the packets of the two paths carry different
    native key indices. *)
Theorem fillPanel_ignores_transform (row column : Z) (imageBuffer : list Z)
    (this : StreamDeck) :
  0 ≤ row < KEY_ROWS → 0 ≤ column < KEY_COLUMNS →
  let keyIndex := row * KEY_COLUMNS + column in
  let panelKey :=
    match Props.KEY_DIRECTION deviceProperties with
    | ltr => row * KEY_COLUMNS + column
    | rtl => row * KEY_COLUMNS + KEY_COLUMNS - 1 - column
    end in
  (byteLength imageBuffer = ICON_BYTES * NUM_KEYS →
     fillPanel imageBuffer this = fillSequence imageBuffer panelFills this
     ∧ ∃ sourceOffset sourceStride,
         panelFills !! Z.to_nat keyIndex
         = Some (panelKey, sourceOffset, sourceStride))
  ∧ (byteLength imageBuffer = ICON_BYTES →
       fillImage keyIndex imageBuffer this
       = fillImageRange (transformKeyIndex keyIndex) imageBuffer
           0 (ICON_SIZE * 3) this)
  ∧ (∀ r g b, 0 ≤ r ≤ 255 → 0 ≤ g ≤ 255 → 0 ≤ b ≤ 255 →
       fillColor keyIndex r g b this
       = fillImageRange (transformKeyIndex keyIndex) (solidColor r g b)
           0 (ICON_SIZE * 3) this)
  ∧ (transformKeyIndex keyIndex ≠ panelKey →
       ∀ byteBuffer viaTransform viaPanel p q,
         generateFillImageWrites getFillImagePacketLength
           (transformKeyIndex keyIndex) byteBuffer = Normal viaTransform →
         generateFillImageWrites getFillImagePacketLength
           panelKey byteBuffer = Normal viaPanel →
         p ∈ viaTransform → q ∈ viaPanel →
         packetKey p = Some (transformKeyIndex keyIndex)
         ∧ packetKey q = Some panelKey
         ∧ packetKey p ≠ packetKey q).
Proof.
  intros Hrow Hcol keyIndex panelKey.
  assert (Hkey : 0 ≤ keyIndex < NUM_KEYS) by (unfold keyIndex, NUM_KEYS; nia).
  assert (Hpanel : panelKey = panelKeyIndex row column).
  { unfold panelKey, panelKeyIndex, panelKeyIndexFor.
    destruct (Props.KEY_DIRECTION deviceProperties); lia. }
  split; [|split; [|split]].
  - intros Hlen. split; [apply fillPanel_as_sequence; lia|].
    do 2 eexists. unfold panelFills.
    rewrite list_lookup_fmap, lookup_seqZ_lt by lia.
    rewrite Z.add_0_l, Z2Nat.id by lia. cbn [fmap option_fmap option_map].
    unfold panelFill. rewrite Hpanel. do 4 f_equal.
    + unfold keyIndex. symmetry. apply (Z.div_unique _ _ _ column); lia.
    + unfold keyIndex. symmetry. apply (Z.mod_unique _ _ row); lia.
  - intros Hlen. rewrite fillImage_eq. by repeat case_decide.
  - intros r g b Hr Hg Hb. rewrite fillColor_eq. repeat case_decide; try done. lia.
  - intros Hne byteBuffer viaTransform viaPanel p q Ht Hp Hinp Hinq.
    apply generateFillImageWrites_key in Ht, Hp.
    rewrite Forall_forall in Ht, Hp.
    rewrite (Ht p Hinp), (Hp q Hinq). split; [done|]. split; [done|]. congruence.
Qed.
End Controller.

Lemma setBrightness_report_witness :
  @setBrightness sampleTransport 101 sampleState
    = (sampleState, Rejected InvalidBrightness)
  ∧ calls (device (@setBrightness sampleTransport 100 sampleState).1)
    = [SendFeatureReport [0x05; 0x55; 0xAA; 0xD1; 0x01; 100;
                          0; 0; 0; 0; 0; 0; 0; 0; 0; 0; 0]].
Proof.
  destruct (@setBrightness_report sampleTransport 101 sampleState) as (_ & Hbad & _).
  destruct (@setBrightness_report sampleTransport 100 sampleState) as (_ & _ & Hok).
  split; [apply Hbad; lia|]. apply Hok. lia.
Defined.

Lemma fill_validation_witness :
  ¬ raisesValidationError
      (@fillColor sampleDeck sampleTransport 1 9 8 7 sampleState).2
  ∧ ¬ raisesValidationError
        (@fillImage sampleDeck sampleTransport 1 (replicate 12 5) sampleState).2
  ∧ ¬ raisesValidationError (@clearKey sampleDeck sampleTransport 1 sampleState).2.
Proof.
  destruct (@fill_validation sampleDeck sampleTransport 1 9 8 7 (replicate 12 5)
              sampleState) as (_ & _ & _ & _ & _ & _ & Hvalid).
  destruct Hvalid as (Hcolor & Himage & Hclear).
  - intros i Hi. exact Hi.
  - by_evaluation.
  - split; [apply Hcolor; lia|]. split; [apply Himage; reflexivity|exact Hclear].
Defined.

Lemma fillColor_as_fillImage_witness :
  @fillColor sampleDeck sampleTransport 4 200 200 200 sampleState
  = @fillImage sampleDeck sampleTransport 4 (replicate 12 200) sampleState.
Proof.
  apply (@fillColor_as_fillImage sampleDeck sampleTransport 4 200
           (replicate 12 200) sampleState).
  - lia.
  - reflexivity.
  - by apply Forall_replicate.
Defined.

Lemma onInput_edges_witness :
  @onInput sampleDeck [0; 0; 0; 0; 0; 0] sampleState = (sampleState, [])
  ∧ (@onInput sampleDeck [0; 1; 0; 0; 0; 0] sampleState).2 = [Down 1].
Proof.
  assert (Hinj : @transformInjective sampleDeck) by (intros i j _ _ Hij; exact Hij).
  assert (Hslots : ∀ i, 0 ≤ i < @NUM_KEYS sampleDeck →
            i = 0 ∨ i = 1 ∨ i = 2 ∨ i = 3 ∨ i = 4 ∨ i = 5).
  { intros i Hi. change (@NUM_KEYS sampleDeck) with 6 in Hi. lia. }
  split.
  - apply (proj1 (@onInput_edges sampleDeck [0; 0; 0; 0; 0; 0] sampleState Hinj)).
    intros i Hi.
    destruct (Hslots i Hi) as [->|[->|[->|[->|[->| ->]]]]]; reflexivity.
  - apply (proj2 (@onInput_edges sampleDeck [0; 1; 0; 0; 0; 0] sampleState Hinj) 1).
    + by_evaluation.
    + intros i Hi Hne.
      destruct (Hslots i Hi) as [->|[->|[->|[->|[->| ->]]]]];
        try reflexivity; done.
    + reflexivity.
Defined.

Lemma keyState_frame_witness :
  (∃ this, @StreamDeckBase_new sampleDeck freshDevice 0 = Normal this
     ∧ arrayLength (keyState this) = @NUM_KEYS sampleDeck)
  ∧ arrayLength (keyState (@onInput sampleDeck [0; 1; 0; 0; 0; 0] sampleState).1)
    = @NUM_KEYS sampleDeck.
Proof.
  destruct (@keyState_frame sampleDeck sampleTransport) as (Hnew & _ & Hinput).
  split.
  - destruct (Hnew freshDevice 0) as (this & Hthis & Hlen & _); [by_evaluation|].
    exists this. split; assumption.
  - apply (Hinput [0; 1; 0; 0; 0; 0] sampleState).
    + intros i Hi. exact Hi.
    + reflexivity.
Defined.

Lemma fillPanel_ignores_transform_witness :
  let p := [2; 1; 0; 0; 1; 1; 0; 0; 0; 0; 0; 0; 0; 0; 0; 0; 7; 8; 9; 0; 0; 0] in
  let q := [2; 1; 0; 0; 1; 3; 0; 0; 0; 0; 0; 0; 0; 0; 0; 0; 7; 8; 9; 0; 0; 0] in
  generateFillImageWrites 22 0 [7; 8; 9] = Normal [p]
  ∧ generateFillImageWrites 22 2 [7; 8; 9] = Normal [q]
  ∧ packetKey p = Some 0 ∧ packetKey q = Some 2 ∧ packetKey p ≠ packetKey q.
Proof.
  intros p q.
  destruct (@fillPanel_ignores_transform mirroredDeck sampleTransport 0 0
              (seqZ 0 72) sampleState) as (_ & _ & _ & Hdiffer);
    [by_evaluation..|].
  split; [reflexivity|]. split; [reflexivity|].
  refine (Hdiffer _ [7; 8; 9] [p] [q] p q _ _ _ _);
    [discriminate | reflexivity | reflexivity | by left | by left].
Defined.

(** * Further properties of the packet framer *)

Lemma writeUInt8_inv buf value offset buf' :
  writeUInt8 buf value offset = Normal buf' →
  0 ≤ value ≤ 255 ∧ 0 ≤ offset < byteLength buf
  ∧ buf' = <[Z.to_nat offset := value]> buf.
Proof.
  unfold writeUInt8.
  destruct ((value <? 0) || (255 <? value)) eqn:Hv; [done|].
  destruct ((offset <? 0) || (byteLength buf <=? offset)) eqn:Ho; [done|].
  apply orb_false_iff in Hv, Ho. intros [= <-]. repeat split; lia.
Qed.

Lemma writeUInt16LE_inv buf value offset buf' :
  writeUInt16LE buf value offset = Normal buf' →
  0 ≤ value ≤ 65535 ∧ 0 ≤ offset ∧ offset + 1 < byteLength buf
  ∧ byteLength buf' = byteLength buf.
Proof.
  unfold writeUInt16LE.
  destruct ((value <? 0) || (65535 <? value)) eqn:Hv; [done|].
  destruct ((offset <? 0) || (byteLength buf <=? offset + 1)) eqn:Ho; [done|].
  apply orb_false_iff in Hv, Ho. intros [= <-].
  rewrite !byteLength_insert. repeat split; lia.
Qed.

(** What a header write that completes tells about its arguments. *)
Lemma writeFillImageCommandHeader_inv buffer keyIndex partIndex isLast bodyLength header :
  writeFillImageCommandHeader buffer keyIndex partIndex isLast bodyLength
    = Normal header →
  6 ≤ byteLength buffer ∧ 0 ≤ partIndex < 65536 ∧ 0 ≤ keyIndex + 1 ≤ 255.
Proof.
  unfold writeFillImageCommandHeader.
  destruct (writeUInt8 buffer 2 0) as [p1|] eqn:H1; cbn [mbind Completion_bind]; [|done].
  destruct (writeUInt8 p1 1 1) as [p2|] eqn:H2; cbn [mbind Completion_bind]; [|done].
  destruct (writeUInt16LE p2 partIndex 2) as [p3|] eqn:H3;
    cbn [mbind Completion_bind]; [|done].
  destruct (writeUInt8 p3 _ 4) as [p4|] eqn:H4; cbn [mbind Completion_bind]; [|done].
  intros H5.
  apply writeUInt8_inv in H1 as (_ & _ & ->), H2 as (_ & _ & ->).
  apply writeUInt16LE_inv in H3 as (Hpart & _ & _ & Hlen3).
  apply writeUInt8_inv in H4 as (_ & _ & ->), H5 as (Hkey & Hlen & _).
  rewrite byteLength_insert, Hlen3, !byteLength_insert in Hlen. lia.
Qed.

Lemma writeFillImageCommandHeader_complete buffer keyIndex partIndex isLast bodyLength :
  6 ≤ byteLength buffer → 0 ≤ partIndex < 65536 → 0 ≤ keyIndex + 1 ≤ 255 →
  writeFillImageCommandHeader buffer keyIndex partIndex isLast bodyLength =
    Normal (headerBytes keyIndex partIndex isLast ++ drop 6 buffer).
Proof.
  intros Hlen Hpart Hkey. unfold writeFillImageCommandHeader.
  rewrite writeUInt8_Normal by lia. cbn [mbind Completion_bind].
  rewrite writeUInt8_Normal by (rewrite ?byteLength_insert; lia).
  cbn [mbind Completion_bind].
  rewrite writeUInt16LE_Normal by (rewrite ?byteLength_insert; lia).
  cbn [mbind Completion_bind].
  rewrite writeUInt8_Normal
    by (rewrite ?byteLength_insert; destruct isLast; lia).
  cbn [mbind Completion_bind].
  rewrite writeUInt8_Normal by (rewrite ?byteLength_insert; lia).
  unfold byteLength in Hlen.
  do 6 (destruct buffer as [|? buffer]; [simpl in Hlen; lia|]).
  reflexivity.
Qed.

(** X1: the header writer completes exactly when the buffer has at least
    six bytes, the part index is an unsigned 16-bit value and the one-based
    key index is an unsigned byte; it then replaces the first six bytes and
    keeps the others, whatever [_bodyLength] is; in every other case it
    throws the Buffer's range error. *)
Theorem writeFillImageCommandHeader_decided buffer keyIndex partIndex isLast bodyLength :
  writeFillImageCommandHeader buffer keyIndex partIndex isLast bodyLength =
    if decide (6 ≤ byteLength buffer ∧ 0 ≤ partIndex < 65536
               ∧ 0 ≤ keyIndex + 1 ≤ 255)
    then Normal (headerBytes keyIndex partIndex isLast ++ drop 6 buffer)
    else Throw BufferOutOfRange.
Proof.
  case_decide as Hok.
  - destruct Hok as (? & ? & ?). by apply writeFillImageCommandHeader_complete.
  - destruct (writeFillImageCommandHeader _ _ _ _ _) as [header|e] eqn:Hw.
    + apply writeFillImageCommandHeader_inv in Hw. tauto.
    + f_equal. revert e Hw.
      change (bufferFailure (writeFillImageCommandHeader buffer keyIndex
                               partIndex isLast bodyLength)).
      unfold writeFillImageCommandHeader.
      repeat first
        [ apply bufferFailure_bind; [|intros ?]
        | apply bufferFailure_writeUInt8 | apply bufferFailure_writeUInt16LE ].
Qed.

Lemma fillImagePacket_inv MAX keyIndex byteBuffer part remainingBytes packet rest :
  fillImagePacket MAX keyIndex byteBuffer part remainingBytes = Normal (packet, rest) →
  6 ≤ MAX ∧ 0 ≤ part < 65536 ∧ 0 ≤ keyIndex + 1 ≤ 255
  ∧ rest = remainingBytes - Z.min remainingBytes (MAX_PAYLOAD_SIZE MAX).
Proof.
  unfold fillImagePacket, Buffer_alloc.
  destruct (MAX <? 0) eqn:Hmax; cbn [mbind Completion_bind]; [done|].
  destruct (writeFillImageCommandHeader _ _ _ _ _) as [header|] eqn:Hheader;
    cbn [mbind Completion_bind]; [|done].
  destruct (Buffer_copy _ _ _ _ _) as [copied|];
    cbn [mbind Completion_bind mret Completion_ret]; [|done].
  intros [= _ <-]. apply writeFillImageCommandHeader_inv in Hheader.
  rewrite byteLength_replicate in Hheader. split; [lia|]. split; [tauto|].
  split; [tauto|done].
Qed.

(** With no room for payload a turn never brings the loop closer to its
    end; only a throw ends it. *)
Lemma fillImageLoop_no_capacity MAX keyIndex byteBuffer (n : nat) :
  MAX_PAYLOAD_SIZE MAX ≤ 0 →
  ∀ part remainingBytes result,
    65536 - part ≤ Z.of_nat n → 0 < remainingBytes →
    fillImageLoop MAX keyIndex byteBuffer part remainingBytes result
      = Throw BufferOutOfRange.
Proof.
  intros HP. induction n as [|n IH]; intros part rem result Hn Hrem;
    rewrite fillImageLoop_eq; replace (0 <? rem) with true by (symmetry; lia);
    destruct (fillImagePacket MAX keyIndex byteBuffer part rem)
      as [[packet rest]|e] eqn:Hturn;
    try (f_equal; by eapply fillImagePacket_throws);
    apply fillImagePacket_inv in Hturn as (_ & Hpart & _ & ->).
  - lia.
  - apply IH; lia.
Qed.

(** X2: for a positive payload capacity and a native key index that is not
    negative, the framer returns packets exactly when the input is empty,
    or the one-based key index fits a byte and the input needs at most
    65536 packets; what it returns is then the closed form of every
    packet; in every other case it throws the Buffer's range error. *)
Theorem generateFillImageWrites_decided MAX_PACKET_SIZE keyIndex byteBuffer :
  0 < MAX_PAYLOAD_SIZE MAX_PACKET_SIZE → 0 ≤ keyIndex →
  let P := MAX_PAYLOAD_SIZE MAX_PACKET_SIZE in
  let L := byteLength byteBuffer in
  generateFillImageWrites MAX_PACKET_SIZE keyIndex byteBuffer =
    if decide (byteBuffer = [] ∨ (keyIndex < 255 ∧ ceilDiv L P ≤ 65536))
    then Normal ((fun j => framedPacket MAX_PACKET_SIZE keyIndex byteBuffer j (L - j * P))
                   <$> seqZ 0 (ceilDiv L P))
    else Throw BufferOutOfRange.
Proof.
  intros HP Hkey P L. case_decide as Hok.
  - destruct Hok as [->|[Hfit Hn]].
    + replace (ceilDiv L P) with 0; [done|].
      pose proof (ceilDiv_spec L P HP) as Hc. unfold L, byteLength in *. cbn in *. nia.
    + by apply generateFillImageWrites_frames.
  - assert (Hne : 0 < L)
      by (destruct byteBuffer; [tauto|unfold L, byteLength; cbn; lia]).
    destruct (decide (keyIndex < 255)) as [Hfit|Hbig].
    + apply generateFillImageWrites_overflow; [done|lia|]. fold P L. lia.
    + unfold generateFillImageWrites. rewrite fillImageLoop_eq. fold L.
      replace (0 <? L) with true by (symmetry; lia).
      destruct (fillImagePacket _ _ _ _ _) as [[packet rest]|e] eqn:Hturn.
      * apply fillImagePacket_inv in Hturn. lia.
      * f_equal. by eapply fillImagePacket_throws.
Qed.

Lemma generateFillImageWrites_decided_witness :
  generateFillImageWrites 18 255 [7; 8; 9] = Throw BufferOutOfRange
  ∧ generateFillImageWrites 18 4 [7; 8; 9] = Normal
      [ [2; 1; 0; 0; 0; 5; 0; 0; 0; 0; 0; 0; 0; 0; 0; 0; 7; 8];
        [2; 1; 1; 0; 1; 5; 0; 0; 0; 0; 0; 0; 0; 0; 0; 0; 9; 0] ].
Proof.
  split.
  - rewrite (generateFillImageWrites_decided 18 255 [7; 8; 9]) by by_evaluation.
    reflexivity.
  - rewrite (generateFillImageWrites_decided 18 4 [7; 8; 9]) by by_evaluation.
    reflexivity.
Defined.

(** X3: a model whose packets are not longer than the 16-byte header cannot
    frame any non-empty image: for every key index the framer throws, and
    never returns a packet list. *)
Theorem generateFillImageWrites_no_capacity MAX_PACKET_SIZE keyIndex byteBuffer :
  MAX_PACKET_SIZE ≤ getFillImageCommandHeaderLength → byteBuffer ≠ [] →
  generateFillImageWrites MAX_PACKET_SIZE keyIndex byteBuffer = Throw BufferOutOfRange.
Proof.
  intros HP Hne. unfold generateFillImageWrites.
  apply (fillImageLoop_no_capacity _ _ _ (Z.to_nat 65536)).
  - unfold MAX_PAYLOAD_SIZE, PACKET_HEADER_LENGTH. lia.
  - lia.
  - destruct byteBuffer; [done|unfold byteLength; cbn; lia].
Qed.

Lemma generateFillImageWrites_no_capacity_witness :
  generateFillImageWrites 16 0 [1] = Throw BufferOutOfRange.
Proof.
  apply (generateFillImageWrites_no_capacity 16 0 [1]); [by_evaluation|discriminate].
Defined.

Lemma byteAt_app_l (a b : list Z) i :
  0 ≤ i < byteLength a → byteAt (a ++ b) i = byteAt a i.
Proof.
  intros Hi. unfold byteAt, byteLength in *.
  replace (i <? 0) with false by (symmetry; lia).
  apply lookup_app_l. lia.
Qed.

Lemma byteAt_app_r (a b : list Z) i :
  byteLength a ≤ i → byteAt (a ++ b) i = byteAt b (i - byteLength a).
Proof.
  intros Hi. unfold byteAt, byteLength in *.
  replace (i <? 0) with false by (symmetry; lia).
  replace (i - Z.of_nat (length a) <? 0) with false by (symmetry; lia).
  rewrite lookup_app_r by lia. f_equal. lia.
Qed.

Lemma byteAt_replicate n (x : Z) i :
  0 ≤ i < Z.of_nat n → byteAt (replicate n x) i = Some x.
Proof.
  intros Hi. unfold byteAt. replace (i <? 0) with false by (symmetry; lia).
  apply lookup_replicate_2. lia.
Qed.

(** X4: in every packet of a transfer the ten bytes after the six header
    fields are zero, and payload byte [j] of packet [i] is byte
    [i * P + j] of the image, or zero past the end of the image. *)
Theorem generateFillImageWrites_bytes MAX_PACKET_SIZE keyIndex byteBuffer :
  0 < MAX_PAYLOAD_SIZE MAX_PACKET_SIZE →
  0 ≤ keyIndex < 255 →
  ceilDiv (byteLength byteBuffer) (MAX_PAYLOAD_SIZE MAX_PACKET_SIZE) ≤ 65536 →
  ∃ packets,
    generateFillImageWrites MAX_PACKET_SIZE keyIndex byteBuffer = Normal packets
    ∧ ∀ (i : nat) packet, packets !! i = Some packet →
        (∀ j, 6 ≤ j < 16 → byteAt packet j = Some 0)
        ∧ (∀ j, 0 ≤ j < MAX_PAYLOAD_SIZE MAX_PACKET_SIZE →
             byteAt packet (16 + j)
             = Some (default 0 (byteAt byteBuffer
                 (Z.of_nat i * MAX_PAYLOAD_SIZE MAX_PACKET_SIZE + j)))).
Proof.
  intros HP Hkey Hn. eexists. split; [by apply generateFillImageWrites_frames|].
  intros i packet Hi. apply packets_lookup in Hi as [Hi ->].
  rewrite packetAt_eq by done.
  pose proof (payloadCount_range _ _ HP _ Hi) as [Hc Hl].
  pose proof (chunk_length _ _ HP _ Hi) as Hchunk.
  set (P := MAX_PAYLOAD_SIZE MAX_PACKET_SIZE) in *.
  set (count := payloadCount MAX_PACKET_SIZE (byteLength byteBuffer) (Z.of_nat i)) in *.
  assert (Hoff : 0 ≤ Z.of_nat i * P) by nia.
  split.
  - intros j Hj. rewrite byteAt_app_r by (change (byteLength (headerBytes _ _ _)) with 6; lia).
    change (byteLength (headerBytes _ _ _)) with 6.
    rewrite byteAt_app_l by (rewrite byteLength_replicate; lia).
    apply byteAt_replicate. lia.
  - intros j Hj. rewrite byteAt_app_r by (change (byteLength (headerBytes _ _ _)) with 6; lia).
    change (byteLength (headerBytes _ _ _)) with 6.
    rewrite byteAt_app_r by (rewrite byteLength_replicate; lia).
    rewrite byteLength_replicate.
    replace (16 + j - 6 - Z.of_nat 10) with j by lia.
    destruct (decide (j < count)) as [Hin|Hout].
    + rewrite byteAt_app_l by (unfold byteLength; rewrite Hchunk; lia).
      unfold byteAt. replace (j <? 0) with false by (symmetry; lia).
      replace (Z.of_nat i * P + j <? 0) with false by (symmetry; lia).
      rewrite lookup_take_lt, lookup_drop by lia.
      replace (Z.to_nat (Z.of_nat i * P) + Z.to_nat j)%nat
        with (Z.to_nat (Z.of_nat i * P + j)) by lia.
      assert (Hsome : is_Some (byteBuffer !! Z.to_nat (Z.of_nat i * P + j))).
      { apply lookup_lt_is_Some. unfold byteLength in Hl. lia. }
      destruct Hsome as [v ->]. done.
    + rewrite byteAt_app_r by (unfold byteLength; rewrite Hchunk; lia).
      rewrite byteAt_replicate by (unfold byteLength; rewrite Hchunk; lia).
      assert (Hend : count = byteLength byteBuffer - Z.of_nat i * P)
        by (revert Hout Hj; unfold count, payloadCount; fold P; lia).
      unfold byteAt. replace (Z.of_nat i * P + j <? 0) with false by (symmetry; lia).
      rewrite lookup_ge_None_2; [done|]. unfold byteLength in Hend. lia.
Qed.

Lemma generateFillImageWrites_bytes_witness :
  ∃ packets,
    generateFillImageWrites 18 4 [7; 8; 9] = Normal packets
    ∧ ∃ packet, packets !! 1%nat = Some packet
        ∧ byteAt packet 16 = Some 9 ∧ byteAt packet 17 = Some 0.
Proof.
  destruct (generateFillImageWrites_bytes 18 4 [7; 8; 9])
    as (packets & Hgen & Hbytes); [by_evaluation..|].
  exists packets. split; [exact Hgen|].
  assert (Hsecond : packets !! 1%nat
            = Some [2; 1; 1; 0; 1; 5; 0; 0; 0; 0; 0; 0; 0; 0; 0; 0; 9; 0]).
  { assert (Heval : generateFillImageWrites 18 4 [7; 8; 9] = Normal
        [ [2; 1; 0; 0; 0; 5; 0; 0; 0; 0; 0; 0; 0; 0; 0; 0; 7; 8];
          [2; 1; 1; 0; 1; 5; 0; 0; 0; 0; 0; 0; 0; 0; 0; 0; 9; 0] ])
      by reflexivity.
    rewrite Heval in Hgen. by injection Hgen as <-. }
  eexists. split; [exact Hsecond|].
  destruct (Hbytes 1%nat _ Hsecond) as [_ Hpayload].
  split; [exact (Hpayload 0 ltac:(by_evaluation))|exact (Hpayload 1 ltac:(by_evaluation))].
Defined.

Lemma Buffer_copy_length source target targetStart sourceStart sourceEnd result :
  Buffer_copy source target targetStart sourceStart sourceEnd = Normal result →
  byteLength result = byteLength target.
Proof.
  unfold Buffer_copy.
  destruct ((targetStart <? 0) || (sourceStart <? 0) || (sourceEnd <? 0)) eqn:Hneg;
    [done|].
  destruct ((byteLength target <=? targetStart) || (sourceEnd <=? sourceStart))
    eqn:Hskip; [by intros [= <-]|].
  destruct (byteLength source <? sourceStart) eqn:Hsrc; [done|].
  intros [= <-]. apply orb_false_iff in Hskip as [Ht Hs].
  apply orb_false_iff in Hneg as [Hneg _]. apply orb_false_iff in Hneg as [Hts Hss].
  unfold byteLength in *.
  rewrite !length_app, !length_take, !length_drop.
  destruct (Z.of_nat (length target) - targetStart <? sourceEnd - sourceStart) eqn:Hcut;
    lia.
Qed.

Lemma fillImagePacket_shape MAX keyIndex byteBuffer part remainingBytes packet rest :
  fillImagePacket MAX keyIndex byteBuffer part remainingBytes = Normal (packet, rest) →
  byteLength packet = MAX ∧ byteAt packet 0 = Some 2 ∧ byteAt packet 1 = Some 1.
Proof.
  intros Hturn. pose proof (fillImagePacket_inv _ _ _ _ _ _ _ Hturn) as (HM & Hp & Hk & _).
  revert Hturn. unfold fillImagePacket, Buffer_alloc.
  replace (MAX <? 0) with false by (symmetry; lia). cbn [mbind Completion_bind].
  rewrite writeFillImageCommandHeader_complete by (rewrite ?byteLength_replicate; lia).
  cbn [mbind Completion_bind].
  destruct (Buffer_copy _ _ _ _ _) as [copied|] eqn:Hcopy;
    cbn [mbind Completion_bind mret Completion_ret]; [|done].
  intros [= <- _]. unfold bufferToIntArray.
  rewrite (Buffer_copy_length _ _ _ _ _ _ Hcopy).
  rewrite !(Buffer_copy_prefix _ _ _ _ _ _ _ Hcopy) by by_evaluation.
  split; [|done]. rewrite byteLength_app. unfold byteLength.
  rewrite length_drop, length_replicate. cbn [headerBytes length]. lia.
Qed.

Lemma fillImageLoop_shape MAX keyIndex byteBuffer part remainingBytes result packets
    (Q : list Z → Prop) :
  (∀ p r packet rest,
     fillImagePacket MAX keyIndex byteBuffer p r = Normal (packet, rest) → Q packet) →
  fillImageLoop MAX keyIndex byteBuffer part remainingBytes result = Normal packets →
  Forall Q result → Forall Q packets.
Proof.
  intros Hturns.
  funelim (fillImageLoop MAX keyIndex byteBuffer part remainingBytes result);
    try congruence.
  intros Hloop Hresult.
  match goal with IH : ∀ packets Q, _ → _ → _ → Forall Q packets |- _ =>
    eapply IH; [done|done|] end.
  apply Forall_app. split; [done|]. apply Forall_singleton. by eapply Hturns.
Qed.

(** X5: whatever the packet length and the key index, every packet of a
    list the framer returns has the length [getFillImagePacketLength()],
    starts with the bytes 0x02 0x01 and carries, one-based in byte 5, the
    key index the framer was called with. *)
Theorem generateFillImageWrites_packets MAX_PACKET_SIZE keyIndex byteBuffer packets :
  generateFillImageWrites MAX_PACKET_SIZE keyIndex byteBuffer = Normal packets →
  ∀ packet, packet ∈ packets →
    byteLength packet = MAX_PACKET_SIZE
    ∧ byteAt packet 0 = Some 0x02 ∧ byteAt packet 1 = Some 0x01
    ∧ byteAt packet 5 = Some (keyIndex + 1)
    ∧ packetKey packet = Some keyIndex.
Proof.
  intros Hgen packet Hin.
  pose proof (fillImageLoop_shape _ _ _ _ _ _ _
    (fun packet => byteLength packet = MAX_PACKET_SIZE
                   ∧ byteAt packet 0 = Some 2 ∧ byteAt packet 1 = Some 1)
    (fun p r packet rest H => fillImagePacket_shape _ _ _ _ _ _ _ H)
    Hgen (Forall_nil_2 _)) as Hshape.
  pose proof (generateFillImageWrites_key _ _ _ _ Hgen) as Hkey.
  rewrite Forall_forall in Hshape, Hkey.
  destruct (Hshape packet Hin) as (Hlen & H0 & H1).
  specialize (Hkey packet Hin). repeat split; try done.
  unfold packetKey in Hkey. destruct (byteAt packet 5) as [v|]; [|done].
  cbn in Hkey. f_equal. injection Hkey as Hv. lia.
Qed.

Lemma generateFillImageWrites_packets_witness :
  byteLength [2; 1; 1; 0; 1; 5; 0; 0; 0; 0; 0; 0; 0; 0; 0; 0; 9; 0] = 18
  ∧ packetKey [2; 1; 1; 0; 1; 5; 0; 0; 0; 0; 0; 0; 0; 0; 0; 0; 9; 0] = Some 4.
Proof.
  destruct (generateFillImageWrites_packets 18 4 [7; 8; 9]
      [ [2; 1; 0; 0; 0; 5; 0; 0; 0; 0; 0; 0; 0; 0; 0; 0; 7; 8];
        [2; 1; 1; 0; 1; 5; 0; 0; 0; 0; 0; 0; 0; 0; 0; 0; 9; 0] ]
      ltac:(reflexivity)
      [2; 1; 1; 0; 1; 5; 0; 0; 0; 0; 0; 0; 0; 0; 0; 0; 9; 0]
      ltac:(right; left)) as (Hlen & _ & _ & _ & Hkey).
  split; assumption.
Defined.

(** * Further properties of the controller *)

Section Pipeline.
Context {model : StreamDeckModel} {transport : Transport}.

(** The reports of one transfer: those sent before the first one the
    transport rejects, that one included. *)
Lemma sendReports_prefix (packets : list (list Z)) : ∀ this,
  let run := forOf packets (fun packet => await (device_sendReport packet)) this in
  dataKeyOffset (device run.1) = dataKeyOffset (device this)
  ∧ ∃ sent rest,
      packets = sent ++ rest
      ∧ calls (device run.1) = calls (device this) ++ (SendReport <$> sent)
      ∧ (∀ u, run.2 = Normal u → rest = [])
      ∧ (∀ e, run.2 = Throw e →
           e = TransportFailure
           ∧ ∃ accepted failed,
               sent = accepted ++ [failed]
               ∧ accepts (calls (device this) ++ (SendReport <$> accepted))
                         (SendReport failed) = false).
Proof.
  induction packets as [|packet packets IH]; intros this.
  - cbn. split; [done|]. exists [], []. cbn. rewrite app_nil_r.
    repeat split; try done.
  - assert (Hrun :
      forOf (packet :: packets) (fun packet => await (device_sendReport packet)) this
      = if accepts (calls (device this)) (SendReport packet)
        then forOf packets (fun packet => await (device_sendReport packet))
               (logCall (SendReport packet) this)
        else (logCall (SendReport packet) this, Throw TransportFailure)).
    { cbn [forOf]. unfold mbind, Exec_bind, await at 1, device_sendReport at 1,
        deviceCall. by destruct (accepts _ _). }
    cbv zeta. rewrite Hrun. clear Hrun.
    destruct (accepts _ _) eqn:Hacc.
    + specialize (IH (logCall (SendReport packet) this)). cbv zeta in IH.
      destruct (forOf packets _ (logCall (SendReport packet) this)) as [this' c].
      cbn [fst snd] in *.
      destruct IH as (Hoff & sent & rest & Hsplit & Hcalls & Hok & Hfail).
      split; [exact Hoff|].
      exists (packet :: sent), rest. split; [by rewrite Hsplit|]. split.
      { rewrite Hcalls. cbn. by rewrite <- app_assoc. }
      split; [exact Hok|].
      intros e He. destruct (Hfail e He) as (-> & accepted & failed & -> & Hrej).
      split; [done|]. exists (packet :: accepted), failed. split; [done|].
      cbn in Hrej. rewrite <- app_assoc in Hrej. exact Hrej.
    + cbn. split; [done|]. exists [packet], packets. split; [done|].
      split; [done|]. split; [done|]. intros e [= <-]. split; [done|].
      exists [], packet. split; [done|]. cbn. by rewrite app_nil_r.
Qed.

(** X6: a run of the fill pipeline never throws synchronously, and a run
    that is rejected for any reason other than the transport (an invalid
    key index, an encoder that rejects, a Buffer range error in the
    framer) has made no call on the device: the object is as it was. *)
Theorem fillImageRange_fails_clean keyIndex (imageBuffer : list Z)
    sourceOffset sourceStride this :
  (∀ e, (fillImageRange keyIndex imageBuffer sourceOffset sourceStride this).2
        ≠ Thrown e)
  ∧ (∀ e,
       (fillImageRange keyIndex imageBuffer sourceOffset sourceStride this).2
         = Rejected e →
       e ≠ TransportFailure →
       (fillImageRange keyIndex imageBuffer sourceOffset sourceStride this).1 = this).
Proof.
  unfold fillImageRange, async, mbind, Exec_bind, call, awaitEncoded.
  destruct (checkValidKeyIndex keyIndex); [|by split].
  destruct (convertFillImage _ _ _) as [byteBuffer|]; cbn; [|by split].
  destruct (generateFillImageWrites _ _ _) as [packets|e0]; [|by split].
  destruct (forOf packets _ this) as [this' [v|e0]] eqn:Hsend; [by split|].
  split; [done|]. intros e [= <-] Hne. exfalso. apply Hne.
  eapply sendReports_failure. by rewrite Hsend.
Qed.

Lemma fillImageRange_run keyIndex (imageBuffer : list Z)
    sourceOffset sourceStride this byteBuffer packets :
  0 ≤ keyIndex < NUM_KEYS →
  convertFillImage imageBuffer sourceOffset sourceStride = Some byteBuffer →
  generateFillImageWrites getFillImagePacketLength keyIndex byteBuffer
    = Normal packets →
  fillImageRange keyIndex imageBuffer sourceOffset sourceStride this
  = async (forOf packets (fun packet => await (device_sendReport packet))) this.
Proof.
  intros Hkey Hconvert Hgen.
  unfold fillImageRange, async, mbind, Exec_bind, awaitEncoded, call.
  rewrite checkValidKeyIndex_eq, decide_True by done.
  rewrite Hconvert. cbn [from_option]. by rewrite Hgen.
Qed.


(** X8: with a transport that fulfils every call, a fill with a valid key
    whose encoder and framer succeed is fulfilled, and the device has
    received exactly the framed packets, in order. *)
Theorem fillImageRange_reliable keyIndex (imageBuffer : list Z)
    sourceOffset sourceStride this byteBuffer packets :
  reliableTransport →
  0 ≤ keyIndex < NUM_KEYS →
  convertFillImage imageBuffer sourceOffset sourceStride = Some byteBuffer →
  generateFillImageWrites getFillImagePacketLength keyIndex byteBuffer
    = Normal packets →
  (fillImageRange keyIndex imageBuffer sourceOffset sourceStride this).2
    = Fulfilled tt
  ∧ calls (device (fillImageRange keyIndex imageBuffer sourceOffset
                     sourceStride this).1)
    = calls (device this) ++ (SendReport <$> packets).
Proof.
  intros Hrel Hkey Hconvert Hgen.
  rewrite (fillImageRange_run _ _ _ _ _ _ _ Hkey Hconvert Hgen). unfold async.
  destruct (sendReports_prefix packets this)
    as (_ & sent & rest & Hsplit & Hcalls & Hok & Hfail).
  cbn zeta in *.
  destruct (forOf packets _ this) as [this' [[]|e0]]; cbn [fst snd] in *.
  - rewrite (Hok tt eq_refl), app_nil_r in Hsplit. by subst sent.
  - destruct (Hfail e0 eq_refl) as (_ & accepted & failed & _ & Hrej).
    by rewrite Hrel in Hrej.
Qed.
End Pipeline.

Lemma fillImageRange_fails_clean_witness :
  @fillImageRange sampleDeck sampleTransport 9 (replicate 12 5) 0 6 sampleState
  = (sampleState, Rejected InvalidKeyIndex).
Proof.
  destruct (@fillImageRange_fails_clean sampleDeck sampleTransport 9
              (replicate 12 5) 0 6 sampleState) as [_ Hclean].
  specialize (Hclean InvalidKeyIndex ltac:(reflexivity) ltac:(discriminate)).
  apply injective_projections; [exact Hclean|reflexivity].
Defined.


Lemma fillImageRange_reliable_witness :
  (@fillImageRange sampleDeck sampleTransport 1 (replicate 12 5) 0 6 sampleState).2
  = Fulfilled tt.
Proof.
  apply (@fillImageRange_reliable sampleDeck sampleTransport 1 (replicate 12 5)
           0 6 sampleState (replicate 12 5)
           [ [2; 1; 0; 0; 0; 2; 0; 0; 0; 0; 0; 0; 0; 0; 0; 0; 5; 5; 5; 5; 5; 5];
             [2; 1; 1; 0; 1; 2; 0; 0; 0; 0; 0; 0; 0; 0; 0; 0; 5; 5; 5; 5; 5; 5] ]).
  - intros log c. reflexivity.
  - by_evaluation.
  - reflexivity.
  - reflexivity.
Defined.

Section Fills.
Context {model : StreamDeckModel} {transport : Transport}.

Lemma solidColor_length r g b : byteLength (solidColor r g b) = ICON_BYTES.
Proof.
  pose proof ICON_BYTES_nonneg. unfold solidColor, byteLength.
  rewrite length_fmap, length_seqZ. lia.
Qed.

Lemma solidColor_pixel r g b pixel channel value :
  0 ≤ r ≤ 255 → 0 ≤ g ≤ 255 → 0 ≤ b ≤ 255 →
  0 ≤ pixel < ICON_SIZE * ICON_SIZE →
  [r; g; b] !! channel = Some value →
  byteAt (solidColor r g b) (3 * pixel + Z.of_nat channel) = Some value.
Proof.
  intros Hr Hg Hb Hpixel Hchannel.
  assert (Hc : (channel < 3)%nat) by (apply lookup_lt_Some in Hchannel; cbn in *; lia).
  unfold solidColor, byteAt at 1.
  replace (3 * pixel + Z.of_nat channel <? 0) with false by (symmetry; lia).
  rewrite list_lookup_fmap, lookup_seqZ_lt by (unfold ICON_BYTES; lia).
  cbn [fmap option_fmap option_map]. rewrite Z.add_0_l, Z2Nat.id by lia.
  replace ((3 * pixel + Z.of_nat channel) mod 3) with (Z.of_nat channel)
    by (apply (Z.mod_unique _ _ pixel); lia).
  unfold Buffer_from, byteAt. cbn [fmap list_fmap].
  replace (Z.of_nat channel <? 0) with false by (symmetry; lia).
  rewrite Nat2Z.id, !land_255 by lia.
  rewrite !Z.mod_small by lia.
  destruct channel as [|[|[|?]]]; cbn in *; (done || lia).
Qed.

(** X9: for channels in [0,255] (and any key index), [fillColor(k, r, g, b)]
    does exactly what [fillImage] does on a buffer of iconBytes bytes in
    which every pixel has the three bytes r, g, b in this order. *)
Theorem fillColor_as_image keyIndex r g b this :
  0 ≤ r ≤ 255 → 0 ≤ g ≤ 255 → 0 ≤ b ≤ 255 →
  fillColor keyIndex r g b this = fillImage keyIndex (solidColor r g b) this
  ∧ byteLength (solidColor r g b) = ICON_BYTES
  ∧ ∀ pixel, 0 ≤ pixel < ICON_SIZE * ICON_SIZE →
      byteAt (solidColor r g b) (3 * pixel) = Some r
      ∧ byteAt (solidColor r g b) (3 * pixel + 1) = Some g
      ∧ byteAt (solidColor r g b) (3 * pixel + 2) = Some b.
Proof.
  intros Hr Hg Hb. split; [|split; [apply solidColor_length|]].
  - rewrite fillColor_eq, fillImage_eq, solidColor_length.
    repeat case_decide; try done; lia.
  - intros pixel Hpixel.
    pose proof (solidColor_pixel r g b pixel 0 r Hr Hg Hb Hpixel eq_refl) as H0.
    pose proof (solidColor_pixel r g b pixel 1 g Hr Hg Hb Hpixel eq_refl) as H1.
    pose proof (solidColor_pixel r g b pixel 2 b Hr Hg Hb Hpixel eq_refl) as H2.
    rewrite Z.add_0_r in H0. done.
Qed.

(** X10: for every key index, valid or not, [clearKey(k)] is
    [fillColor(k, 0, 0, 0)], and is [fillImage] on iconBytes zero bytes:
    its own key check changes nothing. *)
Theorem clearKey_as_fill keyIndex this :
  clearKey keyIndex this = fillColor keyIndex 0 0 0 this
  ∧ clearKey keyIndex this
    = fillImage keyIndex (replicate (Z.to_nat ICON_BYTES) 0) this.
Proof.
  assert (Hcolor : clearKey keyIndex this = fillColor keyIndex 0 0 0 this).
  { rewrite clearKey_eq, fillColor_eq. repeat case_decide; try done; lia. }
  split; [exact Hcolor|]. rewrite Hcolor, fillColor_eq, fillImage_eq.
  rewrite solidColor_grey by lia. pose proof ICON_BYTES_nonneg.
  rewrite byteLength_replicate. repeat case_decide; try done; lia.
Qed.

Lemma clearKeys_as_fills (keys : list Z) this :
  (∀ k, k ∈ keys → 0 ≤ k < NUM_KEYS) →
  forOf keys (fun keyIndex => await (clearKey keyIndex)) this
  = forOf ((fun keyIndex => (transformKeyIndex keyIndex, 0, ICON_SIZE * 3)) <$> keys)
      (fun '(index, sourceOffset, sourceStride) =>
         await (fillImageRange index (solidColor 0 0 0) sourceOffset sourceStride))
      this.
Proof.
  revert this. induction keys as [|k keys IH]; intros this Hkeys; [done|].
  cbn [fmap list_fmap forOf]. unfold mbind, Exec_bind, await at 1 3.
  rewrite clearKey_eq, decide_True by (apply Hkeys; left).
  destruct (fillImageRange _ _ _ _ this) as [this' [u|e|e]]; try done.
  apply IH. intros j Hj. apply Hkeys. by right.
Qed.

(** X11: [clearAllKeys] is a run of numKeys fills of black pixels, for the
    keys [transformKeyIndex 0], [transformKeyIndex 1], ... in this order,
    each awaited before the next starts and the first failure ending the
    run; a fulfilled run has sent the reports of all these fills, in
    order; with no keys it is fulfilled without any call. *)
Theorem clearAllKeys_fills this :
  clearAllKeys this = fillSequence (solidColor 0 0 0) clearFills this
  ∧ Z.of_nat (length clearFills) = Z.max 0 NUM_KEYS
  ∧ (∀ u, (clearAllKeys this).2 = Fulfilled u →
       calls (device (clearAllKeys this).1)
       = calls (device this) ++ concat (fillReports (solidColor 0 0 0) <$> clearFills))
  ∧ (NUM_KEYS ≤ 0 → clearAllKeys this = (this, Fulfilled tt)).
Proof.
  assert (Hrun : clearAllKeys this = fillSequence (solidColor 0 0 0) clearFills this).
  { unfold clearAllKeys, fillSequence, async, forRange, clearFills.
    rewrite Z.sub_0_r, clearKeys_as_fills; [done|].
    intros k Hk. apply elem_of_seqZ in Hk. lia. }
  split; [exact Hrun|]. split.
  { unfold clearFills. rewrite length_fmap, length_seqZ. lia. }
  split.
  - intros u. rewrite Hrun. apply fillSequence_calls.
  - intros HN. rewrite Hrun. unfold clearFills. by rewrite seqZ_nil.
Qed.

(** X19: when the key and the arguments are valid but [transformKeyIndex]
    sends the key outside [0, numKeys), [fillImage], [fillColor] and
    [clearKey] do not throw: the promise is rejected with the key index
    error of the pipeline's own check, and no call is made on the device. *)
Theorem fill_rejects_stray_transform keyIndex r g b (imageBuffer : list Z) this :
  0 ≤ keyIndex < NUM_KEYS →
  ¬ 0 ≤ transformKeyIndex keyIndex < NUM_KEYS →
  (byteLength imageBuffer = ICON_BYTES →
     fillImage keyIndex imageBuffer this = (this, Rejected InvalidKeyIndex))
  ∧ (0 ≤ r ≤ 255 ∧ 0 ≤ g ≤ 255 ∧ 0 ≤ b ≤ 255 →
       fillColor keyIndex r g b this = (this, Rejected InvalidKeyIndex))
  ∧ clearKey keyIndex this = (this, Rejected InvalidKeyIndex).
Proof.
  intros Hkey Hstray.
  assert (Hrange : ∀ buffer offset stride,
    fillImageRange (transformKeyIndex keyIndex) buffer offset stride this
    = (this, Rejected InvalidKeyIndex)).
  { intros. unfold fillImageRange, async, mbind, Exec_bind, call.
    by rewrite checkValidKeyIndex_eq, decide_False by done. }
  rewrite fillImage_eq, fillColor_eq, clearKey_eq.
  repeat split; intros; repeat case_decide; try done; tauto.
Qed.
End Fills.

Lemma fillColor_as_image_witness :
  @fillColor sampleDeck sampleTransport 1 9 8 7 sampleState
  = @fillImage sampleDeck sampleTransport 1
      [9; 8; 7; 9; 8; 7; 9; 8; 7; 9; 8; 7] sampleState.
Proof.
  apply (@fillColor_as_image sampleDeck sampleTransport 1 9 8 7 sampleState); lia.
Defined.

Lemma clearAllKeys_fills_witness :
  calls (device (@clearAllKeys sampleDeck sampleTransport sampleState).1)
  = calls (device sampleState)
    ++ concat (@fillReports sampleDeck (@solidColor sampleDeck 0 0 0)
                 <$> @clearFills sampleDeck).
Proof.
  destruct (@clearAllKeys_fills sampleDeck sampleTransport sampleState)
    as (_ & _ & Hsent & _).
  apply (Hsent tt). reflexivity.
Defined.

(** A model whose transform moves every key one place up: the last key
    leaves the panel. *)
Lemma fill_rejects_stray_transform_witness :
  let shifted := {|
    deviceProperties := @deviceProperties sampleDeck;
    transformKeyIndex := fun keyIndex => keyIndex + 1;
    convertFillImage := copyRows 2;
    getFillImagePacketLength := 22 |} in
  @clearKey shifted sampleTransport 5 sampleState
  = (sampleState, Rejected InvalidKeyIndex).
Proof.
  intros shifted.
  apply (@fill_rejects_stray_transform shifted sampleTransport 5 0 0 0 [] sampleState).
  - by_evaluation.
  - vm_compute. intros [_ H]. discriminate H.
Defined.

Section Panel.
Context {model : StreamDeckModel} {transport : Transport}.

Lemma panelKeyIndex_range row column :
  0 ≤ row < KEY_ROWS → 0 ≤ column < KEY_COLUMNS →
  0 ≤ panelKeyIndex row column < NUM_KEYS.
Proof.
  intros Hrow Hcol. unfold panelKeyIndex, panelKeyIndexFor, NUM_KEYS.
  destruct (Props.KEY_DIRECTION deviceProperties); nia.
Qed.

Lemma forOf_failure {A} (xs : list A) (body : A → Exec unit) (ok : Error → Prop) :
  (∀ x this e, x ∈ xs → (body x this).2 = Throw e → ok e) →
  ∀ this e, (forOf xs body this).2 = Throw e → ok e.
Proof.
  induction xs as [|x xs IH]; intros Hbody this e; [done|].
  cbn [forOf]. unfold mbind, Exec_bind.
  destruct (body x this) as [this' [u|e']] eqn:Hx.
  - apply IH. intros y that e' Hy. apply Hbody. by right.
  - intros [= <-]. apply (Hbody x this e'); [by left|by rewrite Hx].
Qed.

(** X12: [fillPanel] never throws synchronously; a buffer whose length is
    not iconBytes * numKeys rejects the promise with the length error
    before any call on the device; and that is the only validation error
    it can raise, because the keys it computes are always in
    [0, numKeys). *)
Theorem fillPanel_validation (imageBuffer : list Z) this :
  (∀ e, (fillPanel imageBuffer this).2 ≠ Thrown e)
  ∧ (byteLength imageBuffer ≠ ICON_BYTES * NUM_KEYS →
       fillPanel imageBuffer this = (this, Rejected InvalidImageLength))
  ∧ (raisesValidationError (fillPanel imageBuffer this).2
       ↔ byteLength imageBuffer ≠ ICON_BYTES * NUM_KEYS).
Proof.
  assert (Hbad : byteLength imageBuffer ≠ ICON_BYTES * NUM_KEYS →
            fillPanel imageBuffer this = (this, Rejected InvalidImageLength)).
  { intros Hlen. unfold fillPanel, async, mbind, Exec_bind, call.
    by rewrite bool_decide_eq_true_2. }
  split; [|split; [exact Hbad|split]].
  - intros e. unfold fillPanel, async.
    match goal with |- context [let (_, _) := ?m in _] =>
      by destruct m as [this' [u|e']] end.
  - intros (e & He & Hv).
    destruct (decide (byteLength imageBuffer = ICON_BYTES * NUM_KEYS)) as [Hlen|]; [|done].
    exfalso. revert He. unfold fillPanel, async, mbind at 1, Exec_bind at 1, call.
    rewrite bool_decide_eq_false_2 by (by intros ?).
    destruct (forRange 0 KEY_ROWS _ this) as [this' [u|e']] eqn:Hrun; [done|].
    cbn. intros [= <-].
    assert (Hok : isValidationError e' = false); [|congruence].
    revert Hrun. unfold forRange. intros Hrun.
    eapply (forOf_failure _ _ (fun e => isValidationError e = false));
      [|by rewrite Hrun].
    intros row that e Hrow. apply elem_of_seqZ in Hrow.
    apply (forOf_failure _ _ (fun e => isValidationError e = false)).
    intros column that' e0 Hcol. apply elem_of_seqZ in Hcol.
    cbv zeta. unfold await.
    pose proof (fillImageRange_not_validation (panelKeyIndex row column) imageBuffer
      (ICON_SIZE * 3 * KEY_COLUMNS * row * ICON_SIZE + column * ICON_SIZE * 3)
      (ICON_SIZE * 3 * KEY_COLUMNS) that'
      ltac:(apply panelKeyIndex_range; lia)) as Hnv.
    destruct (fillImageRange _ _ _ _ that') as [that'' [v|e1|e1]]; [done| |].
    + intros [= <-]. destruct (isValidationError e1) eqn:Hv1; [|done].
      exfalso. apply Hnv. by exists e1.
    + intros [= <-]. destruct (isValidationError e1) eqn:Hv1; [|done].
      exfalso. apply Hnv. by exists e1.
  - intros Hlen. rewrite Hbad by done. by exists InvalidImageLength.
Qed.

Lemma panel_cell_of_key k :
  0 < KEY_COLUMNS → 0 ≤ k < NUM_KEYS →
  0 ≤ k / KEY_COLUMNS < KEY_ROWS ∧ 0 ≤ k mod KEY_COLUMNS < KEY_COLUMNS.
Proof.
  intros Hc Hk. split; [|by apply Z.mod_pos_bound].
  split; [apply Z.div_pos; lia|].
  apply Z.div_lt_upper_bound; [lia|]. unfold NUM_KEYS in Hk. lia.
Qed.

(** The key of the cell that row-major position [k] names. *)
Lemma panelKey_involution k :
  0 < KEY_COLUMNS → 0 ≤ k < NUM_KEYS →
  let key := panelKeyIndex (k / KEY_COLUMNS) (k mod KEY_COLUMNS) in
  0 ≤ key < NUM_KEYS
  ∧ panelKeyIndex (key / KEY_COLUMNS) (key mod KEY_COLUMNS) = k.
Proof.
  intros Hc Hk key. destruct (panel_cell_of_key k Hc Hk) as [Hrow Hcol].
  split; [by apply panelKeyIndex_range|].
  assert (Hnz : KEY_COLUMNS ≠ 0) by lia.
  pose proof (Z.div_mod k KEY_COLUMNS Hnz) as Hdm.
  subst key. unfold panelKeyIndex, panelKeyIndexFor.
  destruct (Props.KEY_DIRECTION deviceProperties).
  - replace (k / KEY_COLUMNS * KEY_COLUMNS + k mod KEY_COLUMNS) with k by lia. lia.
  - set (q := k / KEY_COLUMNS) in *. set (r := k mod KEY_COLUMNS) in *.
    replace ((q * KEY_COLUMNS + (KEY_COLUMNS - r - 1)) / KEY_COLUMNS) with q
      by (apply (Z.div_unique _ _ _ (KEY_COLUMNS - r - 1)); lia).
    replace ((q * KEY_COLUMNS + (KEY_COLUMNS - r - 1)) mod KEY_COLUMNS)
      with (KEY_COLUMNS - r - 1)
      by (apply (Z.mod_unique _ _ q); lia).
    lia.
Qed.

(** X13: on a panel with at least one column, the keys [fillPanel]
    addresses are the keys 0 .. numKeys-1, each exactly once: the list of
    its fills' keys is a permutation of [0, numKeys). *)
Theorem fillPanel_each_key_once :
  0 < KEY_COLUMNS → 0 ≤ KEY_ROWS →
  panelKeys ≡ₚ seqZ 0 NUM_KEYS ∧ NoDup panelKeys.
Proof.
  intros Hc Hr.
  assert (Hkeys : panelKeys
    = (fun k => panelKeyIndex (k / KEY_COLUMNS) (k mod KEY_COLUMNS))
        <$> seqZ 0 NUM_KEYS).
  { unfold panelKeys, panelFills. by rewrite <- list_fmap_compose. }
  assert (Hnodup : NoDup panelKeys).
  { rewrite Hkeys. apply NoDup_fmap_2_strong; [|apply NoDup_seqZ].
    intros x y Hx Hy Heq. apply elem_of_seqZ in Hx, Hy.
    destruct (panelKey_involution x Hc ltac:(lia)) as [_ <-].
    destruct (panelKey_involution y Hc ltac:(lia)) as [_ <-].
    cbv zeta. by rewrite Heq. }
  split; [|exact Hnodup].
  apply NoDup_Permutation; [exact Hnodup|apply NoDup_seqZ|].
  intros key. rewrite Hkeys, list_elem_of_fmap, elem_of_seqZ. split.
  - intros (k & -> & Hk). apply elem_of_seqZ in Hk.
    destruct (panelKey_involution k Hc ltac:(lia)) as [Hrange _]. cbv zeta in Hrange. lia.
  - intros Hkey. destruct (panelKey_involution key Hc ltac:(lia)) as [Hrange Hback].
    cbv zeta in *.
    exists (panelKeyIndex (key / KEY_COLUMNS) (key mod KEY_COLUMNS)).
    split; [done|]. apply elem_of_seqZ. lia.
Qed.
End Panel.

Lemma fillPanel_each_key_once_witness :
  @panelKeys mirroredDeck ≡ₚ seqZ 0 6
  ∧ @panelKeys mirroredDeck = [2; 1; 0; 5; 4; 3].
Proof.
  destruct (@fillPanel_each_key_once mirroredDeck) as [Hperm _]; [by_evaluation..|].
  split; [exact Hperm|reflexivity].
Defined.

Lemma fillPanel_validation_witness :
  @fillPanel sampleDeck sampleTransport [1; 2; 3] sampleState
  = (sampleState, Rejected InvalidImageLength).
Proof.
  destruct (@fillPanel_validation sampleDeck sampleTransport [1; 2; 3] sampleState)
    as (_ & Hbad & _).
  apply Hbad. by_evaluation.
Defined.

(** A number written with a last digit below [m] has one reading only. *)
Lemma digits_unique m a r a' r' :
  0 ≤ r < m → 0 ≤ r' < m → a * m + r = a' * m + r' → a = a' ∧ r = r'.
Proof.
  intros Hr Hr' Heq.
  assert (a = a'); [|split; [done|subst; lia]].
  rewrite (Z.div_unique (a * m + r) m a r) by lia.
  rewrite Heq. symmetry. apply (Z.div_unique _ _ _ r'); lia.
Qed.

Section PanelWindows.
Context {model : StreamDeckModel}.

Lemma panelWindowByte_digits row column y x :
  panelWindowByte row column y x
  = ((row * ICON_SIZE + y) * KEY_COLUMNS + column) * (ICON_SIZE * 3) + x.
Proof. unfold panelWindowByte, panelFill. lia. Qed.

(** X14: on a panel with positive dimensions the icon-sized windows that
    [fillPanel] hands to the encoder (rows of iconSize * 3 bytes, one
    stride apart, from the source offset of the cell) tile the panel
    buffer: every byte of every window lies inside the buffer, every byte
    of the buffer lies in a window, and no byte lies in two. *)
Theorem fillPanel_windows_tile :
  0 < KEY_COLUMNS → 0 < KEY_ROWS → 0 < ICON_SIZE →
  (∀ row column y x, inPanelWindow row column y x →
     0 ≤ panelWindowByte row column y x < ICON_BYTES * NUM_KEYS)
  ∧ (∀ byte, 0 ≤ byte < ICON_BYTES * NUM_KEYS →
       ∃ row column y x,
         inPanelWindow row column y x ∧ panelWindowByte row column y x = byte)
  ∧ (∀ row column y x row' column' y' x',
       inPanelWindow row column y x → inPanelWindow row' column' y' x' →
       panelWindowByte row column y x = panelWindowByte row' column' y' x' →
       row = row' ∧ column = column' ∧ y = y' ∧ x = x').
Proof.
  intros Hc Hr Hs. set (S := ICON_SIZE) in *. set (C := KEY_COLUMNS) in *.
  set (R := KEY_ROWS) in *.
  assert (Htotal : ICON_BYTES * NUM_KEYS = ((R * S) * C) * (S * 3))
    by (unfold ICON_BYTES, NUM_KEYS; fold S C R; lia).
  split; [|split].
  - intros row column y x (Hrow & Hcol & Hy & Hx).
    rewrite panelWindowByte_digits, Htotal. fold S C.
    assert (row * S + y ≤ R * S - 1) by nia.
    assert (0 ≤ row * S + y) by nia.
    assert ((row * S + y) * C + column ≤ R * S * C - 1) by nia.
    assert (0 ≤ (row * S + y) * C + column) by nia.
    nia.
  - intros byte Hbyte. rewrite Htotal in Hbyte.
    set (x := byte mod (S * 3)). set (t := byte / (S * 3)).
    set (column := t mod C). set (u := t / C).
    set (y := u mod S). set (row := u / S).
    assert (Hx : 0 ≤ x < S * 3) by (apply Z.mod_pos_bound; lia).
    assert (Hcol : 0 ≤ column < C) by (apply Z.mod_pos_bound; lia).
    assert (Hy : 0 ≤ y < S) by (apply Z.mod_pos_bound; lia).
    assert (Ht : 0 ≤ t < R * S * C).
    { split; [apply Z.div_pos; lia|]. apply Z.div_lt_upper_bound; lia. }
    assert (Hu : 0 ≤ u < R * S).
    { split; [apply Z.div_pos; lia|]. apply Z.div_lt_upper_bound; lia. }
    assert (Hrow : 0 ≤ row < R).
    { split; [apply Z.div_pos; lia|]. apply Z.div_lt_upper_bound; lia. }
    exists row, column, y, x. split; [done|].
    rewrite panelWindowByte_digits. fold S C.
    assert (Hb : byte = t * (S * 3) + x)
      by (pose proof (Z.div_mod byte (S * 3) ltac:(lia)); subst t x; lia).
    assert (Ht' : t = u * C + column)
      by (pose proof (Z.div_mod t C ltac:(lia)); subst u column; lia).
    assert (Hu' : u = row * S + y)
      by (pose proof (Z.div_mod u S ltac:(lia)); subst row y; lia).
    rewrite Hb, Ht', Hu'. done.
  - intros row column y x row' column' y' x'
      (Hrow & Hcol & Hy & Hx) (Hrow' & Hcol' & Hy' & Hx').
    rewrite !panelWindowByte_digits. fold S C. intros Heq.
    apply digits_unique in Heq as [Heq ->]; [|done..].
    apply digits_unique in Heq as [Heq ->]; [|done..].
    apply digits_unique in Heq as [-> ->]; done.
Qed.
End PanelWindows.

Lemma fillPanel_windows_tile_witness :
  0 ≤ @panelWindowByte sampleDeck 1 2 1 5 < 72
  ∧ @panelWindowByte sampleDeck 1 2 1 5 = 71.
Proof.
  destruct (@fillPanel_windows_tile sampleDeck) as (Hin & _ & _); [by_evaluation..|].
  split; [|reflexivity].
  apply (Hin 1 2 1 5). by_evaluation.
Defined.

(** * Further properties of the button state tracker *)

Section Tracker.
Context {model : StreamDeckModel}.

(** The listener over slots that go to different keys: the events are
    those of the slots that differ from the recorded state, in slot
    order; afterwards the key of every slot records the report and the
    other keys are as before. *)
Lemma onInput_run data this (slots : list Z) :
  NoDup (transformKeyIndex <$> slots) →
  let acc := foldl (onInputSlot data) (this, []) slots in
  acc.2 = slotEvent data <$> filter (slotChanged data this) slots
  ∧ (∀ i, i ∈ slots →
       arrayGet (keyState acc.1) (transformKeyIndex i) = Some (keyPressedAt data i))
  ∧ (∀ k, k ∉ transformKeyIndex <$> slots →
       arrayGet (keyState acc.1) k = arrayGet (keyState this) k).
Proof.
  induction slots as [|i slots IH] using rev_ind; intros Hnodup.
  - cbn. split; [done|]. split; [by intros i ?%elem_of_nil|done].
  - rewrite fmap_app in Hnodup. apply NoDup_app in Hnodup as (Hslots & Hfresh & _).
    specialize (IH Hslots). cbv zeta in *. rewrite foldl_app. cbn [foldl].
    destruct (foldl (onInputSlot data) (this, []) slots) as [this' events].
    cbn [fst snd] in IH. destruct IH as (Hevents & Hset & Hkeep).
    assert (Hi : transformKeyIndex i ∉ transformKeyIndex <$> slots).
    { intros Hin. apply (Hfresh _ Hin). cbn. left. }
    rewrite filter_app, fmap_app, filter_cons, filter_nil.
    unfold onInputSlot. rewrite (Hkeep _ Hi).
    case_bool_decide as Hchanged; cbn [fst snd keyState].
    + rewrite decide_True by (unfold slotChanged; congruence).
      split; [by rewrite Hevents|]. split.
      * intros j [Hj| ->%list_elem_of_singleton]%elem_of_app.
        -- rewrite arrayGet_arraySet_ne; [by apply Hset|].
           intros Heq. apply Hi. rewrite Heq. by apply list_elem_of_fmap_2.
        -- apply arrayGet_arraySet_eq.
      * intros k Hk. rewrite fmap_app in Hk.
        rewrite arrayGet_arraySet_ne.
        -- apply Hkeep. intros Hin. apply Hk, elem_of_app. by left.
        -- intros <-. apply Hk, elem_of_app. right. cbn. left.
    + rewrite decide_False by (unfold slotChanged; congruence).
      split; [by rewrite Hevents, app_nil_r|]. split.
      * intros j [Hj| ->%list_elem_of_singleton]%elem_of_app; [by apply Hset|].
        by rewrite (Hkeep _ Hi).
      * intros k Hk. rewrite fmap_app in Hk. apply Hkeep.
        intros Hin. apply Hk, elem_of_app. by left.
Qed.

Lemma transformInjective_NoDup :
  transformInjective → NoDup (transformKeyIndex <$> seqZ 0 NUM_KEYS).
Proof.
  intros Hinj. apply NoDup_fmap_2_strong; [|apply NoDup_seqZ].
  intros i j Hi%elem_of_seqZ Hj%elem_of_seqZ. apply Hinj; lia.
Qed.

(** X15: with a key transform that sends different native slots to
    different keys, one report yields, in slot order, exactly one event
    for each native slot whose byte differs from the recorded state of
    its key (['down'] if the byte is non-zero, ['up'] if not) and none
    for the others; afterwards the recorded state of the key of every
    slot is what the report says, and the record of every index that is
    the key of no slot is as it was. *)
Theorem onInput_changes (data : list Z) (this : StreamDeck) :
  transformInjective →
  (onInput data this).2
    = slotEvent data <$> filter (slotChanged data this) (seqZ 0 NUM_KEYS)
  ∧ (∀ i, 0 ≤ i < NUM_KEYS →
       arrayGet (keyState (onInput data this).1) (transformKeyIndex i)
       = Some (keyPressedAt data i))
  ∧ (∀ k, (∀ i, 0 ≤ i < NUM_KEYS → transformKeyIndex i ≠ k) →
       arrayGet (keyState (onInput data this).1) k = arrayGet (keyState this) k).
Proof.
  intros Hinj.
  destruct (onInput_run data this _ (transformInjective_NoDup Hinj))
    as (Hevents & Hset & Hkeep).
  split; [exact Hevents|]. split.
  - intros i Hi. apply Hset, elem_of_seqZ. lia.
  - intros k Hk. apply Hkeep.
    intros (i & -> & Hi%elem_of_seqZ)%list_elem_of_fmap. apply (Hk i); [lia|done].
Qed.

(** X16: with a key transform that sends different native slots to
    different keys, a report that is delivered a second time yields no
    event and changes nothing, whatever the state was before the first
    delivery. *)
Theorem onInput_repeated (data : list Z) (this : StreamDeck) :
  transformInjective →
  onInput data (onInput data this).1 = ((onInput data this).1, []).
Proof.
  intros Hinj.
  destruct (onInput_run data this _ (transformInjective_NoDup Hinj))
    as (_ & Hset & _).
  unfold onInput at 1. apply onInput_unchanged. exact Hset.
Qed.

Lemma onInputSlot_ext data data' acc i :
  keyPressedAt data i = keyPressedAt data' i →
  onInputSlot data acc i = onInputSlot data' acc i.
Proof. intros Hsame. unfold onInputSlot. by rewrite Hsame. Qed.

Lemma onInput_ext data data' this :
  (∀ i, 0 ≤ i < NUM_KEYS → keyPressedAt data i = keyPressedAt data' i) →
  onInput data this = onInput data' this.
Proof.
  intros Hsame. unfold onInput.
  assert (Hslots : ∀ i, i ∈ seqZ 0 NUM_KEYS →
            keyPressedAt data i = keyPressedAt data' i).
  { intros i Hi%elem_of_seqZ. apply Hsame. lia. }
  revert Hslots. generalize (seqZ 0 NUM_KEYS). generalize (this, @nil KeyEvent).
  intros acc slots. revert acc.
  induction slots as [|i slots IH]; intros acc Hslots; [done|].
  cbn [foldl]. rewrite (onInputSlot_ext data data') by (apply Hslots; left).
  apply IH. intros j Hj. apply Hslots. by right.
Qed.

(** X17: the listener reads a report only through the truth value of its
    first numKeys bytes: two reports that agree there (zero or non-zero,
    a missing byte counting as zero) give the same events and the same
    state.  So the bytes from index numKeys on are ignored, a report that
    is too short is read as if it were padded with zeros, and every
    non-zero byte reads as 1. *)
Theorem onInput_reads_slots (data data' : list Z) (this : StreamDeck) :
  ((∀ i, 0 ≤ i < NUM_KEYS → keyPressedAt data i = keyPressedAt data' i) →
   onInput data this = onInput data' this)
  ∧ onInput (take (Z.to_nat NUM_KEYS) data) this = onInput data this
  ∧ (∀ n, onInput (data ++ replicate n 0) this = onInput data this)
  ∧ onInput ((fun v => if v =? 0 then 0 else 1) <$> data) this = onInput data this.
Proof.
  split; [apply onInput_ext|]. split; [|split].
  - apply onInput_ext. intros i Hi. unfold keyPressedAt, byteAt.
    replace (i <? 0) with false by (symmetry; lia).
    by rewrite lookup_take_lt by lia.
  - intros n. apply onInput_ext. intros i Hi. unfold keyPressedAt, byteAt.
    replace (i <? 0) with false by (symmetry; lia).
    destruct (decide (Z.to_nat i < length data)%nat) as [Hlt|Hge].
    + by rewrite lookup_app_l.
    + rewrite lookup_app_r, (lookup_ge_None_2 data) by lia.
      destruct (replicate n 0 !! _) as [v|] eqn:Hv; [|done].
      by apply lookup_replicate in Hv as [-> _].
  - apply onInput_ext. intros i Hi. unfold keyPressedAt, byteAt.
    replace (i <? 0) with false by (symmetry; lia).
    rewrite list_lookup_fmap. destruct (data !! _) as [v|]; [|done].
    cbn. by destruct (v =? 0).
Qed.
End Tracker.

Lemma onInput_changes_witness :
  (@onInput mirroredDeck [0; 1; 0; 0; 1; 1] sampleState).2
  = [Down 1; Down 4; Down 5].
Proof.
  assert (Hinj : @transformInjective mirroredDeck) by (intros i j _ _ Hij; exact Hij).
  destruct (@onInput_changes mirroredDeck [0; 1; 0; 0; 1; 1] sampleState Hinj)
    as (Hevents & _).
  rewrite Hevents. reflexivity.
Defined.

Lemma onInput_repeated_witness :
  @onInput sampleDeck [0; 1; 0; 0; 1; 1]
    (@onInput sampleDeck [0; 1; 0; 0; 1; 1] sampleState).1
  = ((@onInput sampleDeck [0; 1; 0; 0; 1; 1] sampleState).1, []).
Proof.
  apply (@onInput_repeated sampleDeck).
  intros i j _ _ Hij. exact Hij.
Defined.

Lemma onInput_reads_slots_witness :
  @onInput sampleDeck [0; 7; 0; 0; 0; 0; 9; 9] sampleState
  = @onInput sampleDeck [0; 1] sampleState.
Proof.
  apply (proj1 (@onInput_reads_slots sampleDeck [0; 7; 0; 0; 0; 0; 9; 9] [0; 1]
                  sampleState)).
  intros i Hi. change (@NUM_KEYS sampleDeck) with 6 in Hi.
  assert (Hslot : i = 0 ∨ i = 1 ∨ i = 2 ∨ i = 3 ∨ i = 4 ∨ i = 5) by lia.
  destruct Hslot as [->|[->|[->|[->|[->| ->]]]]]; reflexivity.
Defined.

(** * What the operations do to the device, and what they do not read *)

Lemma appendsOnly_ret {A} allowed (a : A) : appendsOnly allowed (mret a : Exec A).
Proof. intros this. split; [done|]. exists []. by rewrite app_nil_r. Qed.

Lemma appendsOnly_call {A} allowed (c : Completion A) : appendsOnly allowed (call c).
Proof. intros this. split; [done|]. exists []. by rewrite app_nil_r. Qed.

Lemma appendsOnly_bind {A B} allowed (m : Exec A) (f : A → Exec B) :
  appendsOnly allowed m → (∀ a, appendsOnly allowed (f a)) →
  appendsOnly allowed (m ≫= f).
Proof.
  intros Hm Hf this. unfold mbind, Exec_bind.
  destruct (Hm this) as (Hoff & new & Hcalls & Hall).
  destruct (m this) as [this' [a|e]]; cbn [fst] in *.
  - destruct (Hf a this') as (Hoff' & new' & Hcalls' & Hall').
    split; [congruence|]. exists (new ++ new').
    rewrite Hcalls', Hcalls, app_assoc. split; [done|]. by apply Forall_app.
  - split; [done|]. by exists new.
Qed.

Lemma appendsOnly_await {A} allowed (p : Method A) :
  appendsOnly allowed p → appendsOnly allowed (await p).
Proof.
  intros Hp this. unfold await. specialize (Hp this).
  by destruct (p this) as [this' [a|e|e]].
Qed.

Lemma appendsOnly_async {A} allowed (body : Exec A) :
  appendsOnly allowed body → appendsOnly allowed (async body).
Proof.
  intros Hb this. unfold async. specialize (Hb this).
  by destruct (body this) as [this' [a|e]].
Qed.

Lemma appendsOnly_thenReturn {A B} allowed (body : Exec B) (p : B → Method A) :
  appendsOnly allowed body → (∀ b, appendsOnly allowed (p b)) →
  appendsOnly allowed (thenReturn body p).
Proof.
  intros Hb Hp this. unfold thenReturn.
  destruct (Hb this) as (Hoff & new & Hcalls & Hall).
  destruct (body this) as [this' [b|e]]; cbn [fst] in *.
  - destruct (Hp b this') as (Hoff' & new' & Hcalls' & Hall').
    split; [congruence|]. exists (new ++ new').
    rewrite Hcalls', Hcalls, app_assoc. split; [done|]. by apply Forall_app.
  - split; [done|]. by exists new.
Qed.

Lemma appendsOnly_promiseThen {A B} allowed (p : Method A) (f : A → B) :
  appendsOnly allowed p → appendsOnly allowed (promiseThen p f).
Proof.
  intros Hp this. unfold promiseThen. specialize (Hp this).
  by destruct (p this) as [this' [a|e|e]].
Qed.

Lemma appendsOnly_forOf {A} allowed (xs : list A) (body : A → Exec unit) :
  (∀ x, x ∈ xs → appendsOnly allowed (body x)) →
  appendsOnly allowed (forOf xs body).
Proof.
  induction xs as [|x xs IH]; intros Hb; [apply appendsOnly_ret|].
  cbn [forOf]. apply appendsOnly_bind; [apply Hb; left|].
  intros _. apply IH. intros y Hy. apply Hb. by right.
Qed.

Lemma deviceOnly_ret {A} (a : A) : deviceOnly (mret a : Exec A).
Proof. by intros this keys. Qed.

Lemma deviceOnly_call {A} (c : Completion A) : deviceOnly (call c).
Proof. by intros this keys. Qed.

Lemma deviceOnly_bind {A B} (m : Exec A) (f : A → Exec B) :
  deviceOnly m → (∀ a, deviceOnly (f a)) → deviceOnly (m ≫= f).
Proof.
  intros Hm Hf this keys. unfold mbind, Exec_bind. rewrite Hm.
  destruct (m this) as [this' [a|e]]; cbn [fst snd]; [|done]. by rewrite Hf.
Qed.

Lemma deviceOnly_await {A} (p : Method A) : deviceOnly p → deviceOnly (await p).
Proof.
  intros Hp this keys. unfold await. rewrite Hp.
  by destruct (p this) as [this' [a|e|e]].
Qed.

Lemma deviceOnly_async {A} (body : Exec A) : deviceOnly body → deviceOnly (async body).
Proof.
  intros Hb this keys. unfold async. rewrite Hb.
  by destruct (body this) as [this' [a|e]].
Qed.

Lemma deviceOnly_thenReturn {A B} (body : Exec B) (p : B → Method A) :
  deviceOnly body → (∀ b, deviceOnly (p b)) → deviceOnly (thenReturn body p).
Proof.
  intros Hb Hp this keys. unfold thenReturn. rewrite Hb.
  destruct (body this) as [this' [b|e]]; cbn [fst snd]; [|done]. by rewrite Hp.
Qed.

Lemma deviceOnly_promiseThen {A B} (p : Method A) (f : A → B) :
  deviceOnly p → deviceOnly (promiseThen p f).
Proof.
  intros Hp this keys. unfold promiseThen. rewrite Hp.
  by destruct (p this) as [this' [a|e|e]].
Qed.

Lemma deviceOnly_forOf {A} (xs : list A) (body : A → Exec unit) :
  (∀ x, deviceOnly (body x)) → deviceOnly (forOf xs body).
Proof.
  intros Hb. induction xs as [|x xs IH]; [apply deviceOnly_ret|].
  cbn [forOf]. by apply deviceOnly_bind.
Qed.

Lemma generateFillImageWrites_shape MAX keyIndex byteBuffer packets :
  generateFillImageWrites MAX keyIndex byteBuffer = Normal packets →
  Forall (fun packet => byteLength packet = MAX
                        ∧ byteAt packet 0 = Some 2 ∧ byteAt packet 1 = Some 1)
         packets.
Proof.
  intros Hgen. eapply fillImageLoop_shape; [|exact Hgen|constructor].
  intros p r packet rest Hturn. by eapply fillImagePacket_shape.
Qed.

Section Operations.
Context {model : StreamDeckModel} {transport : Transport}.

Lemma appendsOnly_deviceCall {A} (allowed : Call → Prop) (c : Call) (value : A) :
  allowed c → appendsOnly allowed (deviceCall c value).
Proof.
  intros Hc this. split; [done|]. exists [c]. split; [done|].
  by apply Forall_singleton.
Qed.

Lemma appendsOnly_getFeatureReport reportId :
  appendsOnly isGetFeatureReport (device_getFeatureReport reportId 17).
Proof.
  intros this. split; [done|]. exists [GetFeatureReport reportId 17].
  split; [done|]. apply Forall_singleton. by eexists.
Qed.

Lemma deviceOnly_deviceCall {A} (c : Call) (value : A) : deviceOnly (deviceCall c value).
Proof. by intros this keys. Qed.

Lemma deviceOnly_getFeatureReport reportId reportLength :
  deviceOnly (device_getFeatureReport reportId reportLength).
Proof. by intros this keys. Qed.

(** One step of a proof about the calls of a computation, by its shape. *)
Ltac calls_step :=
  match goal with
  | |- ∀ _, _ => intro
  | |- appendsOnly _ (let '(_, _) := ?x in _) => destruct x
  | |- appendsOnly _ (async _) => apply appendsOnly_async
  | |- appendsOnly _ (thenReturn _ _) => apply appendsOnly_thenReturn
  | |- appendsOnly _ (promiseThen _ _) => apply appendsOnly_promiseThen
  | |- appendsOnly _ (await _) => apply appendsOnly_await
  | |- appendsOnly _ (_ ≫= _) => apply appendsOnly_bind
  | |- appendsOnly _ (forRange _ _ _) => apply appendsOnly_forOf
  | |- appendsOnly _ (forOf _ _) => apply appendsOnly_forOf
  | |- appendsOnly _ (mret _) => apply appendsOnly_ret
  | |- appendsOnly _ (call _) => apply appendsOnly_call
  | |- appendsOnly _ (awaitEncoded _) => apply appendsOnly_call
  | |- appendsOnly _ (device_getFeatureReport _ _) =>
      apply appendsOnly_getFeatureReport
  | |- appendsOnly _ (deviceCall _ _) => apply appendsOnly_deviceCall
  end.

Ltac independence_step :=
  match goal with
  | |- ∀ _, _ => intro
  | |- deviceOnly (let '(_, _) := ?x in _) => destruct x
  | |- deviceOnly (async _) => apply deviceOnly_async
  | |- deviceOnly (thenReturn _ _) => apply deviceOnly_thenReturn
  | |- deviceOnly (promiseThen _ _) => apply deviceOnly_promiseThen
  | |- deviceOnly (await _) => apply deviceOnly_await
  | |- deviceOnly (_ ≫= _) => apply deviceOnly_bind
  | |- deviceOnly (forRange _ _ _) => apply deviceOnly_forOf
  | |- deviceOnly (forOf _ _) => apply deviceOnly_forOf
  | |- deviceOnly (mret _) => apply deviceOnly_ret
  | |- deviceOnly (call _) => apply deviceOnly_call
  | |- deviceOnly (awaitEncoded _) => apply deviceOnly_call
  | |- deviceOnly (deviceCall _ _) => apply deviceOnly_deviceCall
  | |- deviceOnly (device_getFeatureReport _ _) =>
      apply deviceOnly_getFeatureReport
  end.

Lemma appendsOnly_fillImageRange keyIndex (imageBuffer : list Z)
    sourceOffset sourceStride :
  appendsOnly isImageReport
    (fillImageRange keyIndex imageBuffer sourceOffset sourceStride).
Proof.
  assert (Hnone : ∀ this e,
    dataKeyOffset (device (this, @Rejected unit e).1) = dataKeyOffset (device this)
    ∧ ∃ new, calls (device (this, @Rejected unit e).1) = calls (device this) ++ new
             ∧ Forall isImageReport new).
  { intros this e. split; [done|]. exists []. by rewrite app_nil_r. }
  intros this. unfold fillImageRange, async, mbind, Exec_bind, awaitEncoded, call.
  destruct (checkValidKeyIndex keyIndex); [|apply Hnone].
  destruct (convertFillImage _ _ _) as [byteBuffer|]; cbn [from_option]; [|apply Hnone].
  destruct (generateFillImageWrites _ _ _) as [packets|e] eqn:Hgen; [|apply Hnone].
  pose proof (generateFillImageWrites_shape _ _ _ _ Hgen) as Hshape.
  rewrite Forall_forall in Hshape.
  assert (Hsend : appendsOnly isImageReport
            (forOf packets (fun packet => await (device_sendReport packet)))).
  { apply appendsOnly_forOf. intros packet Hin. apply appendsOnly_await.
    apply appendsOnly_deviceCall. exists packet. split; [done|]. by apply Hshape. }
  specialize (Hsend this).
  by destruct (forOf packets _ this) as [this' [u|e]].
Qed.

Lemma deviceOnly_fillImageRange keyIndex (imageBuffer : list Z)
    sourceOffset sourceStride :
  deviceOnly (fillImageRange keyIndex imageBuffer sourceOffset sourceStride).
Proof. unfold fillImageRange, device_sendReport. repeat independence_step. Qed.

(** X18: the calls an operation makes on the device.  Every operation
    leaves [dataKeyOffset] and the calls already made alone and only adds
    calls: the five fill operations add nothing but image reports
    (reports of the model's packet length that start 0x02 0x01);
    [setBrightness] and [resetToLogo] add nothing but 17-byte feature
    reports; the two identity queries nothing but requests for a 17-byte
    feature report; [close] nothing but the close call.  This holds
    whatever the arguments are and however the call settles. *)
Theorem operations_calls keyIndex r g b (imageBuffer : list Z) percentage
    (decode : list Z → string) :
  appendsOnly isImageReport (fillColor keyIndex r g b)
  ∧ appendsOnly isImageReport (fillImage keyIndex imageBuffer)
  ∧ appendsOnly isImageReport (fillPanel imageBuffer)
  ∧ appendsOnly isImageReport (clearKey keyIndex)
  ∧ appendsOnly isImageReport clearAllKeys
  ∧ appendsOnly isSendFeatureReport (setBrightness percentage)
  ∧ appendsOnly isSendFeatureReport resetToLogo
  ∧ appendsOnly isGetFeatureReport (getFirmwareVersion decode)
  ∧ appendsOnly isGetFeatureReport (getSerialNumber decode)
  ∧ appendsOnly (eq Close) close.
Proof.
  assert (Hcolor : ∀ k r g b, appendsOnly isImageReport (fillColor k r g b)).
  { intros. unfold fillColor. repeat calls_step. apply appendsOnly_fillImageRange. }
  assert (Hclear : ∀ k, appendsOnly isImageReport (clearKey k)).
  { intros. unfold clearKey. repeat calls_step. apply Hcolor. }
  repeat match goal with |- _ ∧ _ => split end.
  - apply Hcolor.
  - unfold fillImage. repeat calls_step. apply appendsOnly_fillImageRange.
  - unfold fillPanel. repeat calls_step. apply appendsOnly_fillImageRange.
  - apply Hclear.
  - unfold clearAllKeys. repeat calls_step. apply Hclear.
  - unfold setBrightness, device_sendFeatureReport. repeat calls_step.
    by eexists.
  - unfold resetToLogo, device_sendFeatureReport. repeat calls_step.
    by eexists.
  - unfold getFirmwareVersion. repeat calls_step.
  - unfold getSerialNumber. repeat calls_step.
  - unfold close, device_close. repeat calls_step. done.
Qed.

(** The listener reads and writes [keyState] only: on two objects with
    the same press state it emits the same events and leaves the same
    press state, and each keeps its device. *)
Lemma onInput_keys_only data (slots : list Z) :
  ∀ acc acc' : StreamDeck * list KeyEvent,
  keyState acc.1 = keyState acc'.1 → acc.2 = acc'.2 →
  keyState (foldl (onInputSlot data) acc slots).1
  = keyState (foldl (onInputSlot data) acc' slots).1
  ∧ (foldl (onInputSlot data) acc slots).2 = (foldl (onInputSlot data) acc' slots).2
  ∧ device (foldl (onInputSlot data) acc slots).1 = device acc.1.
Proof.
  induction slots as [|i slots IH]; intros [this events] [this' events'] Hkeys Hevents;
    [done|].
  cbn [foldl fst snd] in *. subst events'.
  assert (Hstep : keyState (onInputSlot data (this, events) i).1
                  = keyState (onInputSlot data (this', events) i).1
                  ∧ (onInputSlot data (this, events) i).2
                    = (onInputSlot data (this', events) i).2
                  ∧ device (onInputSlot data (this, events) i).1 = device this).
  { unfold onInputSlot. rewrite Hkeys. by case_bool_decide. }
  destruct Hstep as (Hk & He & Hd).
  destruct (IH _ _ Hk He) as (Hk' & He' & Hd').
  split; [done|]. split; [done|]. by rewrite Hd'.
Qed.

Lemma deviceOnly_commutes {A} (m : StreamDeck → StreamDeck * A) :
  deviceOnly m → commutesWithInput m.
Proof.
  intros Hm data [d ks].
  pose proof (Hm {| device := d; keyState := ks |} ks) as Hrun. cbn [device] in Hrun.
  destruct (m {| device := d; keyState := ks |}) as [this1 result] eqn:Hop.
  cbn [fst snd] in *. injection Hrun as ->.
  destruct (onInput_keys_only data (seqZ 0 NUM_KEYS)
              ({| device := device this1; keyState := ks |}, [])
              ({| device := d; keyState := ks |}, []) eq_refl eq_refl)
    as (Hkeys & Hevents & Hdev).
  destruct (onInput_keys_only data (seqZ 0 NUM_KEYS)
              ({| device := d; keyState := ks |}, [])
              ({| device := d; keyState := ks |}, []) eq_refl eq_refl)
    as (_ & _ & Hdev').
  fold (onInput data {| device := device this1; keyState := ks |}) in *.
  fold (onInput data {| device := d; keyState := ks |}) in *.
  destruct (onInput data {| device := d; keyState := ks |}) as [[dI K] events].
  destruct (onInput data {| device := device this1; keyState := ks |})
    as [[dI' K'] events'].
  cbn [fst snd device keyState] in *. subst dI dI' K' events'.
  pose proof (Hm {| device := d; keyState := ks |} K) as Hrun'.
  cbn [device] in Hrun'. rewrite Hrun', Hop. done.
Qed.

(** X20: no operation reads the press state, and the input listener
    reads nothing else.  So an operation and the delivery of an input
    report commute: whichever comes first, the object ends in the same
    state, the operation makes the same calls and settles the same way,
    and the listener emits the same events. *)
Theorem operations_commute_with_input keyIndex r g b (imageBuffer : list Z)
    percentage (decode : list Z → string) :
  commutesWithInput (fillColor keyIndex r g b)
  ∧ commutesWithInput (fillImage keyIndex imageBuffer)
  ∧ commutesWithInput (fillPanel imageBuffer)
  ∧ commutesWithInput (clearKey keyIndex)
  ∧ commutesWithInput clearAllKeys
  ∧ commutesWithInput (setBrightness percentage)
  ∧ commutesWithInput resetToLogo
  ∧ commutesWithInput (getFirmwareVersion decode)
  ∧ commutesWithInput (getSerialNumber decode)
  ∧ commutesWithInput close.
Proof.
  assert (Hcolor : ∀ k r g b, deviceOnly (fillColor k r g b)).
  { intros. unfold fillColor. repeat independence_step.
    apply deviceOnly_fillImageRange. }
  assert (Hclear : ∀ k, deviceOnly (clearKey k)).
  { intros. unfold clearKey. repeat independence_step. apply Hcolor. }
  repeat match goal with |- _ ∧ _ => split end; apply deviceOnly_commutes.
  - apply Hcolor.
  - unfold fillImage. repeat independence_step. apply deviceOnly_fillImageRange.
  - unfold fillPanel. repeat independence_step. apply deviceOnly_fillImageRange.
  - apply Hclear.
  - unfold clearAllKeys. repeat independence_step. apply Hclear.
  - unfold setBrightness, device_sendFeatureReport. repeat independence_step.
  - unfold resetToLogo, device_sendFeatureReport. repeat independence_step.
  - unfold getFirmwareVersion. repeat independence_step.
  - unfold getSerialNumber. repeat independence_step.
  - unfold close, device_close. repeat independence_step.
Qed.
End Operations.

(** * Fills that go through *)

Lemma logCalls_nil this : logCalls [] this = this.
Proof. destruct this as [[offset log] keys]. unfold logCalls. cbn. by rewrite app_nil_r. Qed.

Lemma logCalls_app new new' this :
  logCalls new' (logCalls new this) = logCalls (new ++ new') this.
Proof. unfold logCalls. cbn. by rewrite app_assoc. Qed.

Section Progress.
Context {model : StreamDeckModel} {transport : Transport}.

Lemma sendReports_reliable (packets : list (list Z)) :
  reliableTransport → ∀ this,
  forOf packets (fun packet => await (device_sendReport packet)) this
  = (logCalls (SendReport <$> packets) this, Normal tt).
Proof.
  intros Hrel. induction packets as [|packet packets IH]; intros this.
  - cbn. by rewrite logCalls_nil.
  - cbn [forOf]. unfold mbind, Exec_bind, await at 1, device_sendReport at 1, deviceCall.
    rewrite Hrel, IH. f_equal.
    change (logCall (SendReport packet) this) with (logCalls [SendReport packet] this).
    by rewrite logCalls_app.
Qed.

Lemma fillImageRange_fulfilled (imageBuffer : list Z) (fill : Z * Z * Z) this :
  reliableTransport →
  0 < MAX_PAYLOAD_SIZE getFillImagePacketLength →
  0 ≤ fill.1.1 < NUM_KEYS → fill.1.1 < 255 →
  encodes imageBuffer fill →
  fillImageRange fill.1.1 imageBuffer fill.1.2 fill.2 this
  = (logCalls (fillReports imageBuffer fill) this, Fulfilled tt).
Proof.
  intros Hrel HP Hkey Hfit (byteBuffer & Hconvert & Hn).
  destruct fill as [[index sourceOffset] sourceStride]. cbn [fst snd] in *.
  pose proof (generateFillImageWrites_frames getFillImagePacketLength index byteBuffer
                HP ltac:(lia) Hn) as Hgen.
  rewrite (fillImageRange_run _ _ _ _ _ _ _ Hkey Hconvert Hgen).
  unfold async. rewrite sendReports_reliable by done.
  unfold fillReports. by rewrite Hconvert, Hgen.
Qed.

Lemma fillSequence_reliable (imageBuffer : list Z) (fills : list (Z * Z * Z)) :
  reliableTransport →
  0 < MAX_PAYLOAD_SIZE getFillImagePacketLength →
  (∀ fill, fill ∈ fills →
     0 ≤ fill.1.1 < NUM_KEYS ∧ fill.1.1 < 255 ∧ encodes imageBuffer fill) →
  ∀ this,
  fillSequence imageBuffer fills this
  = (logCalls (concat (fillReports imageBuffer <$> fills)) this, Fulfilled tt).
Proof.
  intros Hrel HP. unfold fillSequence, async.
  induction fills as [|fill fills IH]; intros Hfills this.
  - cbn. by rewrite logCalls_nil.
  - destruct (Hfills fill ltac:(left)) as (Hkey & Hfit & Henc).
    pose proof (fillImageRange_fulfilled imageBuffer fill this Hrel HP Hkey Hfit Henc)
      as Hone.
    specialize (IH (fun f Hf => Hfills f ltac:(by right))
                  (logCalls (fillReports imageBuffer fill) this)).
    destruct fill as [[index sourceOffset] sourceStride]. cbn [fst snd] in Hone.
    cbn [forOf fmap list_fmap concat]. unfold mbind, Exec_bind, await at 1.
    rewrite Hone.
    destruct (forOf fills _ (logCalls _ this)) as [this' [u|e]]; [|done].
    destruct u.
    rewrite IH. by rewrite logCalls_app.
Qed.

(** X21: a fill that goes through.  With a transport that fulfils every
    call, at most 255 keys, a key transform that stays in range, packets
    longer than their 16-byte header and an encoder that accepts the image
    and returns no more than 65536 payloads of bytes, [fillImage] with a
    valid key and an image of the right length is fulfilled; the object is
    then as before except that the device has received, after the calls it
    had, exactly the framed packets of the encoded image, in order: as
    many reports as the encoded image has payloads. *)
Theorem fillImage_delivers keyIndex (imageBuffer byteBuffer : list Z) this :
  reliableTransport → transformInRange →
  NUM_KEYS ≤ 255 → 0 < MAX_PAYLOAD_SIZE getFillImagePacketLength →
  0 ≤ keyIndex < NUM_KEYS → byteLength imageBuffer = ICON_BYTES →
  convertFillImage imageBuffer 0 (ICON_SIZE * 3) = Some byteBuffer →
  ceilDiv (byteLength byteBuffer) (MAX_PAYLOAD_SIZE getFillImagePacketLength)
    ≤ 65536 →
  ∃ packets,
    generateFillImageWrites getFillImagePacketLength (transformKeyIndex keyIndex)
      byteBuffer = Normal packets
    ∧ Z.of_nat (length packets)
      = ceilDiv (byteLength byteBuffer) (MAX_PAYLOAD_SIZE getFillImagePacketLength)
    ∧ fillImage keyIndex imageBuffer this
      = (logCalls (SendReport <$> packets) this, Fulfilled tt).
Proof.
  intros Hrel Hrange HN HP Hkey Hlen Hconvert Hn.
  pose proof (Hrange keyIndex Hkey) as Hkey'.
  assert (Hfit : 0 ≤ transformKeyIndex keyIndex < 255) by lia.
  pose proof (generateFillImageWrites_frames getFillImagePacketLength
                (transformKeyIndex keyIndex) byteBuffer HP Hfit Hn) as Hgen.
  eexists. split; [exact Hgen|]. split.
  { rewrite length_fmap, length_seqZ.
    pose proof (ceilDiv_spec (byteLength byteBuffer) _ HP).
    pose proof (byteLength_nonneg byteBuffer). nia. }
  rewrite fillImage_eq, !decide_True by done.
  pose proof (fillImageRange_fulfilled imageBuffer
                (transformKeyIndex keyIndex, 0, ICON_SIZE * 3) this Hrel HP) as Hrun.
  cbn [fst snd] in Hrun.
  rewrite Hrun; [|done|lia|by exists byteBuffer].
  unfold fillReports. by rewrite Hconvert, Hgen.
Qed.

(** X22: a panel that goes through.  With a transport that fulfils every
    call, a panel of at least one column and at most 255 keys, packets
    longer than their header and an encoder that accepts every window of
    the panel (no more than 65536 payloads each), [fillPanel] with a
    buffer of the right length is fulfilled, and the device has received,
    after the calls it had, the reports of all numKeys fills, in row-major
    order, and nothing else.  The same holds for [clearAllKeys] and its
    black fills when the key transform stays in range. *)
Theorem fillPanel_fulfilled (imageBuffer : list Z) this :
  reliableTransport →
  NUM_KEYS ≤ 255 → 0 < MAX_PAYLOAD_SIZE getFillImagePacketLength →
  (0 < KEY_COLUMNS → 0 ≤ KEY_ROWS →
   byteLength imageBuffer = ICON_BYTES * NUM_KEYS →
   (∀ fill, fill ∈ panelFills → encodes imageBuffer fill) →
   fillPanel imageBuffer this
   = (logCalls (concat (fillReports imageBuffer <$> panelFills)) this, Fulfilled tt))
  ∧ (transformInRange →
     (∀ fill, fill ∈ clearFills → encodes (solidColor 0 0 0) fill) →
     clearAllKeys this
     = (logCalls (concat (fillReports (solidColor 0 0 0) <$> clearFills)) this,
        Fulfilled tt)).
Proof.
  intros Hrel HN HP. split.
  - intros Hc Hr Hlen Henc.
    rewrite fillPanel_as_sequence by (done || lia).
    apply fillSequence_reliable; [done..|].
    intros fill Hfill. split; [|split; [|by apply Henc]].
    + unfold panelFills in Hfill.
      apply list_elem_of_fmap in Hfill as (k & -> & Hk%elem_of_seqZ).
      cbn [panelFill fst]. apply panelKeyIndex_range.
      * split; [apply Z.div_pos; lia|]. apply Z.div_lt_upper_bound; [lia|].
        unfold NUM_KEYS in Hk. lia.
      * apply Z.mod_pos_bound. lia.
    + unfold panelFills in Hfill.
      apply list_elem_of_fmap in Hfill as (k & -> & Hk%elem_of_seqZ).
      cbn [panelFill fst].
      assert (0 ≤ panelKeyIndex (k / KEY_COLUMNS) (k mod KEY_COLUMNS) < NUM_KEYS);
        [|lia].
      apply panelKeyIndex_range.
      * split; [apply Z.div_pos; lia|]. apply Z.div_lt_upper_bound; [lia|].
        unfold NUM_KEYS in Hk. lia.
      * apply Z.mod_pos_bound. lia.
  - intros Hrange Henc.
    assert (Hrun : clearAllKeys this = fillSequence (solidColor 0 0 0) clearFills this).
    { unfold clearAllKeys, fillSequence, async, forRange, clearFills.
      rewrite Z.sub_0_r, clearKeys_as_fills; [done|].
      intros k Hk. apply elem_of_seqZ in Hk. lia. }
    rewrite Hrun. apply fillSequence_reliable; [done..|].
    intros fill Hfill. specialize (Henc fill Hfill).
    unfold clearFills in Hfill.
    apply list_elem_of_fmap in Hfill as (k & -> & Hk%elem_of_seqZ).
    cbn [fst]. pose proof (Hrange k ltac:(lia)). split; [done|]. split; [lia|done].
Qed.
End Progress.

Lemma fillImage_delivers_witness :
  (@fillImage sampleDeck sampleTransport 4 (replicate 12 5) sampleState).2
  = Fulfilled tt
  ∧ length (calls (device
      (@fillImage sampleDeck sampleTransport 4 (replicate 12 5) sampleState).1))
    = 2%nat.
Proof.
  destruct (@fillImage_delivers sampleDeck sampleTransport 4 (replicate 12 5)
              (replicate 12 5) sampleState) as (packets & Hgen & _ & Hrun).
  - intros log c. reflexivity.
  - intros i Hi. exact Hi.
  - by_evaluation.
  - by_evaluation.
  - by_evaluation.
  - reflexivity.
  - reflexivity.
  - by_evaluation.
  - rewrite Hrun. split; [reflexivity|].
    vm_compute in Hgen. injection Hgen as <-. reflexivity.
Defined.

Lemma fillPanel_fulfilled_witness :
  (@fillPanel sampleDeck sampleTransport (replicate 72 5) sampleState).2
  = Fulfilled tt.
Proof.
  destruct (@fillPanel_fulfilled sampleDeck sampleTransport (replicate 72 5)
              sampleState) as [Hpanel _].
  - intros log c. reflexivity.
  - by_evaluation.
  - by_evaluation.
  - rewrite Hpanel; [reflexivity|by_evaluation..|].
    apply Forall_forall.
    let fills := eval vm_compute in (@panelFills sampleDeck) in
    change (@panelFills sampleDeck) with fills.
    repeat constructor; (eexists; split; [reflexivity|by_evaluation]).
Defined.

(** * The first report after construction *)

Section FirstReport.
Context {model : StreamDeckModel}.

Lemma released_slots_events data this (slots : list Z) :
  (∀ i, i ∈ slots → arrayGet (keyState this) (transformKeyIndex i) = Some false) →
  slotEvent data <$> filter (slotChanged data this) slots
  = (fun i => Down (transformKeyIndex i))
      <$> filter (fun i => keyPressedAt data i = true) slots.
Proof.
  induction slots as [|i slots IH]; intros Hreleased; [done|].
  rewrite !filter_cons.
  specialize (IH (fun j Hj => Hreleased j ltac:(by right))).
  pose proof (Hreleased i ltac:(left)) as Hi.
  destruct (decide (slotChanged data this i)) as [Hc|Hc];
    destruct (decide (keyPressedAt data i = true)) as [Hp|Hp];
    unfold slotChanged in Hc; rewrite Hi in Hc.
  - cbn [fmap list_fmap]. f_equal; [|exact IH]. unfold slotEvent. by rewrite Hp.
  - by destruct (keyPressedAt data i).
  - rewrite Hp in Hc. exfalso. by apply Hc.
  - exact IH.
Qed.

(** X23: the first report after construction.  With a key transform that
    is one-to-one and stays in [0, numKeys), the object the constructor
    returns answers any input report with ['down'] events only: one for
    each native slot whose byte is non-zero, in slot order, carrying the
    transformed index. *)
Theorem first_report_presses hid offset (data : list Z) this :
  transformInjective → transformInRange →
  StreamDeckBase_new hid offset = Normal this →
  (onInput data this).2
  = (fun i => Down (transformKeyIndex i))
      <$> filter (fun i => keyPressedAt data i = true) (seqZ 0 NUM_KEYS).
Proof.
  intros Hinj Hrange Hnew.
  destruct (onInput_run data this _ (transformInjective_NoDup Hinj)) as (Hevents & _).
  cbv zeta in Hevents. unfold onInput. rewrite Hevents.
  apply released_slots_events. intros i Hi%elem_of_seqZ.
  revert Hnew. unfold StreamDeckBase_new, Array_new_fill.
  destruct ((NUM_KEYS <? 0) || (4294967295 <? NUM_KEYS)); [done|].
  cbn. intros [= <-]. unfold arrayGet. cbn [keyState arrayItems].
  rewrite Array_new_fill_items. apply decide_True. apply Hrange. lia.
Qed.
End FirstReport.

Lemma first_report_presses_witness :
  (@onInput sampleDeck [0; 3; 0; 0; 1; 0] sampleState).2 = [Down 1; Down 4].
Proof.
  rewrite (@first_report_presses sampleDeck freshDevice 0 [0; 3; 0; 0; 1; 0]
             sampleState).
  - reflexivity.
  - intros i j _ _ Hij. exact Hij.
  - intros i Hi. exact Hi.
  - reflexivity.
Defined.

(** * The panel, end to end *)

Section PanelDelivery.
Context {model : StreamDeckModel} {transport : Transport}.

Lemma panelFills_keys (fill : Z * Z * Z) :
  0 ≤ KEY_COLUMNS → 0 ≤ KEY_ROWS → fill ∈ panelFills → 0 ≤ fill.1.1 < NUM_KEYS.
Proof.
  intros Hc Hr Hfill. unfold panelFills in Hfill.
  apply list_elem_of_fmap in Hfill as (k & -> & Hk%elem_of_seqZ).
  assert (0 < KEY_COLUMNS) by (unfold NUM_KEYS in Hk; nia).
  cbn [panelFill fst]. apply panelKeyIndex_range.
  - split; [apply Z.div_pos; lia|]. apply Z.div_lt_upper_bound; [lia|].
    unfold NUM_KEYS in Hk. lia.
  - apply Z.mod_pos_bound. lia.
Qed.

(** C7: for a panel buffer of exactly iconBytes * numKeys bytes on a
    columns x rows model, [fillPanel] is the sequential run, in row-major
    order, of the numKeys per-key fills, each awaited before the next
    starts and the first failure ending the run; the fill of cell
    (row, column) reads the source at byte offset
    row * stride * iconSize + column * iconSize * 3 with stride =
    iconSize * 3 * columns; the key a right-to-left model addresses for
    panel column 0 is the key a left-to-right model addresses for column
    columns - 1 of that row.  All numKeys fills are issued when none
    fails: with a transport that fulfils every call, at most 255 keys,
    packets longer than their header and an encoder that accepts every
    window of the panel with no more than 65536 payloads each, every fill
    is framed into its ceil(L/P) packets, [fillPanel] is fulfilled, and
    the device has received, after the calls it had, exactly the packets
    of the numKeys fills, fill after fill, and nothing else; and whenever
    the run is fulfilled the device has received the reports of all
    numKeys fills, in that order. *)
Theorem fillPanel_fills (imageBuffer : list Z) :
  byteLength imageBuffer = ICON_BYTES * NUM_KEYS →
  0 ≤ KEY_COLUMNS → 0 ≤ KEY_ROWS →
  (∀ this, fillPanel imageBuffer this = fillSequence imageBuffer panelFills this)
  ∧ Z.of_nat (length panelFills) = NUM_KEYS
  ∧ (∀ row column, 0 ≤ row < KEY_ROWS → 0 ≤ column < KEY_COLUMNS →
       let stride := ICON_SIZE * 3 * KEY_COLUMNS in
       panelFills !! Z.to_nat (row * KEY_COLUMNS + column)
       = Some (panelKeyIndex row column,
               row * stride * ICON_SIZE + column * ICON_SIZE * 3,
               stride))
  ∧ (∀ this u, (fillPanel imageBuffer this).2 = Fulfilled u →
       calls (device (fillPanel imageBuffer this).1)
       = calls (device this) ++ concat (fillReports imageBuffer <$> panelFills))
  ∧ (∀ row, panelKeyIndexFor rtl KEY_COLUMNS row 0
            = panelKeyIndexFor ltr KEY_COLUMNS row (KEY_COLUMNS - 1))
  ∧ (reliableTransport →
     NUM_KEYS ≤ 255 → 0 < MAX_PAYLOAD_SIZE getFillImagePacketLength →
     (∀ fill, fill ∈ panelFills → encodes imageBuffer fill) →
     (∀ fill, fill ∈ panelFills →
        ∃ byteBuffer packets,
          convertFillImage imageBuffer fill.1.2 fill.2 = Some byteBuffer
          ∧ generateFillImageWrites getFillImagePacketLength fill.1.1 byteBuffer
            = Normal packets
          ∧ Z.of_nat (length packets)
            = ceilDiv (byteLength byteBuffer)
                (MAX_PAYLOAD_SIZE getFillImagePacketLength)
          ∧ fillReports imageBuffer fill = SendReport <$> packets)
     ∧ ∀ this,
         fillPanel imageBuffer this
         = (logCalls (concat (fillReports imageBuffer <$> panelFills)) this,
            Fulfilled tt)).
Proof.
  intros Hlen Hc Hr.
  assert (HN : 0 ≤ NUM_KEYS) by (unfold NUM_KEYS; nia).
  split; [intros this; by apply fillPanel_as_sequence|].
  split; [unfold panelFills; rewrite length_fmap, length_seqZ; lia|].
  split; [|split; [|split]].
  - intros row column Hrow Hcol stride. unfold panelFills.
    rewrite list_lookup_fmap, lookup_seqZ_lt by (unfold NUM_KEYS; nia).
    rewrite Z.add_0_l, Z2Nat.id by nia. cbn [fmap option_fmap option_map].
    replace ((row * KEY_COLUMNS + column) / KEY_COLUMNS) with row
      by (apply (Z.div_unique _ _ _ column); lia).
    replace ((row * KEY_COLUMNS + column) mod KEY_COLUMNS) with column
      by (apply (Z.mod_unique _ _ row); lia).
    reflexivity.
  - intros this u. rewrite fillPanel_as_sequence by done.
    apply fillSequence_calls.
  - intros row. unfold panelKeyIndexFor. lia.
  - intros Hrel Hkeys HP Henc. split.
    + intros fill Hfill. destruct (Henc fill Hfill) as (byteBuffer & Hconvert & Hn).
      pose proof (panelFills_keys fill Hc Hr Hfill) as Hkey.
      assert (Hfit : 0 ≤ fill.1.1 < 255) by lia.
      pose proof (generateFillImageWrites_frames getFillImagePacketLength fill.1.1
                    byteBuffer HP Hfit Hn) as Hgen.
      exists byteBuffer. eexists. split; [exact Hconvert|]. split; [exact Hgen|].
      split.
      { rewrite length_fmap, length_seqZ.
        pose proof (ceilDiv_spec (byteLength byteBuffer) _ HP).
        pose proof (byteLength_nonneg byteBuffer). nia. }
      destruct fill as [[index sourceOffset] sourceStride]. cbn [fst snd] in *.
      unfold fillReports. by rewrite Hconvert, Hgen.
    + intros this. rewrite fillPanel_as_sequence by done.
      apply fillSequence_reliable; [done..|].
      intros fill Hfill. pose proof (panelFills_keys fill Hc Hr Hfill) as Hkey.
      split; [done|]. split; [lia|by apply Henc].
Qed.
End PanelDelivery.

Lemma fillPanel_fills_witness :
  @fillPanel sampleDeck sampleTransport (seqZ 0 72) sampleState
  = (logCalls (concat (@fillReports sampleDeck (seqZ 0 72) <$> @panelFills sampleDeck))
       sampleState,
     Fulfilled tt)
  ∧ length (calls (device
      (@fillPanel sampleDeck sampleTransport (seqZ 0 72) sampleState).1)) = 12%nat
  ∧ Z.of_nat (length (@panelFills sampleDeck)) = @NUM_KEYS sampleDeck
  ∧ @panelFills sampleDeck !! 4%nat = Some (4, 42, 18).
Proof.
  destruct (@fillPanel_fills sampleDeck sampleTransport (seqZ 0 72))
    as (_ & Hcount & Hcell & _ & _ & Htotal); [by_evaluation..|].
  destruct Htotal as [_ Hall].
  - intros log c. reflexivity.
  - by_evaluation.
  - by_evaluation.
  - apply Forall_forall.
    let fills := eval vm_compute in (@panelFills sampleDeck) in
    change (@panelFills sampleDeck) with fills.
    repeat constructor; (eexists; split; [reflexivity|by_evaluation]).
  - split; [apply Hall|]. split; [rewrite Hall; reflexivity|].
    split; [assumption|]. apply (Hcell 1 1); by_evaluation.
Defined.

(** C7 (as stated) fails where the one-based key index leaves its byte: on
    a strip of 256 keys in one row, numbered from the right, the fill of
    panel column 0 addresses key 255, whose header byte 256 the Buffer
    refuses; with a buffer of the right length and a transport that
    fulfils every call, [fillPanel] is rejected before any report is
    sent, so none of the 256 fills reaches the device. *)
Lemma fillPanel_fills_counterexample :
  byteLength widePanel = @ICON_BYTES wideDeck * @NUM_KEYS wideDeck
  ∧ @NUM_KEYS wideDeck = 256
  ∧ @reliableTransport sampleTransport
  ∧ (@panelFills wideDeck) !! 0%nat = Some (255, 0, 768)
  ∧ generateFillImageWrites 22 255 [0; 0; 0] = Throw BufferOutOfRange
  ∧ @fillPanel wideDeck sampleTransport widePanel wideState
    = (wideState, Rejected BufferOutOfRange)
  ∧ calls (device (@fillPanel wideDeck sampleTransport widePanel wideState).1) = []
  ∧ (@fillPanel wideDeck sampleTransport widePanel wideState).2 ≠ Fulfilled tt.
Proof.
  assert (Hrun : @fillPanel wideDeck sampleTransport widePanel wideState
                 = (wideState, Rejected BufferOutOfRange))
    by (vm_compute; reflexivity).
  split; [reflexivity|]. split; [reflexivity|].
  split; [intros log c; reflexivity|].
  split; [vm_compute; reflexivity|]. split; [vm_compute; reflexivity|].
  split; [exact Hrun|]. rewrite Hrun. split; [reflexivity|discriminate].
Qed.
